(** * bcryptbenchmark: the sweep controller and the statistics reducer

    A shallow embedding of [main.go] and the proofs of its specification.

    - Go's [int] and [time.Duration] are 64-bit two's complement integers:
      they are modelled as [Z] with the wrap-around written out ([Int64]).
    - Go's [float64] is IEEE 754 binary64 with round-to-nearest-even: it is
      modelled by the executable specification [SpecFloat] of the standard
      library at precision 53 ([Float64]).  Every operation is rounded on
      its own, as the amd64 compiler does (no fused multiply-add).
    - A slice of durations is a header (pointer, length, capacity) over a
      backing array that lives in a heap, so that aliasing is visible
      ([Slices]).
    - [log.Fatalf], run-time panics and loops are explicit: a computation
      yields an [outcome], loops carry fuel.
    - The hashing primitive and the clock around it are an oracle
      ([primitive]): the n-th invocation either fails with an error or
      succeeds after an elapsed time. *)

From Stdlib Require Import ZArith List Bool Lia String Ascii.
From Stdlib Require Import Floats.SpecFloat.
From Stdlib Require Import DecimalString.
From stdpp Require Import base tactics option list numbers sorting.

Open Scope Z_scope.

(** ** Machine integers *)

Module Int64.

Definition min_int : Z := - 2 ^ 63.
Definition max_int : Z := 2 ^ 63 - 1.

Definition in_range (z : Z) : Prop := min_int <= z <= max_int.

Definition in_rangeb (z : Z) : bool := (min_int <=? z) && (z <=? max_int).

(** Reduction of a mathematical integer to its 64-bit representative. *)
Definition wrap (z : Z) : Z := (z + 2 ^ 63) mod 2 ^ 64 - 2 ^ 63.

Definition add (a b : Z) : Z := wrap (a + b).
Definition sub (a b : Z) : Z := wrap (a - b).

(** Go's [/] on integers truncates toward zero; the caller checks the
    divisor. *)
Definition quot (a b : Z) : Z := wrap (Z.quot a b).

End Int64.

(** ** Durations: [time.Duration] counts nanoseconds *)

Module Duration.

Definition Nanosecond : Z := 1.
Definition Microsecond : Z := 1000 * Nanosecond.
Definition Millisecond : Z := 1000 * Microsecond.
Definition Second : Z := 1000 * Millisecond.

End Duration.

Definition ms (k : Z) : Z := k * Duration.Millisecond.

(** ** Binary64 *)

Module Float64.

Definition float : Type := spec_float.

Definition prec : Z := 53.
Definition emax : Z := 1024.

Definition mul : float -> float -> float := SFmul prec emax.
Definition add : float -> float -> float := SFadd prec emax.
Definition sub : float -> float -> float := SFsub prec emax.
Definition div : float -> float -> float := SFdiv prec emax.
Definition sqrt : float -> float := SFsqrt prec emax.
Definition leb : float -> float -> bool := SFleb.

(** Every [float64] value is a valid binary64. *)
Definition valid (f : float) : Prop := valid_binary prec emax f = true.

(** [float64(i)] for an integer [i]: the nearest binary64, ties to even. *)
Definition of_int (z : Z) : float := binary_normalize prec emax z 0 false.

(** The integer part of a finite float, rounded toward zero. *)
Definition trunc (f : float) : option Z :=
  match f with
  | S754_zero _ => Some 0
  | S754_finite s m e =>
      let a := match e with
               | Zneg k => Z.shiftr (Zpos m) (Zpos k)
               | _ => Z.shiftl (Zpos m) e
               end in
      Some (if s then - a else a)
  | S754_infinity _ | S754_nan => None
  end.

(** The largest integer below a finite float. *)
Definition floor (f : float) : option Z :=
  match f with
  | S754_zero _ => Some 0
  | S754_finite s m e =>
      let z := if s then Zneg m else Zpos m in
      Some match e with
           | Zneg k => z / 2 ^ Zpos k
           | _ => z * 2 ^ e
           end
  | S754_infinity _ | S754_nan => None
  end.

(** The language leaves the result of converting a float that has no
    64-bit integer counterpart (NaN, an infinity, a value out of range) to
    the implementation.  [unrep] is that choice; [to_int] is [int(f)] and
    [time.Duration(f)]. *)
Definition to_int (unrep : float -> Z) (f : float) : Z :=
  match trunc f with
  | Some z => if Int64.in_rangeb z then z else Int64.wrap (unrep f)
  | None => Int64.wrap (unrep f)
  end.

(** amd64: [CVTTSD2SQ] yields the "integer indefinite" value. *)
Definition amd64 : float -> Z := fun _ => Int64.min_int.

End Float64.

Abbreviation float := Float64.float.

(** ** Outcomes of a computation *)

Inductive panic : Type :=
| IndexOutOfRange
| IntegerDivideByZero
| MakesliceLenOutOfRange
| MakesliceCapOutOfRange.

Inductive outcome (A : Type) : Type :=
| Returned (a : A)
| Panicked (p : panic)
| Fatal (msg : string)
| OutOfFuel.

Arguments Returned {A} a.
Arguments Panicked {A} p.
Arguments Fatal {A} msg.
Arguments OutOfFuel {A}.

#[global] Instance outcome_ret : MRet outcome := fun A a => Returned a.

#[global] Instance outcome_bind : MBind outcome := fun A B k x =>
  match x with
  | Returned a => k a
  | Panicked p => Panicked p
  | Fatal msg => Fatal msg
  | OutOfFuel => OutOfFuel
  end.

(** [s[i]] with the bounds check of the run time. *)
Definition index (s : list Z) (i : Z) : outcome Z :=
  if (0 <=? i) && (i <? Z.of_nat (length s))
  then match s !! Z.to_nat i with
       | Some x => Returned x
       | None => Panicked IndexOutOfRange
       end
  else Panicked IndexOutOfRange.

(** ** Slices of durations *)

Module Slices.

(** An address is the position of a backing array in the heap. *)
Record slice : Type := Slice { ptr : nat; len : nat; cap : nat }.

(** The heap holds the backing arrays. *)
Abbreviation heap := (list (list Z)).

Definition array (h : heap) (s : slice) : list Z := default [] (h !! ptr s).

(** The elements a slice denotes. *)
Definition elems (h : heap) (s : slice) : list Z := take (len s) (array h s).

(** [make([]time.Duration, n, c)]: a fresh zeroed array.  Running out of
    memory is not modelled. *)
Definition make (h : heap) (n c : Z) : outcome (heap * slice) :=
  if n <? 0 then Panicked MakesliceLenOutOfRange
  else if c <? n then Panicked MakesliceCapOutOfRange
  else Returned (h ++ [replicate (Z.to_nat c) 0],
                 Slice (length h) (Z.to_nat n) (Z.to_nat c)).

(** [append(s, x)]: in place while the capacity lasts.  How much a full
    slice grows is the run time's choice; the model allocates what is
    needed. *)
Definition append (h : heap) (s : slice) (x : Z) : heap * slice :=
  if (len s <? cap s)%nat
  then (<[ptr s := <[len s := x]> (array h s)]> h,
        Slice (ptr s) (S (len s)) (cap s))
  else (h ++ [elems h s ++ [x]], Slice (length h) (S (len s)) (S (len s))).

(** [copy(dst, src)]. *)
Definition copy (h : heap) (dst src : slice) : heap :=
  let n := Nat.min (len dst) (len src) in
  <[ptr dst := take n (elems h src) ++ drop n (array h dst)]> h.

(** [slices.Sort(s)]: of the library; it leaves the elements of [s] in
    ascending order, in place. *)
Definition sort (h : heap) (s : slice) : heap :=
  <[ptr s := merge_sort Z.le (elems h s) ++ drop (len s) (array h s)]> h.

End Slices.

(** ** The data of the program *)

Module Config.

Record t : Type := {
  StartCost : Z;
  EndCost : Z;
  Password : string;
  GenerateLength : Z;
  Iterations : Z
}.

End Config.

Module CostResult.

Record t : Type := {
  Cost : Z;
  Durations : Slices.slice;
  Mean : Z;
  StdDev : Z;
  P25 : Z;
  P75 : Z;
  P95 : Z;
  P99 : Z;
  Iterations : Z
}.

End CostResult.

Definition spinnerFrames : list string :=
  ["⠋"; "⠙"; "⠹"; "⠸"; "⠼"; "⠴"; "⠦"; "⠧"; "⠇"; "⠏"]%string.

(** What the program writes to standard output, by the arguments of the
    call that writes it. *)
Inductive event : Type :=
| Progress (frame : string) (cost iter total : Z)
| ClearLine.

(** The n-th call of [bcrypt.GenerateFromPassword] and the time
    [time.Since] measures around it. *)
Inductive hash_result : Type :=
| HashOk (elapsed : Z)
| HashErr (err : string).

Definition primitive : Type := nat -> list Byte.byte -> Z -> hash_result.

Record world : Type := World {
  heap : Slices.heap;
  stdout : list event;
  invocations : nat
}.

Definition print (w : world) (e : event) : world :=
  World (heap w) (stdout w ++ [e]) (invocations w).

Definition invoked (w : world) : world :=
  World (heap w) (stdout w) (S (invocations w)).

Definition with_heap (w : world) (h : Slices.heap) : world :=
  World h (stdout w) (invocations w).

(** The text [log.Fatalf] prints before it exits. *)
Definition fatal_message (err : string) : string :=
  String (ascii_of_nat 10) ("Error generating hash: " ++ err).

(** ** The statistics reducer *)

Section Reducer.

Variable unrep : float -> Z.

(** [calculateMean]: the running total is a [time.Duration]. *)
Definition calculateMean (durations : list Z) : outcome Z :=
  let total := fold_left (fun total d => Int64.add total d) durations 0 in
  let n := Z.of_nat (length durations) in
  if n =? 0 then Panicked IntegerDivideByZero
  else Returned (Int64.quot total n).

(** [calculateStdDev]: the accumulator is a [float64]. *)
Definition calculateStdDev (durations : list Z) (mean : Z) : Z :=
  if Z.of_nat (length durations) <? 2 then 0
  else
    let sumSquares :=
      fold_left
        (fun sumSquares d =>
           let diff := Float64.of_int (Int64.sub d mean) in
           Float64.add sumSquares (Float64.mul diff diff))
        durations (S754_zero false) in
    let variance :=
      Float64.div sumSquares
        (Float64.of_int (Z.of_nat (length durations) - 1)) in
    Float64.to_int unrep (Float64.sqrt variance).

(** [calculatePercentile]. *)
Definition calculatePercentile (sorted : list Z) (percentile : float)
  : outcome Z :=
  let n := Z.of_nat (length sorted) in
  if n =? 0 then Returned 0
  else if n =? 1 then index sorted 0
  else
    let rank :=
      Float64.mul (Float64.div percentile (Float64.of_int 100))
                  (Float64.of_int (n - 1)) in
    let lower := Float64.to_int unrep rank in
    let upper := Int64.add lower 1 in
    if upper >=? n then index sorted (n - 1)
    else
      let weight := Float64.sub rank (Float64.of_int lower) in
      lo ← index sorted lower;
      hi ← index sorted upper;
      Returned
        (Float64.to_int unrep
           (Float64.add
              (Float64.mul (Float64.of_int lo)
                           (Float64.sub (Float64.of_int 1) weight))
              (Float64.mul (Float64.of_int hi) weight))).

(** [calculateStats]: [sorted] is a fresh slice, [durations] is stored in
    the result as it came. *)
Definition calculateStats (h : Slices.heap) (cost : Z)
    (durations : Slices.slice) : Slices.heap * outcome CostResult.t :=
  let n := Z.of_nat (Slices.len durations) in
  match Slices.make h n n with
  | Returned (h, sorted) =>
      let h := Slices.copy h sorted durations in
      let h := Slices.sort h sorted in
      let data := Slices.elems h sorted in
      (h,
       mean ← calculateMean data;
       let stdDev := calculateStdDev data mean in
       p25 ← calculatePercentile data (Float64.of_int 25);
       p75 ← calculatePercentile data (Float64.of_int 75);
       p95 ← calculatePercentile data (Float64.of_int 95);
       p99 ← calculatePercentile data (Float64.of_int 99);
       Returned
         {| CostResult.Cost := cost;
            CostResult.Durations := durations;
            CostResult.Mean := mean;
            CostResult.StdDev := stdDev;
            CostResult.P25 := p25;
            CostResult.P75 := p75;
            CostResult.P95 := p95;
            CostResult.P99 := p99;
            CostResult.Iterations := n |})
  | Panicked p => (h, Panicked p)
  | Fatal msg => (h, Fatal msg)
  | OutOfFuel => (h, OutOfFuel)
  end.

End Reducer.

(** ** The recommendation policy (the [switch] of [printReport]) *)

Definition recommendation (mean : Z) : string :=
  if mean <? 100 * Duration.Millisecond
  then "Fast - consider higher cost for sensitive data"
  else if mean <? 250 * Duration.Millisecond
  then "Good - balanced security and performance"
  else if mean <? 500 * Duration.Millisecond
  then "Acceptable - may impact UX under load"
  else if mean <? 1 * Duration.Second
  then "Slow - may cause timeouts under load"
  else "Too slow - not recommended for production".

(** ** The sweep controller *)

Section Sweep.

Variable unrep : float -> Z.
Variable hash : primitive.
Variable cfg : Config.t.
Variable password : list Byte.byte.

(** The loop over [iter]; [w] is the world before the test of the loop. *)
Fixpoint iterations_loop (fuel : nat) (cost iter spinnerIdx : Z)
    (durations : Slices.slice) (w : world)
  : world * outcome (Z * Slices.slice) :=
  match fuel with
  | O => (w, OutOfFuel)
  | S fuel =>
      if iter <=? Config.Iterations cfg then
        let spinnerIdx :=
          Z.rem (Int64.add spinnerIdx 1) (Z.of_nat (length spinnerFrames)) in
        if (0 <=? spinnerIdx) && (spinnerIdx <? Z.of_nat (length spinnerFrames))
        then
          let frame := default EmptyString (spinnerFrames !! Z.to_nat spinnerIdx) in
          let w := print w (Progress frame cost iter (Config.Iterations cfg)) in
          match hash (invocations w) password cost with
          | HashErr err => (invoked w, Fatal (fatal_message err))
          | HashOk elapsed =>
              let '(h, durations) := Slices.append (heap w) durations elapsed in
              iterations_loop fuel cost (Int64.add iter 1) spinnerIdx durations
                (with_heap (invoked w) h)
          end
        else (w, Panicked IndexOutOfRange)
      else (w, Returned (spinnerIdx, durations))
  end.

(** The loop over [cost]. *)
Fixpoint cost_loop (fuel : nat) (cost spinnerIdx : Z)
    (results : list CostResult.t) (w : world)
  : world * outcome (list CostResult.t) :=
  match fuel with
  | O => (w, OutOfFuel)
  | S fuel =>
      if cost <=? Config.EndCost cfg then
        match Slices.make (heap w) 0 (Config.Iterations cfg) with
        | Returned (h, durations) =>
            match iterations_loop fuel cost 1 spinnerIdx durations
                    (with_heap w h) with
            | (w, Returned (spinnerIdx, durations)) =>
                match calculateStats unrep (heap w) cost durations with
                | (h, Returned r) =>
                    cost_loop fuel (Int64.add cost 1) spinnerIdx
                      (results ++ [r]) (with_heap w h)
                | (h, Panicked p) => (with_heap w h, Panicked p)
                | (h, Fatal msg) => (with_heap w h, Fatal msg)
                | (h, OutOfFuel) => (with_heap w h, OutOfFuel)
                end
            | (w, Panicked p) => (w, Panicked p)
            | (w, Fatal msg) => (w, Fatal msg)
            | (w, OutOfFuel) => (w, OutOfFuel)
            end
        | Panicked p => (w, Panicked p)
        | Fatal msg => (w, Fatal msg)
        | OutOfFuel => (w, OutOfFuel)
        end
      else (w, Returned results)
  end.

(** [runBenchmark].  The slice [results] is local and handed over once: it
    is a list.  Its capacity is computed, and checked by [make], all the
    same. *)
Definition runBenchmark (fuel : nat) (w : world)
  : world * outcome (list CostResult.t) :=
  let c := Int64.add (Int64.sub (Config.EndCost cfg) (Config.StartCost cfg)) 1 in
  if c <? 0 then (w, Panicked MakesliceCapOutOfRange)
  else
    match cost_loop fuel (Config.StartCost cfg) 0 [] w with
    | (w, Returned results) => (print w ClearLine, Returned results)
    | (w, Panicked p) => (w, Panicked p)
    | (w, Fatal msg) => (w, Fatal msg)
    | (w, OutOfFuel) => (w, OutOfFuel)
    end.

End Sweep.

(** What [runBenchmark] hands to [main], which passes it to [printReport]:
    nothing when the process has exited or panicked. *)
Definition delivered (o : outcome (list CostResult.t)) : list CostResult.t :=
  match o with
  | Returned results => results
  | _ => []
  end.

Definition initial_world : world := World [] [] 0.


(** ** The specification's reading of the reducer *)

Definition sum_Z (l : list Z) : Z := fold_right Z.add 0 l.

Definition maximum (s : list Z) : Z := fold_right Z.max (hd 0 s) s.

(** The percentile as the specification words it: the fractional rank, its
    floor and its fractional part, the clamp to the maximum, and the linear
    interpolation between the two order statistics; the arithmetic is that
    of [float64] and the result is a duration. *)
Definition percentile_spec (unrep : float -> Z) (sorted : list Z) (p : float)
  : Z :=
  let n := Z.of_nat (length sorted) in
  if n =? 1 then nth 0 sorted 0
  else
    let r := Float64.mul (Float64.div p (Float64.of_int 100))
                         (Float64.of_int (n - 1)) in
    let lo := default 0 (Float64.floor r) in
    let hi := lo + 1 in
    let w := Float64.sub r (Float64.of_int lo) in
    if hi >=? n then maximum sorted
    else
      Float64.to_int unrep
        (Float64.add
           (Float64.mul (Float64.of_int (nth (Z.to_nat lo) sorted 0))
                        (Float64.sub (Float64.of_int 1) w))
           (Float64.mul (Float64.of_int (nth (Z.to_nat hi) sorted 0)) w)).

Definition squared_deviation (mean x : Z) : float :=
  let d := Float64.of_int (x - mean) in Float64.mul d d.

Definition float_sum (l : list float) : float :=
  fold_left Float64.add l (S754_zero false).

(** The sample standard deviation as the specification words it. *)
Definition stddev_spec (unrep : float -> Z) (samples : list Z) (mean : Z) : Z :=
  let n := Z.of_nat (length samples) in
  if n <? 2 then 0
  else
    Float64.to_int unrep
      (Float64.sqrt
         (Float64.div (float_sum (map (squared_deviation mean) samples))
                      (Float64.of_int (n - 1)))).

(** ** Notions for the proofs about binary64 *)

Definition fexp64 (z : Z) : Z := Z.max (z - 53) (-1074).

(** The mantissa and exponent of a canonical binary64. *)
Definition canon (m e : Z) : Prop :=
  0 < m < 2 ^ 53 /\ -1074 <= e <= 971 /\ (2 ^ 52 <= m \/ e = -1074).

(** [m * 2^e <= M * 2^E] on dyadic numbers. *)
Definition dle (m e M E : Z) : Prop :=
  m * 2 ^ (e - Z.min e E) <= M * 2 ^ (E - Z.min e E).

(** The mantissa above a truncated one. *)
Definition hi (m : Z) (l : location) : Z :=
  match l with loc_Exact => m | _ => m + 1 end.

Definition exact (mrs : shr_record) : bool := negb (shr_r mrs || shr_s mrs).

(** The canonical floats of magnitude at most [M * 2^E]. *)
Definition fbounded (f : float) (M E : Z) : Prop :=
  match f with
  | S754_zero _ => True
  | S754_finite _ m e => canon (Zpos m) e /\ dle (Zpos m) e M E
  | _ => False
  end.

Definition has_sign (s : bool) (f : float) : Prop :=
  match f with
  | S754_zero s' | S754_finite s' _ _ => s' = s
  | _ => False
  end.

Definition nonneg (f : float) : Prop :=
  match f with
  | S754_zero _ | S754_finite false _ _ => True
  | _ => False
  end.

(** ** Rounding on integers

    [rne m k] is [m / 2^k] rounded to the nearest integer, ties to even;
    [RN z] is [z] rounded to 53 significant bits. *)

Definition rne (m k : Z) : Z :=
  let a := m / 2 ^ k in
  let r := m mod 2 ^ k in
  if 2 * r <? 2 ^ k then a
  else if 2 ^ k <? 2 * r then a + 1
  else if Z.even a then a else a + 1.

Definition RN (z : Z) : Z :=
  let k := Zdigits2 z - 53 in
  if k <=? 0 then z else rne z k * 2 ^ k.

(** What the shift register of the rounding holds after [n] steps on
    [m0]: the quotient, the round bit and the sticky bit. *)
Definition shr_inv (m0 n : Z) (mrs : shr_record) : Prop :=
  shr_m mrs = m0 / 2 ^ n /\
  shr_r mrs = (2 ^ n <=? 2 * (m0 mod 2 ^ n)) /\
  shr_s mrs = negb (m0 mod 2 ^ n =? 0) && negb (2 * (m0 mod 2 ^ n) =? 2 ^ n).

(** The value of a nonnegative binary64, counted in units of [2^-1074]. *)
Definition fval (f : float) : Z :=
  match f with
  | S754_finite false m e => Zpos m * 2 ^ (e + 1074)
  | _ => 0
  end.

(** Zero, or a positive normal number. *)
Definition regular (f : float) : Prop :=
  match f with
  | S754_zero _ => True
  | S754_finite false m e => canon (Zpos m) e /\ 2 ^ 52 <= Zpos m
  | _ => False
  end.

(** ** The percentile on integers

    The interpolation between two samples [A] and [B] with a weight of
    [k / 2^53] on [B], and the percentile whose fraction [p / 100] is
    [c / 2^53]: what [calculatePercentile] computes, with every binary64
    operation replaced by its rounding. *)

Definition interp (A B k : Z) : Z :=
  RN (RN (A * (2 ^ 53 - k)) + RN (B * k)) / 2 ^ 53.

Definition pmodel (data : list Z) (c : Z) : Z :=
  let n := Z.of_nat (length data) in
  let r := RN (c * (n - 1)) in
  let lo := r / 2 ^ 53 in
  let k := r mod 2 ^ 53 in
  if lo + 1 >=? n then nth (Z.to_nat (n - 1)) data 0
  else interp (nth (Z.to_nat lo) data 0) (nth (Z.to_nat (lo + 1)) data 0) k.

(** The binary64 nearest to 0.25, 0.75, 0.95 and 0.99, times [2^53]. *)
Definition c25 : Z := 2 ^ 51.
Definition c75 : Z := 3 * 2 ^ 51.
Definition c95 : Z := 8556839292003942.
Definition c99 : Z := 8917127262193582.

Definition percentile_grid (p : Z) : Z :=
  if p =? 25 then c25 else if p =? 75 then c75 else if p =? 95 then c95 else c99.

(** ** A sweep to run: costs 4 to 6, two iterations each *)

Definition example_cfg : Config.t :=
  {| Config.StartCost := 4;
     Config.EndCost := 6;
     Config.Password := "correct-horse-battery-staple";
     Config.GenerateLength := 0;
     Config.Iterations := 2 |}.

(** [resolvePassword] with no [-generate]: the bytes of the password. *)
Definition example_password : list Byte.byte :=
  list_byte_of_string (Config.Password example_cfg).

(** A primitive whose time doubles with the cost. *)
Definition steady : primitive :=
  fun k _ cost => HashOk (ms (2 ^ (cost - 4)) + 1000 * Z.of_nat k).

(** The same, except that one invocation fails. *)
Definition failing_at (k0 : nat) : primitive :=
  fun k pw cost =>
    if (k =? k0)%nat then HashErr "entropy source exhausted"
    else steady k pw cost.

(** Claim C1 as the specification words its last part, for one run: the
    summaries of these cost levels reach the caller. *)
Definition summaries_delivered (run : world * outcome (list CostResult.t))
    (costs : list Z) : Prop :=
  map CostResult.Cost (delivered (snd run)) = costs.

(** The five bands of the recommendation and the text of each. *)
Inductive band : Type := Fast | Balanced | Acceptable | Slow | TooSlow.

Definition band_message (b : band) : string :=
  match b with
  | Fast => "Fast - consider higher cost for sensitive data"
  | Balanced => "Good - balanced security and performance"
  | Acceptable => "Acceptable - may impact UX under load"
  | Slow => "Slow - may cause timeouts under load"
  | TooSlow => "Too slow - not recommended for production"
  end.

(** The interval of means of a band: closed below, open above. *)
Definition band_range (b : band) (mean : Z) : Prop :=
  match b with
  | Fast => mean < ms 100
  | Balanced => ms 100 <= mean < ms 250
  | Acceptable => ms 250 <= mean < ms 500
  | Slow => ms 500 <= mean < ms 1000
  | TooSlow => ms 1000 <= mean
  end.

Definition us (k : Z) : Z := k * Duration.Microsecond.

(** Claim C8 as the specification states it, for one result. *)
Definition summary_invariant (r : CostResult.t) : Prop :=
  CostResult.P25 r <= CostResult.P75 r /\
  CostResult.P75 r <= CostResult.P95 r /\
  CostResult.P95 r <= CostResult.P99 r /\
  0 <= CostResult.Mean r /\
  0 <= CostResult.StdDev r.

(** Two equal samples of some 64 years each. *)
Definition long_samples : list Z :=
  [2039407460369035028; 2039407460369035028].

(** The longest duration the summary is proved for: about 19.5 hours. *)
Definition sample_bound : Z := 2 ^ 46.

(** ** The command line *)

Module Bcrypt.

(** [bcrypt.MinCost] and [bcrypt.MaxCost]. *)
Definition MinCost : Z := 4.
Definition MaxCost : Z := 31.

End Bcrypt.

(** The verb [%d]. *)
Definition decimal (z : Z) : string := NilZero.string_of_int (Z.to_int z).

(** [parseFlags], from the values that [flag.Parse] has stored in [cfg]. *)
Definition parseFlags (cfg : Config.t) : outcome Config.t :=
  if Config.StartCost cfg <? Bcrypt.MinCost
  then Fatal ("Start cost must be at least " ++ decimal Bcrypt.MinCost)
  else if Config.EndCost cfg >? Bcrypt.MaxCost
  then Fatal ("End cost must be at most " ++ decimal Bcrypt.MaxCost)
  else if Config.StartCost cfg >? Config.EndCost cfg
  then Fatal "Start cost must be less than or equal to end cost"
  else if Config.Iterations cfg <? 1
  then Fatal "Iterations must be at least 1"
  else Returned cfg.

(** The flags as [parseFlags] declares their defaults. *)
Definition default_flags : Config.t :=
  {| Config.StartCost := 10;
     Config.EndCost := 16;
     Config.Password := "correct-horse-battery-staple";
     Config.GenerateLength := 0;
     Config.Iterations := 3 |}.

(** What [parseFlags] lets through. *)
Definition accepted (cfg : Config.t) : Prop :=
  Bcrypt.MinCost <= Config.StartCost cfg /\
  Config.StartCost cfg <= Config.EndCost cfg /\
  Config.EndCost cfg <= Bcrypt.MaxCost /\
  1 <= Config.Iterations cfg.

(** ** The password *)

Definition charset : string :=
  "abcdefghijklmnopqrstuvwxyzABCDEFGHIJKLMNOPQRSTUVWXYZ0123456789!@#$%^&*".

Definition charset_bytes : list Byte.byte := list_byte_of_string charset.

(** [crypto/rand.Read]: the bytes it writes, or its error. *)
Inductive entropy : Type :=
| RandOk (stream : nat -> Byte.byte)
| RandErr (err : string).

(** [s[i]] on bytes, with the bounds check of the run time. *)
Definition byte_at (s : list Byte.byte) (i : Z) : outcome Byte.byte :=
  if (0 <=? i) && (i <? Z.of_nat (length s))
  then match s !! Z.to_nat i with
       | Some x => Returned x
       | None => Panicked IndexOutOfRange
       end
  else Panicked IndexOutOfRange.

(** [b % byte(len(charset))] on the value of the byte [b]. *)
Definition charset_index (b : Z) : Z := Z.rem b (Z.of_nat (length charset_bytes)).

(** The character that the byte [b] selects. *)
Definition selected (b : Byte.byte) : option Byte.byte :=
  charset_bytes !! Z.to_nat (charset_index (Z.of_N (Byte.to_N b))).

(** The loop [for i := range length] of [generateRandomPassword]. *)
Fixpoint password_loop (randomBytes password : list Byte.byte) (i : Z)
    (todo : nat) : outcome (list Byte.byte) :=
  match todo with
  | O => Returned password
  | S todo =>
      r ← byte_at randomBytes i;
      c ← byte_at charset_bytes (charset_index (Z.of_N (Byte.to_N r)));
      if (0 <=? i) && (i <? Z.of_nat (length password))
      then password_loop randomBytes (<[Z.to_nat i := c]> password) (i + 1) todo
      else Panicked IndexOutOfRange
  end.

(** [generateRandomPassword]: both slices are local; running out of memory
    is not modelled. *)
Definition generateRandomPassword (rnd : entropy) (length : Z)
  : outcome (list Byte.byte) :=
  if length <? 0 then Panicked MakesliceLenOutOfRange
  else
    let password := replicate (Z.to_nat length) Byte.x00 in
    match rnd with
    | RandErr err => Fatal ("Error generating random password: " ++ err)
    | RandOk stream =>
        let randomBytes := map stream (seq 0 (Z.to_nat length)) in
        password_loop randomBytes password 0 (Z.to_nat length)
    end.

(** [resolvePassword]. *)
Definition resolvePassword (rnd : entropy) (cfg : Config.t)
  : outcome (list Byte.byte) :=
  if Config.GenerateLength cfg >? 0
  then generateRandomPassword rnd (Config.GenerateLength cfg)
  else Returned (list_byte_of_string (Config.Password cfg)).

(** The byte values that select the character at position [k]. *)
Definition selectors (k : Z) : list Z :=
  filter (fun b => charset_index b = k) (seqZ 0 256).

(** An entropy source for the examples. *)
Definition counting : entropy :=
  RandOk (fun i => default Byte.x00 (Byte.of_N (N.of_nat (i * 37 mod 256)))).

(** ** Configurations that [parseFlags] refuses *)

Definition no_iterations : Config.t :=
  {| Config.StartCost := 4;
     Config.EndCost := 6;
     Config.Password := "correct-horse-battery-staple";
     Config.GenerateLength := 0;
     Config.Iterations := 0 |}.

Definition empty_range : Config.t :=
  {| Config.StartCost := 7;
     Config.EndCost := 6;
     Config.Password := "correct-horse-battery-staple";
     Config.GenerateLength := 0;
     Config.Iterations := 2 |}.

(** ** What a sweep prints *)

Definition frame (k : Z) : string :=
  default EmptyString (spinnerFrames !! Z.to_nat k).

(** The progress line of the [t]-th invocation, counted from 0, of a sweep
    of [total] iterations a level that starts at [cost] with the spinner at
    [idx]. *)
Definition progress_line (total cost idx : Z) (t : nat) : event :=
  Progress (frame ((idx + Z.of_nat t + 1) mod 10))
           (cost + Z.of_nat t / total) (Z.of_nat t mod total + 1) total.

Definition is_progress (e : event) : Prop :=
  match e with
  | Progress _ _ _ _ => True
  | ClearLine => False
  end.

(** The invocations [first], [first + 1], ... of the primitive at [cost]
    succeeded with the elapsed times [samples], in this order. *)
Definition timed (hash : primitive) (pw : list Byte.byte) (cost : Z)
    (first : nat) (samples : list Z) : Prop :=
  Forall2 (fun j d => hash j pw cost = HashOk d)
          (seq first (length samples)) samples.

(** The sweep stopped on a failure of the primitive: the invocation made
    last failed, [msg] is what [log.Fatalf] prints of its error, and the
    line printed last is the progress line of that invocation. *)
Definition failed_invocation (hash : primitive) (pw : list Byte.byte)
    (w' : world) (printed : list event) (msg : string) : Prop :=
  exists (k : nat) (err frame : string) (cost iter total : Z)
         (before : list event),
    printed = before ++ [Progress frame cost iter total] /\
    invocations w' = S k /\
    hash k pw cost = HashErr err /\
    msg = fatal_message err.

(** [fmt.Print("\r\033[K")] is reached by the sweeps that return. *)
Definition cleared {A : Type} (o : outcome A) : list event :=
  match o with
  | Returned _ => [ClearLine]
  | _ => []
  end.

(** A computation that returns or panics: it does not call [log.Fatalf]
    and it has no loop. *)
Definition plain {A : Type} (o : outcome A) : Prop :=
  match o with
  | Returned _ | Panicked _ => True
  | Fatal _ | OutOfFuel => False
  end.

(** ** The figures of a summary

    What [printReport] shows of a [CostResult]: its cost, its iteration
    count and its six durations. *)

Definition figures (r : CostResult.t) : list Z :=
  [CostResult.Cost r; CostResult.Iterations r; CostResult.Mean r;
   CostResult.StdDev r; CostResult.P25 r; CostResult.P75 r; CostResult.P95 r;
   CostResult.P99 r].

Definition reported (o : outcome CostResult.t) : outcome (list Z) :=
  r ← o; Returned (figures r).

(** ** The report *)

(** The bands in the order of their thresholds. *)
Definition band_index (b : band) : Z :=
  match b with
  | Fast => 0
  | Balanced => 1
  | Acceptable => 2
  | Slow => 3
  | TooSlow => 4
  end.

(** [d.Microseconds()] and [d.Seconds()] of the package [time]. *)
Definition Microseconds (d : Z) : Z := Int64.quot d 1000.

Definition Seconds (d : Z) : float :=
  let sec := Int64.quot d Duration.Second in
  let nsec := Z.rem d Duration.Second in
  Float64.add (Float64.of_int sec)
    (Float64.div (Float64.of_int nsec) (Float64.of_int 1000000000)).

(** What [main] and [printReport] write to standard output: a line of
    text, what the sweep writes, or a line of cells handed to the
    [tabwriter], which aligns them. *)
Inductive output : Type :=
| Println (text : string)
| Screen (e : event)
| Cells (columns : list string).

(** A process, when it has ended: what it printed, how often it invoked the
    primitive, and how it ended. *)
Record process : Type := Process {
  printed : list output;
  hashes : nat;
  exit : outcome unit
}.

Section Report.

(** [fmt.Sprintf] with the verb [%.2f]: of the library. *)
Variable sprintf_2f : float -> string.

(** [formatDuration]. *)
Definition formatDuration (d : Z) : string :=
  if d <? Duration.Millisecond
  then sprintf_2f (Float64.of_int (Microseconds d)) ++ "µs"
  else if d <? Duration.Second
  then sprintf_2f (Float64.div (Float64.of_int (Microseconds d))
                     (Float64.of_int 1000)) ++ "ms"
  else sprintf_2f (Seconds d) ++ "s".

(** [printReport]. *)
Definition printReport (cfg : Config.t) (password : list Byte.byte)
    (results : list CostResult.t) : list output :=
  [Println "Benchmark Configuration";
   Println "-----------------------";
   Cells ["Cost Range:";
          decimal (Config.StartCost cfg) ++ " - " ++ decimal (Config.EndCost cfg)]%string;
   Cells ["Iterations:"; decimal (Config.Iterations cfg) ++ " per cost level"]%string;
   Cells ["Password Length:";
          decimal (Z.of_nat (length password)) ++ " characters"]%string;
   Cells ["Password Source:";
          if Config.GenerateLength cfg >? 0 then "Generated (random)"
          else "Provided"]%string;
   Println "";
   Println "Results";
   Println "-------";
   Println "";
   Cells ["Cost"; "Iterations"; "Mean"; "StdDev"; "P25"; "P75"; "P95"; "P99"; ""]%string;
   Cells ["----"; "----------"; "----"; "------"; "---"; "---"; "---"; "---"; ""]%string]
  ++ map (fun r =>
            Cells [decimal (CostResult.Cost r);
                   decimal (CostResult.Iterations r);
                   formatDuration (CostResult.Mean r);
                   formatDuration (CostResult.StdDev r);
                   formatDuration (CostResult.P25 r);
                   formatDuration (CostResult.P75 r);
                   formatDuration (CostResult.P95 r);
                   formatDuration (CostResult.P99 r);
                   ""]%string) results
  ++ [Println ""; Println "Analysis"; Println "--------"]
  ++ map (fun r =>
            Println ("  Cost " ++ decimal (CostResult.Cost r) ++ ": " ++
                     recommendation (CostResult.Mean r))) results.

Variable unrep : float -> Z.
Variable hash : primitive.
Variable rnd : entropy.

Definition banner : list output :=
  [Println "Bcrypt Cost Benchmark"; Println "====================="; Println ""].

(** [main], from the flags of the command line. *)
Definition main (flags : Config.t) (fuel : nat) : process :=
  match parseFlags flags with
  | Returned cfg =>
      match resolvePassword rnd cfg with
      | Returned password =>
          let '(w, o) := runBenchmark unrep hash cfg password fuel initial_world in
          let shown := banner ++ map Screen (stdout w) in
          match o with
          | Returned results =>
              Process (shown ++ printReport cfg password results)
                      (invocations w) (Returned tt)
          | Panicked p => Process shown (invocations w) (Panicked p)
          | Fatal msg => Process shown (invocations w) (Fatal msg)
          | OutOfFuel => Process shown (invocations w) OutOfFuel
          end
      | Panicked p => Process [] 0 (Panicked p)
      | Fatal msg => Process [] 0 (Fatal msg)
      | OutOfFuel => Process [] 0 OutOfFuel
      end
  | Panicked p => Process [] 0 (Panicked p)
  | Fatal msg => Process [] 0 (Fatal msg)
  | OutOfFuel => Process [] 0 OutOfFuel
  end.

End Report.

(** A formatter for the examples: it tells zero from the rest. *)
Definition two_places (f : float) : string :=
  match f with
  | S754_zero _ => "0.00"
  | _ => "#.##"
  end.

(** A slice that points into the heap [h], all its elements inside its
    backing array. *)
Definition in_heap (h : Slices.heap) (s : Slices.slice) : Prop :=
  (Slices.ptr s < length h)%nat /\
  (Slices.len s <= length (Slices.array h s))%nat.

(** The durations of a summary lie in [[lo, hi]], the percentiles in
    ascending order, and the standard deviation is not negative. *)
Definition summary_within (lo hi : Z) (r : CostResult.t) : Prop :=
  lo <= CostResult.Mean r <= hi /\
  lo <= CostResult.P25 r /\
  CostResult.P25 r <= CostResult.P75 r /\
  CostResult.P75 r <= CostResult.P95 r /\
  CostResult.P95 r <= CostResult.P99 r /\
  CostResult.P99 r <= hi /\
  0 <= CostResult.StdDev r.

(** A primitive for the examples that takes 1ms and 2ms in turn. *)
Definition jittery : primitive :=
  fun k _ _ => HashOk (if Nat.even k then ms 1 else ms 2).

(** * Proofs *)

(** ** Binary64: digits, shifts and rounding *)


Lemma digits2_pos_bounds (p : positive) :
  2 ^ (Zpos (digits2_pos p) - 1) <= Zpos p < 2 ^ Zpos (digits2_pos p).
Proof.
  induction p as [p IH | p IH |]; simpl digits2_pos.
  - rewrite Pos2Z.inj_succ.
    replace (Z.succ (Zpos (digits2_pos p)) - 1) with (Zpos (digits2_pos p)) by lia.
    rewrite Z.pow_succ_r by lia.
    assert (2 ^ Zpos (digits2_pos p) = 2 * 2 ^ (Zpos (digits2_pos p) - 1)) as E.
    { rewrite <- Z.pow_succ_r by lia. f_equal. lia. }
    lia.
  - rewrite Pos2Z.inj_succ.
    replace (Z.succ (Zpos (digits2_pos p)) - 1) with (Zpos (digits2_pos p)) by lia.
    rewrite Z.pow_succ_r by lia.
    assert (2 ^ Zpos (digits2_pos p) = 2 * 2 ^ (Zpos (digits2_pos p) - 1)) as E.
    { rewrite <- Z.pow_succ_r by lia. f_equal. lia. }
    lia.
  - simpl. lia.
Qed.

Lemma Zdigits2_bounds (m : Z) :
  0 < m -> 2 ^ (Zdigits2 m - 1) <= m < 2 ^ Zdigits2 m.
Proof. destruct m; try lia. intros _. apply digits2_pos_bounds. Qed.

Lemma Zdigits2_nonneg m : 0 <= Zdigits2 m.
Proof. destruct m; simpl; lia. Qed.

Lemma Zdigits2_unique (m d : Z) :
  2 ^ (d - 1) <= m < 2 ^ d -> 0 < m -> Zdigits2 m = d.
Proof.
  intros H Hm. pose proof (Zdigits2_bounds m Hm) as B.
  pose proof (Zdigits2_nonneg m).
  assert (0 < d). { destruct (Z_lt_le_dec 0 d); auto. rewrite (Z.pow_neg_r 2 (d-1)) in H by lia.
    assert (2 ^ d <= 2^0) by (destruct (Z.eq_dec d 0); [subst; lia| rewrite Z.pow_neg_r by lia; lia]). simpl in *. lia. }
  assert (Zdigits2 m <> 0). { intro E. rewrite E in B. simpl in B. lia. }
  destruct (Z_lt_le_dec (Zdigits2 m) d).
  - assert (2 ^ Zdigits2 m <= 2 ^ (d - 1)) by (apply Z.pow_le_mono_r; lia). lia.
  - destruct (Z_lt_le_dec d (Zdigits2 m)); [|lia].
    assert (2 ^ d <= 2 ^ (Zdigits2 m - 1)) by (apply Z.pow_le_mono_r; lia). lia.
Qed.

Lemma iter_pos_nat {A} (f : A -> A) (p : positive) (x : A) :
  SpecFloat.iter_pos f p x = Nat.iter (Pos.to_nat p) f x.
Proof.
  revert x. induction p as [p IH | p IH |]; intros x; simpl SpecFloat.iter_pos.
  - rewrite !IH. rewrite Pos2Nat.inj_xI. 
    replace (S (2 * Pos.to_nat p))%nat with (Pos.to_nat p + (Pos.to_nat p + 1))%nat by lia.
    rewrite !Nat.iter_add. reflexivity.
  - rewrite !IH. rewrite Pos2Nat.inj_xO.
    replace (2 * Pos.to_nat p)%nat with (Pos.to_nat p + Pos.to_nat p)%nat by lia.
    rewrite Nat.iter_add. reflexivity.
  - reflexivity.
Qed.

Lemma shr_1_spec (mrs : shr_record) :
  0 <= shr_m mrs ->
  shr_m (shr_1 mrs) = shr_m mrs / 2 /\
  (exact mrs = true -> shr_m mrs mod 2 = 0 -> exact (shr_1 mrs) = true).
Proof.
  destruct mrs as [m r s]. simpl. intros Hm.
  destruct m as [|[p|p|]|p]; try lia; simpl shr_m; unfold exact; simpl.
  - split; [reflexivity|]. intros H _. exact H.
  - split. { rewrite Pos2Z.inj_xI. apply Z.div_unique with 1; lia. }
    intros _ H. rewrite Pos2Z.inj_xI in H. 
    rewrite Z.add_comm, Z.mul_comm, Z.mod_add in H by lia. discriminate.
  - split. { rewrite Pos2Z.inj_xO. apply Z.div_unique with 0; lia. }
    intros H _. destruct r, s; simpl in *; congruence.
  - split; [reflexivity|]. intros _ H. discriminate.
Qed.

Lemma iter_shr_1_spec (n : nat) (mrs : shr_record) :
  0 <= shr_m mrs ->
  shr_m (Nat.iter n shr_1 mrs) = shr_m mrs / 2 ^ Z.of_nat n /\
  (exact mrs = true -> shr_m mrs mod 2 ^ Z.of_nat n = 0 ->
   exact (Nat.iter n shr_1 mrs) = true).
Proof.
  intros Hm. induction n as [|n [IHm IHe]].
  - simpl. rewrite Z.div_1_r. auto.
  - rewrite Nat.iter_succ.
    assert (0 <= shr_m (Nat.iter n shr_1 mrs)) as Hn.
    { rewrite IHm. apply Z.div_pos; lia. }
    destruct (shr_1_spec _ Hn) as [Sm Se].
    rewrite Nat2Z.inj_succ, Z.pow_succ_r by lia.
    split.
    + rewrite Sm, IHm. rewrite Z.div_div by lia. f_equal. lia.
    + intros He Hmod.
      assert (shr_m mrs mod 2 ^ Z.of_nat n = 0) as Hmod'.
      { apply Z.mod_divide in Hmod; [|lia]. apply Z.mod_divide; [lia|].
        destruct Hmod as [c Hc]. exists (c * 2). lia. }
      apply Se; [auto|].
      rewrite IHm.
      apply Z.mod_divide in Hmod; [|lia]. destruct Hmod as [c Hc].
      rewrite Hc. replace (c * (2 * 2 ^ Z.of_nat n)) with ((c * 2) * 2 ^ Z.of_nat n) by lia.
      rewrite Z.div_mul by lia. apply Z.mod_mul. lia.
Qed.

Lemma shr_spec (mrs : shr_record) (e k : Z) :
  0 <= shr_m mrs -> 0 <= k ->
  snd (shr mrs e k) = e + k /\
  shr_m (fst (shr mrs e k)) = shr_m mrs / 2 ^ k /\
  (exact mrs = true -> shr_m mrs mod 2 ^ k = 0 -> exact (fst (shr mrs e k)) = true) /\
  (k = 0 -> fst (shr mrs e k) = mrs).
Proof.
  intros Hm Hk. destruct k as [|p|p]; try lia.
  - simpl. rewrite Z.div_1_r, Z.add_0_r. auto.
  - cbn [shr fst snd]. rewrite iter_pos_nat.
    destruct (iter_shr_1_spec (Pos.to_nat p) mrs Hm) as [A B].
    rewrite positive_nat_Z in *. repeat split; auto. lia.
Qed.

Lemma fexp_eq z : fexp 53 1024 z = fexp64 z.
Proof. reflexivity. Qed.

Lemma dle_le m e M E : e <= E -> dle m e M E <-> m <= M * 2 ^ (E - e).
Proof.
  intros H. unfold dle. rewrite Z.min_l by lia. rewrite Z.sub_diag. simpl. lia.
Qed.

Lemma dle_ge m e M E : E <= e -> dle m e M E <-> m * 2 ^ (e - E) <= M.
Proof.
  intros H. unfold dle. rewrite Z.min_r by lia. rewrite Z.sub_diag. simpl. lia.
Qed.

Lemma dle_le_elim m e M E : e <= E -> dle m e M E -> m <= M * 2 ^ (E - e).
Proof. intros H. apply dle_le, H. Qed.
Lemma dle_le_intro m e M E : e <= E -> m <= M * 2 ^ (E - e) -> dle m e M E.
Proof. intros H. apply dle_le, H. Qed.
Lemma dle_ge_elim m e M E : E <= e -> dle m e M E -> m * 2 ^ (e - E) <= M.
Proof. intros H. apply dle_ge, H. Qed.
Lemma dle_ge_intro m e M E : E <= e -> m * 2 ^ (e - E) <= M -> dle m e M E.
Proof. intros H. apply dle_ge, H. Qed.

Lemma pow2_pos k : 0 < 2 ^ k \/ (k < 0 /\ 2 ^ k = 0).
Proof.
  destruct (Z_lt_le_dec k 0). right. split; auto. apply Z.pow_neg_r; auto.
  left. apply Z.pow_pos_nonneg; lia.
Qed.

Lemma exact_record m l :
  exact (shr_record_of_loc m l) = match l with loc_Exact => true | _ => false end.
Proof. destruct l as [|[]]; reflexivity. Qed.

Lemma loc_record m l : loc_of_shr_record (shr_record_of_loc m l) = l.
Proof. destruct l as [|[]]; reflexivity. Qed.

Lemma shr_m_record m l : shr_m (shr_record_of_loc m l) = m.
Proof. destruct l as [|[]]; reflexivity. Qed.

Lemma round_nearest_even_bounds m (mrs : shr_record) :
  shr_m mrs = m ->
  m <= round_nearest_even m (loc_of_shr_record mrs) <= m + 1 /\
  (exact mrs = true -> round_nearest_even m (loc_of_shr_record mrs) = m).
Proof.
  intros _. destruct mrs as [m0 [] []]; unfold exact; simpl; try (split; [lia|]; intros; try discriminate; auto).
  destruct (Z.even m); split; try lia; intros; discriminate.
Qed.

Lemma round_aux_bound (s : bool) (m e : Z) (l : location) (M E : Z) :
  0 <= m -> (2 ^ 52 <= m \/ e <= -1074) ->
  0 <= M < 2 ^ 53 -> -1074 <= E <= 971 ->
  dle (hi m l) e M E ->
  binary_round_aux 53 1024 s m e l = S754_zero s \/
  exists m' e', binary_round_aux 53 1024 s m e l = S754_finite s m' e' /\
                canon (Zpos m') e' /\ dle (Zpos m') e' M E.
Proof.
  intros Hm Hprec HM HE Hle.
  remember (binary_round_aux 53 1024 s m e l) as r eqn:Hr.
  symmetry in Hr. unfold binary_round_aux in Hr.
  unfold shr_fexp at 1 in Hr. change (fexp 53 1024) with fexp64 in Hr.
  set (d := Zdigits2 m) in *. set (e1 := fexp64 (d + e)) in *.
  assert (0 <= d) as Hd by apply Zdigits2_nonneg.
  assert (0 <= e1 - e) as Hk.
  { unfold e1, fexp64. destruct Hprec as [H|H]; [|lia].
    assert (53 <= d); [|lia].
    destruct (Z_lt_le_dec d 53); [|lia].
    pose proof (Zdigits2_bounds m ltac:(lia)) as B. fold d in B.
    assert (2 ^ d <= 2 ^ 52) by (apply Z.pow_le_mono_r; lia). lia. }
  destruct (shr_spec (shr_record_of_loc m l) e (e1 - e)) as (Se & Sm & Sx & S0);
    [rewrite shr_m_record; lia | lia |].
  destruct (shr (shr_record_of_loc m l) e (e1 - e)) as [mrs1 e1'] eqn:Eshr.
  cbn [fst snd] in *. rewrite shr_m_record in *. rewrite exact_record in Sx.
  assert (e1' = e1) as He1' by lia. clear Se. subst e1'.
  set (m1 := shr_m mrs1) in *.
  destruct (round_nearest_even_bounds m1 mrs1 eq_refl) as [R1 R2].
  set (m2 := round_nearest_even m1 (loc_of_shr_record mrs1)) in *.
  assert (0 < 2 ^ (e1 - e)) as Hpk by (apply Z.pow_pos_nonneg; lia).
  assert (0 <= m1) as Hm1 by (rewrite Sm; apply Z.div_pos; lia).
  assert (-1074 <= e1) as He1 by (unfold e1, fexp64; lia).
  (* the mantissa fits after the shift *)
  assert (m1 < 2 ^ 53) as Hm1lt.
  { rewrite Sm. apply Z.div_lt_upper_bound; [lia|].
    destruct (Z.eq_dec m 0) as [->|Hne]. { assert (0 < 2^53) by lia. lia. }
    pose proof (Zdigits2_bounds m ltac:(lia)) as B. fold d in B.
    assert (2 ^ d <= 2 ^ (e1 - e) * 2 ^ 53).
    { rewrite <- Z.pow_add_r by lia. apply Z.pow_le_mono_r; [lia|]. unfold e1, fexp64. lia. }
    lia. }
  (* normal numbers keep 53 digits *)
  assert (e1 = -1074 \/ 2 ^ 52 <= m1) as Hnorm.
  { destruct (Z.eq_dec e1 (-1074)); [auto|right].
    assert (e1 = d + e - 53) as E1 by (unfold e1, fexp64 in *; lia).
    assert (0 < m) as Hmpos.
    { destruct (Z.eq_dec m 0) as [Hz|]; [|lia]. unfold d in E1. rewrite Hz in E1. simpl in E1.
      destruct Hprec; lia. }
    pose proof (Zdigits2_bounds m Hmpos) as B. fold d in B.
    rewrite Sm. apply Z.div_le_lower_bound; [lia|].
    rewrite <- Z.pow_add_r by lia. replace (e1 - e + 52) with (d - 1) by lia. lia. }
  (* the bound survives the rounding *)
  assert (e1 <= E /\ m2 <= M * 2 ^ (E - e1)) as [HeE Hm2].
  { destruct (Z_lt_le_dec E e1) as [Hlt|Hge].
    - exfalso.
      assert (e1 = d + e - 53) as E1 by (unfold e1, fexp64 in *; lia).
      assert (0 < m) as Hmpos.
      { destruct (Z.eq_dec m 0) as [Hz|]; [|lia]. unfold d in E1. rewrite Hz in E1. simpl in E1.
        destruct Hprec; lia. }
      pose proof (Zdigits2_bounds m Hmpos) as B. fold d in B.
      assert (m <= hi m l) as Hhi by (destruct l; simpl; lia).
      destruct (Z_lt_le_dec E e) as [HEe|HEe].
      + apply dle_ge_elim in Hle; [|lia].
        assert (2 ^ 53 <= 2 ^ (d - 1) * 2 ^ (e - E)).
        { rewrite <- Z.pow_add_r by lia. apply Z.pow_le_mono_r; lia. }
        assert (0 < 2 ^ (e - E)) by (apply Z.pow_pos_nonneg; lia).
        assert (2 ^ (d - 1) * 2 ^ (e - E) <= hi m l * 2 ^ (e - E))
          by (apply Z.mul_le_mono_nonneg_r; lia).
        lia.
      + apply dle_le_elim in Hle; [|lia].
        assert (2 ^ 53 * 2 ^ (E - e) <= 2 ^ (d - 1)).
        { rewrite <- Z.pow_add_r by lia. apply Z.pow_le_mono_r; lia. }
        assert (0 < 2 ^ (E - e)) by (apply Z.pow_pos_nonneg; lia).
        assert (M * 2 ^ (E - e) < 2 ^ 53 * 2 ^ (E - e))
          by (apply Z.mul_lt_mono_pos_r; lia).
        lia.
    - split; [lia|].
      apply dle_le_elim in Hle; [|lia].
      replace (E - e) with ((E - e1) + (e1 - e)) in Hle by lia.
      rewrite Z.pow_add_r in Hle by lia.
      set (N := M * 2 ^ (E - e1)) in *.
      assert (hi m l <= N * 2 ^ (e1 - e)) as Hle' by (unfold N; lia).
      assert (m1 * 2 ^ (e1 - e) <= m) as Hfl.
      { rewrite Sm. rewrite Z.mul_comm. apply Z.mul_div_le. lia. }
      destruct l as [|c].
      + simpl in Hle'.
        destruct (Z_lt_le_dec m1 N) as [|HN]; [lia|].
        assert (m = N * 2 ^ (e1 - e)) as Em by nia.
        rewrite R2; [nia|]. apply Sx; auto.
        rewrite Em. apply Z.mod_mul. lia.
      + simpl in Hle'.
        assert (m1 < N); [|lia]. nia. }
  (* second normalisation *)
  unfold shr_fexp in Hr. change (fexp 53 1024) with fexp64 in Hr.
  assert (0 <= m2 <= 2 ^ 53) as Hm2r by lia.
  destruct (Z.eq_dec m2 0) as [Z2|NZ2].
  { left. rewrite Z2 in Hr. simpl Zdigits2 in Hr.
    replace (fexp64 (0 + e1) - e1) with (fexp64 e1 - e1) in Hr by (f_equal; f_equal; lia).
    assert (fexp64 e1 - e1 <= 0) by (unfold fexp64; lia).
    destruct (fexp64 e1 - e1) eqn:Ek; try lia; simpl in Hr; congruence. }
  right.
  destruct (Z.eq_dec m2 (2 ^ 53)) as [T|NT].
  - rewrite T in Hr.
    replace (Zdigits2 (2 ^ 53)) with 54 in Hr by reflexivity.
    assert (fexp64 (54 + e1) - e1 = 1) as Ek by (unfold fexp64; lia).
    rewrite Ek in Hr.
    cbn [shr shr_record_of_loc SpecFloat.iter_pos shr_1 shr_m] in Hr.
    assert (2 ^ 53 <= M * 2 ^ (E - e1)) as HN by lia.
    assert (e1 + 1 <= E).
    { destruct (Z.eq_dec e1 E) as [HeqE|]; [|lia]. rewrite HeqE, Z.sub_diag in HN. simpl in HN. lia. }
    replace (Z.leb (e1 + 1) (1024 - 53)) with true in Hr by (symmetry; apply Z.leb_le; lia).
    eexists _, _. split; [symmetry; exact Hr|]. split.
    + unfold canon. cbn. lia.
    + apply dle_le_intro; [lia|].
      replace (E - e1) with (1 + (E - (e1 + 1))) in HN by lia.
      rewrite Z.pow_add_r in HN by lia. change (2 ^ 1) with 2 in HN.
      change (Z.pos 4503599627370496) with (2 ^ 52). lia.
  - assert (0 < m2 < 2 ^ 53) as Hm2' by lia.
    pose proof (Zdigits2_bounds m2 ltac:(lia)) as B2.
    assert (Zdigits2 m2 <= 53) as Hd2.
    { destruct (Z_lt_le_dec 53 (Zdigits2 m2)); [|lia].
      assert (2 ^ 53 <= 2 ^ (Zdigits2 m2 - 1)) by (apply Z.pow_le_mono_r; lia). lia. }
    assert (fexp64 (Zdigits2 m2 + e1) - e1 <= 0) as Hk2 by (unfold fexp64; lia).
    assert (shr (shr_record_of_loc m2 loc_Exact) e1 (fexp64 (Zdigits2 m2 + e1) - e1)
            = (shr_record_of_loc m2 loc_Exact, e1)) as Es.
    { destruct (fexp64 (Zdigits2 m2 + e1) - e1); try lia; reflexivity. }
    rewrite Es in Hr.
    cbn [shr_record_of_loc shr_m] in Hr.
    destruct m2 as [|p|p] eqn:Ep; try lia.
    replace (Z.leb e1 (1024 - 53)) with true in Hr by (symmetry; apply Z.leb_le; lia).
    eexists _, _. split; [symmetry; exact Hr|]. split.
    + unfold canon. split; [lia|]. split; [lia|].
      destruct Hnorm; [auto|left; lia].
    + apply dle_le_intro; lia.
Qed.

Lemma dle_scale (c m e M E : Z) :
  c <= e -> c <= E ->
  (dle m e M E <-> m * 2 ^ (e - c) <= M * 2 ^ (E - c)).
Proof.
  intros He HE. unfold dle.
  set (k := Z.min e E).
  assert (c <= k) by (unfold k; lia).
  replace (e - c) with ((e - k) + (k - c)) by lia.
  replace (E - c) with ((E - k) + (k - c)) by lia.
  rewrite !Z.pow_add_r by (unfold k; lia).
  assert (0 < 2 ^ (k - c)) by (apply Z.pow_pos_nonneg; lia).
  rewrite !Z.mul_assoc.
  split; intros Hle.
  - apply Z.mul_le_mono_nonneg_r; lia.
  - apply Z.mul_le_mono_pos_r in Hle; lia.
Qed.

Lemma dle_trans (m e M E M' E' : Z) :
  dle m e M E -> dle M E M' E' -> dle m e M' E'.
Proof.
  intros H1 H2.
  set (c := Z.min e (Z.min E E')).
  apply (dle_scale c) in H1; [|unfold c; lia..].
  apply (dle_scale c) in H2; [|unfold c; lia..].
  apply (dle_scale c); [unfold c; lia..|]. lia.
Qed.

Lemma dle_mul (m1 e1 M1 E1 m2 e2 M2 E2 : Z) :
  0 <= m1 -> 0 <= m2 -> 0 <= M1 -> 0 <= M2 ->
  dle m1 e1 M1 E1 -> dle m2 e2 M2 E2 ->
  dle (m1 * m2) (e1 + e2) (M1 * M2) (E1 + E2).
Proof.
  intros Hm1 Hm2 HM1 HM2 H1 H2. unfold dle in H1, H2.
  set (c1 := Z.min e1 E1) in *. set (c2 := Z.min e2 E2) in *.
  apply (dle_scale (c1 + c2)); [unfold c1, c2; lia..|].
  replace (e1 + e2 - (c1 + c2)) with ((e1 - c1) + (e2 - c2)) by lia.
  replace (E1 + E2 - (c1 + c2)) with ((E1 - c1) + (E2 - c2)) by lia.
  rewrite !Z.pow_add_r by (unfold c1, c2; lia).
  assert (0 < 2 ^ (e1 - c1)) by (apply Z.pow_pos_nonneg; unfold c1; lia).
  assert (0 < 2 ^ (e2 - c2)) by (apply Z.pow_pos_nonneg; unfold c2; lia).
  assert (0 < 2 ^ (E1 - c1)) by (apply Z.pow_pos_nonneg; unfold c1; lia).
  assert (0 < 2 ^ (E2 - c2)) by (apply Z.pow_pos_nonneg; unfold c2; lia).
  replace (m1 * m2 * (2 ^ (e1 - c1) * 2 ^ (e2 - c2)))
    with ((m1 * 2 ^ (e1 - c1)) * (m2 * 2 ^ (e2 - c2))) by ring.
  replace (M1 * M2 * (2 ^ (E1 - c1) * 2 ^ (E2 - c2)))
    with ((M1 * 2 ^ (E1 - c1)) * (M2 * 2 ^ (E2 - c2))) by ring.
  apply Z.mul_le_mono_nonneg; nia.
Qed.

Lemma round_aux_fbounded (s : bool) (m e : Z) (l : location) (M E : Z) :
  0 <= m -> (2 ^ 52 <= m \/ e <= -1074) ->
  0 <= M < 2 ^ 53 -> -1074 <= E <= 971 ->
  dle (hi m l) e M E ->
  fbounded (binary_round_aux 53 1024 s m e l) M E /\
  has_sign s (binary_round_aux 53 1024 s m e l).
Proof.
  intros. destruct (round_aux_bound s m e l M E) as [-> | (m' & e' & -> & Hc & Hd)]; auto.
  all: simpl; auto.
Qed.

Lemma canon_digits (m e : Z) :
  canon m e -> fexp64 (Zdigits2 m + e) = e.
Proof.
  intros (Hm & He & Hn). unfold fexp64.
  pose proof (Zdigits2_bounds m ltac:(lia)) as B.
  assert (Zdigits2 m <= 53).
  { destruct (Z_lt_le_dec 53 (Zdigits2 m)); [|lia].
    assert (2 ^ 53 <= 2 ^ (Zdigits2 m - 1)) by (apply Z.pow_le_mono_r; lia). lia. }
  destruct Hn as [Hn|Hn]; [|lia].
  assert (53 <= Zdigits2 m); [|lia].
  destruct (Z_lt_le_dec (Zdigits2 m) 53); [|lia].
  assert (2 ^ Zdigits2 m <= 2 ^ 52) by (apply Z.pow_le_mono_r; lia). lia.
Qed.

Lemma bounded_canon (m : positive) (e : Z) :
  bounded 53 1024 m e = true -> canon (Zpos m) e.
Proof.
  unfold bounded, canonical_mantissa. change (fexp 53 1024) with fexp64.
  rewrite andb_true_iff, Z.eqb_eq, Z.leb_le. intros [Hc He].
  pose proof (digits2_pos_bounds m) as B.
  unfold canon, fexp64 in *. split; [split; [lia|]|split; [lia|]].
  - destruct (Z_lt_le_dec (Zpos m) (2 ^ 53)); [auto|].
    assert (54 <= Zpos (digits2_pos m)).
    { destruct (Z_lt_le_dec (Zpos (digits2_pos m)) 54); [|lia].
      assert (2 ^ Zpos (digits2_pos m) <= 2 ^ 53) by (apply Z.pow_le_mono_r; lia). lia. }
    lia.
  - destruct (Z.eq_dec e (-1074)); [auto|left].
    assert (Zpos (digits2_pos m) = 53) as D by lia.
    rewrite D in B. exact (proj1 B).
Qed.

(** Rounding a canonical number changes nothing. *)
Lemma round_aux_canon (s : bool) (m : positive) (e : Z) :
  canon (Zpos m) e ->
  binary_round_aux 53 1024 s (Zpos m) e loc_Exact = S754_finite s m e.
Proof.
  intros Hc. pose proof (canon_digits _ _ Hc) as Hd.
  unfold binary_round_aux, shr_fexp. change (fexp 53 1024) with fexp64.
  rewrite Hd, Z.sub_diag. cbn [shr shr_record_of_loc shr_m loc_of_shr_record round_nearest_even].
  rewrite Hd, Z.sub_diag. cbn [shr shr_record_of_loc shr_m].
  destruct Hc as (_ & He & _).
  replace (Z.leb e (1024 - 53)) with true by (symmetry; apply Z.leb_le; lia).
  reflexivity.
Qed.

Lemma iter_xO (m d : positive) : Zpos (Pos.iter xO m d) = Zpos m * 2 ^ Zpos d.
Proof.
  rewrite <- Z.shiftl_mul_pow2 by lia. unfold Z.shiftl.
  apply Pos.iter_swap_gen. reflexivity.
Qed.

Lemma shl_align_spec (m : positive) (e e' : Z) :
  e' <= e -> 
  snd (shl_align m e e') = e' /\
  Zpos (fst (shl_align m e e')) = Zpos m * 2 ^ (e - e').
Proof.
  intros H. unfold shl_align.
  destruct (e' - e) as [|d|d] eqn:Hd; try lia.
  - assert (e' = e) by lia. subst. rewrite Z.sub_diag. simpl. lia.
  - assert (e - e' = Zpos d) as -> by lia.
    cbn [fst snd]. rewrite iter_xO. auto.
Qed.

Lemma shl_align_id (m : positive) (e e' : Z) :
  e <= e' -> shl_align m e e' = (m, e).
Proof.
  intros H. unfold shl_align. destruct (e' - e) eqn:Hd; try lia; reflexivity.
Qed.

(** [binary_round]: normalise, then round. *)
Lemma binary_round_fbounded (s : bool) (m : positive) (e M E : Z) :
  0 <= M < 2 ^ 53 -> -1074 <= E <= 971 ->
  dle (Zpos m) e M E ->
  fbounded (binary_round 53 1024 s m e) M E /\
  has_sign s (binary_round 53 1024 s m e).
Proof.
  intros HM HE Hle. unfold binary_round. change (fexp 53 1024) with fexp64.
  set (d := Zpos (digits2_pos m)).
  pose proof (digits2_pos_bounds m) as B. fold d in B.
  destruct (Z_le_gt_dec (fexp64 (d + e)) e) as [Hsh|Hsh].
  - destruct (shl_align_spec m e (fexp64 (d + e)) Hsh) as [S1 S2].
    destruct (shl_align m e (fexp64 (d + e))) as [mz ez]. cbn [fst snd] in *. subst ez.
    assert (0 < 2 ^ (e - fexp64 (d + e))) by (apply Z.pow_pos_nonneg; lia).
    apply round_aux_fbounded; try lia.
    + unfold fexp64 in *.
      destruct (Z_le_gt_dec (d + e - 53) (-1074)); [right; lia|left].
      rewrite S2. rewrite Z.max_l by lia.
      replace (e - (d + e - 53)) with (53 - d) by lia.
      assert (2 ^ 52 = 2 ^ (d - 1) * 2 ^ (53 - d)) as ->.
      { rewrite <- Z.pow_add_r by lia. f_equal. lia. }
      apply Z.mul_le_mono_nonneg_r; lia.
    + simpl hi. rewrite S2.
      apply (dle_scale (Z.min (fexp64 (d + e)) E)); [lia..|].
      apply (dle_scale (Z.min (fexp64 (d + e)) E)) in Hle; [|lia..].
      rewrite <- Z.mul_assoc, <- Z.pow_add_r by lia.
      replace (e - fexp64 (d + e) + (fexp64 (d + e) - Z.min (fexp64 (d + e)) E))
        with (e - Z.min (fexp64 (d + e)) E) by lia. exact Hle.
  - rewrite shl_align_id by lia.
    apply round_aux_fbounded; try lia; auto.
    unfold fexp64 in Hsh.
    destruct (Z_le_gt_dec e (-1074)); [right; lia|left].
    assert (54 <= d) by lia.
    assert (2 ^ 53 <= 2 ^ (d - 1)) by (apply Z.pow_le_mono_r; lia). lia.
Qed.

Lemma of_int_fbounded (z M E : Z) :
  0 <= M < 2 ^ 53 -> 0 <= E <= 971 ->
  Z.abs z <= M * 2 ^ E ->
  fbounded (Float64.of_int z) M E /\ has_sign (z <? 0) (Float64.of_int z).
Proof.
  intros HM HE Hz. unfold Float64.of_int, binary_normalize.
  destruct z as [|p|p].
  - simpl. auto.
  - apply binary_round_fbounded; try lia.
    apply dle_le_intro; [lia|]. rewrite Z.sub_0_r. simpl in Hz. lia.
  - change (Z.neg p <? 0) with true.
    apply binary_round_fbounded; try lia.
    apply dle_le_intro; [lia|]. rewrite Z.sub_0_r. simpl in Hz. lia.
Qed.

Lemma mul_fbounded (x y : float) (M1 E1 M2 E2 : Z) :
  fbounded x M1 E1 -> fbounded y M2 E2 ->
  0 <= M1 -> 0 <= M2 -> M1 * M2 < 2 ^ 53 -> -1074 <= E1 + E2 <= 971 ->
  fbounded (SFmul 53 1024 x y) (M1 * M2) (E1 + E2) /\
  forall sx sy, has_sign sx x -> has_sign sy y ->
                has_sign (xorb sx sy) (SFmul 53 1024 x y).
Proof.
  intros Hx Hy HM1 HM2 HM HE.
  destruct x as [sx| | |sx mx ex], y as [sy| | |sy my ey]; simpl in Hx, Hy; try contradiction.
  - simpl. split; auto. intros ? ? -> ->. reflexivity.
  - simpl. split; auto. intros ? ? -> ->. reflexivity.
  - simpl. split; auto. intros ? ? -> ->. reflexivity.
  - destruct Hx as [Cx Dx], Hy as [Cy Dy].
    cbn [SFmul]. rewrite Pos2Z.inj_mul.
    destruct (round_aux_fbounded (xorb sx sy) (Zpos mx * Zpos my) (ex + ey) loc_Exact
                (M1 * M2) (E1 + E2)) as [F S]; try lia.
    + destruct Cx as (Hmx & Hex & [Nx|Nx]), Cy as (Hmy & Hey & [Ny|Ny]).
      * left. nia.
      * left. nia.
      * left. nia.
      * right. lia.
    + cbn [hi]. apply dle_mul; auto; lia.
    + split; auto. intros ? ? <- <-. exact S.
Qed.

Lemma has_sign_nonneg f : has_sign false f -> nonneg f.
Proof. destruct f as [|[]| |[]]; simpl; auto; discriminate. Qed.

Lemma mul_nonneg (x y : float) (M1 E1 M2 E2 : Z) :
  fbounded x M1 E1 -> fbounded y M2 E2 ->
  0 <= M1 -> 0 <= M2 -> M1 * M2 < 2 ^ 53 -> -1074 <= E1 + E2 <= 971 ->
  nonneg x -> nonneg y ->
  fbounded (SFmul 53 1024 x y) (M1 * M2) (E1 + E2) /\ nonneg (SFmul 53 1024 x y).
Proof.
  intros Hx Hy HM1 HM2 HM HE Nx Ny.
  destruct (mul_fbounded x y M1 E1 M2 E2) as [F S]; auto.
  split; auto.
  destruct x as [sx| | |[] mx ex], y as [sy| | |[] my ey]; simpl in *; try contradiction; auto.
  apply has_sign_nonneg. apply (S false false); reflexivity.
Qed.

Lemma trunc_nonneg (f : float) (M E : Z) :
  fbounded f M E -> nonneg f -> 0 <= M -> 0 <= E ->
  exists z, Float64.trunc f = Some z /\ 0 <= z <= M * 2 ^ E.
Proof.
  intros Hf Hn HM HE. destruct f as [s| | |[] m e]; simpl in Hf, Hn; try contradiction.
  - exists 0. split; [reflexivity|]. assert (0 < 2 ^ E) by (apply Z.pow_pos_nonneg; lia). nia.
  - destruct Hf as [Hc Hd]. cbn [Float64.trunc].
    eexists. split; [reflexivity|].
    assert (0 < 2 ^ E) by (apply Z.pow_pos_nonneg; lia).
    destruct e as [|k|k].
    + rewrite Z.shiftl_0_r. apply dle_le_elim in Hd; [|lia]. rewrite Z.sub_0_r in Hd. lia.
    + rewrite Z.shiftl_mul_pow2 by lia. split; [lia|].
      apply (dle_scale 0) in Hd; [|lia..]. rewrite !Z.sub_0_r in Hd. exact Hd.
    + rewrite Z.shiftr_div_pow2 by lia.
      assert (0 < 2 ^ Zpos k) by (apply Z.pow_pos_nonneg; lia).
      split; [apply Z.div_pos; lia|].
      apply dle_le_elim in Hd; [|lia].
      replace (E - Z.neg k) with (E + Zpos k) in Hd by lia.
      rewrite Z.pow_add_r in Hd by lia.
      apply Z.div_le_upper_bound; [lia|]. lia.
Qed.

(** Comparison of canonical numbers follows the values. *)
Lemma leb_dle (m1 : positive) (e1 : Z) (m2 : positive) (e2 : Z) :
  canon (Zpos m1) e1 -> canon (Zpos m2) e2 ->
  SFleb (S754_finite false m1 e1) (S754_finite false m2 e2) = true ->
  dle (Zpos m1) e1 (Zpos m2) e2.
Proof.
  intros C1 C2. unfold SFleb, SFcompare.
  destruct C1 as (H1 & He1 & N1), C2 as (H2 & He2 & N2).
  destruct (Z.compare_spec e1 e2) as [Heq|Hlt|Hgt].
  - subst e2. intros Hc. apply dle_le_intro; [lia|]. rewrite Z.sub_diag. simpl.
    fold (Pos.compare m1 m2) in Hc.
    destruct (Pos.compare_spec m1 m2); simpl in Hc; try discriminate; lia.
  - intros _. apply dle_le_intro; [lia|].
    assert (2 ^ 53 <= Zpos m2 * 2 ^ (e2 - e1)); [|lia].
    destruct N2 as [N2|N2]; [|lia].
    assert (2 ^ 1 <= 2 ^ (e2 - e1)) by (apply Z.pow_le_mono_r; lia).
    change (2 ^ 53) with (2 ^ 52 * 2 ^ 1).
    apply Z.mul_le_mono_nonneg; lia.
  - discriminate.
Qed.

Lemma new_location_exact (nb r : Z) :
  0 <= r -> new_location nb r = loc_Exact -> r = 0.
Proof.
  intros Hr. unfold new_location, new_location_even, new_location_odd.
  destruct (Z.even nb); destruct (Z.eqb_spec r 0); auto; discriminate.
Qed.

Lemma new_location_zero (nb : Z) : new_location nb 0 = loc_Exact.
Proof. unfold new_location. destruct (Z.even nb); reflexivity. Qed.

Lemma shift_match (m s : Z) :
  0 <= s ->
  match s with Z.pos _ => Z.shiftl m s | 0 => m | Z.neg _ => 0 end = m * 2 ^ s.
Proof.
  intros H. destruct s; [simpl; lia | apply Z.shiftl_mul_pow2; lia | lia].
Qed.

Lemma div_fbounded (sx : bool) (mx : positive) (ex : Z) (sy : bool) (my : positive)
      (ey M E : Z) :
  canon (Zpos mx) ex -> canon (Zpos my) ey ->
  0 <= M < 2 ^ 53 -> -1074 <= E <= 971 ->
  dle (Zpos mx) ex (M * Zpos my) (E + ey) ->
  fbounded (SFdiv 53 1024 (S754_finite sx mx ex) (S754_finite sy my ey)) M E /\
  has_sign (xorb sx sy) (SFdiv 53 1024 (S754_finite sx mx ex) (S754_finite sy my ey)).
Proof.
  intros Cx Cy HM HE Hle. cbn [SFdiv].
  unfold SFdiv_core_binary. change (fexp 53 1024) with fexp64.
  set (d1 := Zdigits2 (Zpos mx)). set (d2 := Zdigits2 (Zpos my)).
  set (e' := Z.min (fexp64 (d1 + ex - (d2 + ey))) (ex - ey)).
  set (s := ex - ey - e').
  assert (0 <= s) as Hs by (unfold s, e'; lia).
  set (m' := match s with Z.pos _ => Z.shiftl (Zpos mx) s | 0 => Zpos mx | Z.neg _ => 0 end).
  assert (m' = Zpos mx * 2 ^ s) as Em'.
  { unfold m'. apply shift_match, Hs. }
  clearbody m'.
  pose proof (Z_div_mod m' (Zpos my) ltac:(lia)) as DM.
  destruct (Z.div_eucl m' (Zpos my)) as [q r]. destruct DM as [Eq Hr].
  pose proof (Zdigits2_bounds (Zpos mx) ltac:(lia)) as B1. fold d1 in B1.
  pose proof (Zdigits2_bounds (Zpos my) ltac:(lia)) as B2. fold d2 in B2.
  assert (0 < 2 ^ s) as Hps by (apply Z.pow_pos_nonneg; lia).
  assert (0 <= q) as Hq by nia.
  assert (2 ^ 52 <= q \/ e' <= -1074) as Hprec.
  { destruct (Z_le_gt_dec e' (-1074)); [auto|left].
    assert (e' <= d1 + ex - (d2 + ey) - 53) by (unfold e', fexp64 in *; lia).
    assert (d2 - d1 + 53 <= s) by (unfold s; lia).
    assert (1 <= d1). { destruct (Z_lt_le_dec 0 d1); [lia|].
      assert (2 ^ d1 <= 2 ^ 0) by (apply Z.pow_le_mono_r_iff; lia). simpl in *. lia. }
    assert (1 <= d2). { destruct (Z_lt_le_dec 0 d2); [lia|].
      assert (2 ^ d2 <= 2 ^ 0) by (apply Z.pow_le_mono_r_iff; lia). simpl in *. lia. }
    assert (2 ^ 52 * 2 ^ d2 <= m').
    { rewrite Em'. rewrite <- Z.pow_add_r by lia.
      assert (2 ^ (52 + d2) <= 2 ^ (d1 - 1) * 2 ^ s).
      { rewrite <- Z.pow_add_r by lia. apply Z.pow_le_mono_r; lia. }
      assert (2 ^ (d1 - 1) * 2 ^ s <= Zpos mx * 2 ^ s) by (apply Z.mul_le_mono_nonneg_r; lia).
      lia. }
    assert (q * Zpos my + r = m') by lia.
    destruct (Z_lt_le_dec q (2 ^ 52)); [|lia]. exfalso.
    assert ((q + 1) * Zpos my <= 2 ^ 52 * 2 ^ d2).
    { apply Z.mul_le_mono_nonneg; lia. }
    lia. }
  apply round_aux_fbounded; auto.
  (* the bound *)
  assert (dle m' e' (M * Zpos my) E) as Hle'.
  { set (c := Z.min (Z.min e' E) (Z.min ex (E + ey) - ey)).
    apply (dle_scale c); [unfold c; lia..|].
    apply (dle_scale (c + ey)) in Hle; [|unfold c; lia..].
    rewrite Em'. rewrite <- Z.mul_assoc, <- Z.pow_add_r by (unfold c; lia).
    replace (s + (e' - c)) with (ex - (c + ey)) by (unfold s; lia).
    replace (E - c) with (E + ey - (c + ey)) by lia. exact Hle. }
  destruct (Z_le_gt_dec e' E) as [HeE|HeE].
  - apply dle_le_elim in Hle'; [|lia]. apply dle_le_intro; [lia|].
    assert (0 < 2 ^ (E - e')) by (apply Z.pow_pos_nonneg; lia).
    set (N := M * 2 ^ (E - e')) in *.
    assert (m' <= N * Zpos my) by (unfold N; lia).
    assert (q <= N) by nia.
    destruct (new_location (Zpos my) r) eqn:El; cbn [hi]; [lia|].
    destruct (Z.eq_dec r 0) as [->|].
    + rewrite new_location_zero in El. discriminate.
    + assert (q < N); [nia|lia].
  - apply dle_ge_elim in Hle'; [|lia]. apply dle_ge_intro; [lia|].
    assert (0 < 2 ^ (e' - E)) by (apply Z.pow_pos_nonneg; lia).
    assert (q * 2 ^ (e' - E) <= M).
    { assert (q * Zpos my <= m') by lia.
      assert (q * 2 ^ (e' - E) * Zpos my <= M * Zpos my) by nia.
      nia. }
    destruct Hprec as [Hp|Hp]; [|lia].
    exfalso.
    assert (2 ^ 1 <= 2 ^ (e' - E)) by (apply Z.pow_le_mono_r; lia).
    assert (2 ^ 52 * 2 ^ 1 <= q * 2 ^ (e' - E)) by (apply Z.mul_le_mono_nonneg; lia).
    change (2 ^ 52 * 2 ^ 1) with (2 ^ 53) in *. lia.
Qed.

Lemma dle_mono_r (m e M M' E : Z) : M <= M' -> dle m e M E -> dle m e M' E.
Proof.
  unfold dle. intros H H1.
  assert (0 < 2 ^ (E - Z.min e E)) by (apply Z.pow_pos_nonneg; lia). nia.
Qed.

Lemma fbounded_mono (f : float) (M M' E : Z) :
  M <= M' -> fbounded f M E -> fbounded f M' E.
Proof.
  intros H. destruct f; simpl; auto. intros [? ?]. split; auto.
  eapply dle_mono_r; eauto.
Qed.

Lemma add_nonneg (x y : float) (M1 M2 E : Z) :
  fbounded x M1 E -> fbounded y M2 E -> nonneg x -> nonneg y ->
  0 <= M1 -> 0 <= M2 -> M1 + M2 < 2 ^ 53 -> -1074 <= E <= 971 ->
  fbounded (SFadd 53 1024 x y) (M1 + M2) E /\ nonneg (SFadd 53 1024 x y).
Proof.
  intros Hx Hy Nx Ny HM1 HM2 HM HE.
  destruct x as [sx| | |[] mx ex], y as [sy| | |[] my ey]; simpl in Hx, Hy, Nx, Ny;
    try contradiction.
  - simpl. destruct sx, sy; simpl; auto.
  - cbn [SFadd]. split; [|exact I]. apply fbounded_mono with M2; [lia|exact Hy].
  - cbn [SFadd]. split; [|exact I]. apply fbounded_mono with M1; [lia|exact Hx].
  - destruct Hx as [Cx Dx], Hy as [Cy Dy]. cbn [SFadd cond_Zopp].
    set (ez := Z.min ex ey).
    destruct (shl_align_spec mx ex ez ltac:(unfold ez; lia)) as [_ Sx].
    destruct (shl_align_spec my ey ez ltac:(unfold ez; lia)) as [_ Sy].
    set (a := fst (shl_align mx ex ez)) in *. set (b := fst (shl_align my ey ez)) in *.
    change (Zpos a + Zpos b) with (Zpos (a + b)). cbn [binary_normalize].
    destruct (binary_round_fbounded false (a + b) ez (M1 + M2) E) as [F S]; try lia.
    + rewrite Pos2Z.inj_add, Sx, Sy.
      set (c := Z.min ez E).
      apply (dle_scale c); [unfold c; lia..|].
      apply (dle_scale c) in Dx; [|unfold c, ez; lia..].
      apply (dle_scale c) in Dy; [|unfold c, ez; lia..].
      rewrite Z.mul_add_distr_r, <- !Z.mul_assoc, <- !Z.pow_add_r by (unfold c, ez; lia).
      replace (ex - ez + (ez - c)) with (ex - c) by lia.
      replace (ey - ez + (ez - c)) with (ey - c) by lia. lia.
    + split; auto. apply has_sign_nonneg, S.
Qed.

Lemma sqrt_fbounded (m : positive) (e M E : Z) :
  0 <= M < 2 ^ 53 -> -1074 <= E <= 971 ->
  dle (Zpos m) e (M * M) (2 * E) ->
  fbounded (SFsqrt 53 1024 (S754_finite false m e)) M E /\
  nonneg (SFsqrt 53 1024 (S754_finite false m e)).
Proof.
  intros HM HE Hle. cbn [SFsqrt]. unfold SFsqrt_core_binary.
  change (fexp 53 1024) with fexp64.
  set (d := Zdigits2 (Zpos m)).
  rewrite !Z.div2_div.
  set (e' := Z.min (fexp64 ((d + e + 1) / 2)) (e / 2)).
  set (s := e - 2 * e').
  pose proof (Z.mul_div_le e 2 ltac:(lia)) as De.
  pose proof (Z.mul_div_le (d + e + 1) 2 ltac:(lia)) as Dd.
  assert (0 <= s) as Hs by (unfold s, e'; lia).
  rewrite (shift_match (Zpos m) s Hs).
  set (m' := Zpos m * 2 ^ s).
  assert (0 < 2 ^ s) as Hps by (apply Z.pow_pos_nonneg; lia).
  pose proof (Z.sqrtrem_spec m' ltac:(unfold m'; lia)) as SR.
  destruct (Z.sqrtrem m') as [q r]. destruct SR as [Eq Hr].
  pose proof (Zdigits2_bounds (Zpos m) ltac:(lia)) as B. fold d in B.
  assert (0 <= q) as Hq by lia.
  assert (2 ^ 52 <= q \/ e' <= -1074) as Hprec.
  { destruct (Z_le_gt_dec e' (-1074)); [auto|left].
    assert (e' <= (d + e + 1) / 2 - 53) by (unfold e', fexp64 in *; lia).
    assert (105 - d <= s) by (unfold s; lia).
    assert (1 <= d). { destruct (Z_lt_le_dec 0 d); [lia|].
      assert (2 ^ d <= 2 ^ 0) by (apply Z.pow_le_mono_r_iff; lia). simpl in *. lia. }
    assert (2 ^ 104 <= m').
    { unfold m'.
      assert (2 ^ 104 <= 2 ^ (d - 1) * 2 ^ s).
      { rewrite <- Z.pow_add_r by lia. apply Z.pow_le_mono_r; lia. }
      assert (2 ^ (d - 1) * 2 ^ s <= Zpos m * 2 ^ s) by (apply Z.mul_le_mono_nonneg_r; lia).
      lia. }
    destruct (Z_lt_le_dec q (2 ^ 52)); [|lia]. exfalso.
    assert ((q + 1) * (q + 1) <= 2 ^ 52 * 2 ^ 52) by (apply Z.mul_le_mono_nonneg; lia).
    change (2 ^ 52 * 2 ^ 52) with (2 ^ 104) in *. lia. }
  set (l := if r =? 0 then loc_Exact else loc_Inexact (if r <=? q then Lt else Gt)).
  destruct (round_aux_fbounded false q e' l M E) as [F S]; auto.
  2: { split; auto. apply has_sign_nonneg, S. }
  assert (dle m' (2 * e') (M * M) (2 * E)) as Hle'.
  { set (c := Z.min (Z.min (2 * e') (2 * E)) (Z.min e (2 * E))).
    apply (dle_scale c); [unfold c; lia..|].
    apply (dle_scale c) in Hle; [|unfold c; lia..].
    unfold m'. rewrite <- Z.mul_assoc, <- Z.pow_add_r by (unfold c; lia).
    replace (s + (2 * e' - c)) with (e - c) by (unfold s; lia). exact Hle. }
  destruct (Z_le_gt_dec e' E) as [HeE|HeE].
  - apply dle_le_elim in Hle'; [|lia]. apply dle_le_intro; [lia|].
    assert (0 < 2 ^ (E - e')) by (apply Z.pow_pos_nonneg; lia).
    replace (2 * E - 2 * e') with ((E - e') + (E - e')) in Hle' by lia.
    rewrite Z.pow_add_r in Hle' by lia.
    set (N := M * 2 ^ (E - e')) in *.
    assert (m' <= N * N) by (unfold N; lia).
    assert (0 <= N) by (unfold N; nia).
    assert (q <= N) by nia.
    unfold l. destruct (Z.eqb_spec r 0); cbn [hi]; [lia|].
    assert (q < N); [nia|lia].
  - apply dle_ge_elim in Hle'; [|lia]. apply dle_ge_intro; [lia|].
    assert (0 < 2 ^ (e' - E)) by (apply Z.pow_pos_nonneg; lia).
    replace (2 * e' - 2 * E) with ((e' - E) + (e' - E)) in Hle' by lia.
    rewrite Z.pow_add_r in Hle' by lia.
    exfalso.
    destruct Hprec as [Hp|Hp]; [|lia].
    assert (2 ^ 1 <= 2 ^ (e' - E)) by (apply Z.pow_le_mono_r; lia).
    assert (2 ^ 52 * 2 ^ 1 <= q * 2 ^ (e' - E)) by (apply Z.mul_le_mono_nonneg; lia).
    change (2 ^ 52 * 2 ^ 1) with (2 ^ 53) in *.
    set (t := q * 2 ^ (e' - E)) in *.
    assert (t * t <= M * M) by (unfold t; nia).
    nia.
Qed.

(** ** Binary64: conversions *)

Lemma of_int_exact (z : Z) :
  0 < z < 2 ^ 53 ->
  exists m e, Float64.of_int z = S754_finite false m e /\
              canon (Zpos m) e /\ e <= 0 /\ Zpos m = z * 2 ^ (- e).
Proof.
  intros Hz. destruct z as [|p|p]; try lia.
  unfold Float64.of_int, binary_normalize, binary_round.
  change (fexp Float64.prec Float64.emax) with fexp64.
  set (d := Zpos (digits2_pos p)).
  pose proof (digits2_pos_bounds p) as B. fold d in B.
  assert (1 <= d <= 53) as Hd.
  { split; [unfold d; lia|].
    destruct (Z_lt_le_dec 53 d); [|lia].
    assert (2 ^ 53 <= 2 ^ (d - 1)) by (apply Z.pow_le_mono_r; lia). lia. }
  assert (fexp64 (d + 0) = d - 53) as -> by (unfold fexp64; lia).
  destruct (shl_align_spec p 0 (d - 53) ltac:(lia)) as [S1 S2].
  destruct (shl_align p 0 (d - 53)) as [mz ez]. cbn [fst snd] in *. subst ez.
  replace (0 - (d - 53)) with (53 - d) in S2 by lia.
  assert (canon (Zpos mz) (d - 53)) as Hc.
  { unfold canon. rewrite S2. split; [|split; [lia|left]].
    - assert (2 ^ 53 = 2 ^ d * 2 ^ (53 - d)) as ->.
      { rewrite <- Z.pow_add_r by lia. f_equal. lia. }
      assert (0 < 2 ^ (53 - d)) by (apply Z.pow_pos_nonneg; lia).
      split; [lia|]. apply Z.mul_lt_mono_pos_r; lia.
    - assert (2 ^ 52 = 2 ^ (d - 1) * 2 ^ (53 - d)) as ->.
      { rewrite <- Z.pow_add_r by lia. f_equal. lia. }
      apply Z.mul_le_mono_nonneg_r; [apply Z.pow_nonneg|]; lia. }
  exists mz, (d - 53). split; [apply round_aux_canon; exact Hc|].
  split; [exact Hc|]. split; [lia|].
  rewrite S2. f_equal. f_equal. lia.
Qed.

Lemma valid_canon (s : bool) (m : positive) (e : Z) :
  Float64.valid (S754_finite s m e) -> canon (Zpos m) e.
Proof. apply bounded_canon. Qed.

Lemma floor_trunc (f : float) : nonneg f -> Float64.floor f = Float64.trunc f.
Proof.
  destruct f as [s| | |[] m e]; cbn [nonneg Float64.floor Float64.trunc];
    try contradiction; auto.
  intros _. f_equal. destruct e as [|k|k].
  - rewrite Z.shiftl_0_r. change (2 ^ 0) with 1. lia.
  - rewrite Z.shiftl_mul_pow2 by lia. reflexivity.
  - rewrite Z.shiftr_div_pow2 by lia. reflexivity.
Qed.

Lemma wrap_in_range (z : Z) : Int64.in_range z -> Int64.wrap z = z.
Proof.
  unfold Int64.in_range, Int64.min_int, Int64.max_int, Int64.wrap. intros H.
  rewrite Z.mod_small; lia.
Qed.

Lemma wrap_range (z : Z) : Int64.in_range (Int64.wrap z).
Proof.
  unfold Int64.in_range, Int64.min_int, Int64.max_int, Int64.wrap.
  pose proof (Z.mod_pos_bound (z + 2 ^ 63) (2 ^ 64) ltac:(lia)). lia.
Qed.

Lemma in_rangeb_true (z : Z) : Int64.in_range z -> Int64.in_rangeb z = true.
Proof.
  unfold Int64.in_range, Int64.in_rangeb. intros H.
  apply andb_true_iff. split; apply Z.leb_le; lia.
Qed.

(** A nonnegative float below [2^63] converts to its integer part. *)
Lemma to_int_bounded (unrep : float -> Z) (f : float) (M E : Z) :
  fbounded f M E -> nonneg f -> 0 <= M -> 0 <= E ->
  M * 2 ^ E <= Int64.max_int ->
  exists z, Float64.trunc f = Some z /\ Float64.to_int unrep f = z /\
            0 <= z <= M * 2 ^ E.
Proof.
  intros Hf Hn HM HE Hmax.
  destruct (trunc_nonneg f M E Hf Hn HM HE) as (z & Hz & Hr).
  exists z. split; [exact Hz|]. split; [|exact Hr].
  unfold Float64.to_int. rewrite Hz, in_rangeb_true; [reflexivity|].
  unfold Int64.in_range, Int64.min_int. lia.
Qed.

(** The rank of a percentile in [[0, 100]] over [k + 1] samples lies in
    [[0, 2^62]]. *)
Lemma rank_bounded (p : float) (k : Z) :
  Float64.valid p ->
  Float64.leb (S754_zero false) p = true ->
  Float64.leb p (Float64.of_int 100) = true ->
  1 <= k <= 2 ^ 62 ->
  let r := Float64.mul (Float64.div p (Float64.of_int 100)) (Float64.of_int k) in
  fbounded r 1 62 /\ nonneg r.
Proof.
  intros Hv H0 H100 Hk r.
  destruct (of_int_fbounded k 1 62) as [Fy Sy]; [lia|lia|lia|].
  assert (Float64.of_int 100 =
          S754_finite false 7036874417766400 (-46)) as E100 by reflexivity.
  assert (canon 7036874417766400 (-46)) as C100 by (unfold canon; lia).
  replace (k <? 0) with false in Sy by (symmetry; apply Z.ltb_ge; lia).
  assert (fbounded (Float64.div p (Float64.of_int 100)) 1 0 /\
          nonneg (Float64.div p (Float64.of_int 100))) as [Fq Nq].
  { rewrite E100 in *.
    destruct p as [s|s| |s m e]; try discriminate.
    - simpl. auto.
    - destruct s; discriminate.
    - destruct s; [discriminate|].
      pose proof (valid_canon _ _ _ Hv) as Cp.
      pose proof (leb_dle _ _ _ _ Cp C100 H100) as Hd.
      destruct (div_fbounded false m e false 7036874417766400 (-46) 1 0)
        as [F S]; try lia; auto.
      split; [exact F|]. apply has_sign_nonneg, S. }
  change (1) with (1 * 1) at 1. change 62 with (0 + 62).
  apply mul_nonneg; auto; try lia.
  apply has_sign_nonneg, Sy.
Qed.

Lemma lookup_nth (l : list Z) (k : nat) :
  (k < length l)%nat -> l !! k = Some (nth k l 0).
Proof.
  revert k. induction l as [|x l IH]; intros [|k] H; simpl in *; try lia; auto.
  apply IH. lia.
Qed.

Lemma index_in_range (s : list Z) (i : Z) :
  0 <= i < Z.of_nat (length s) -> index s i = Returned (nth (Z.to_nat i) s 0).
Proof.
  intros H. unfold index.
  replace ((0 <=? i) && (i <? Z.of_nat (length s))) with true.
  - rewrite lookup_nth by lia. reflexivity.
  - symmetry. apply andb_true_iff. split; [apply Z.leb_le|apply Z.ltb_lt]; lia.
Qed.

(** The percentile in closed form: where the code indexes, the index is in
    range. *)
Lemma calculatePercentile_eq (unrep : float -> Z) (sorted : list Z) (p : float) :
  Float64.valid p ->
  Float64.leb (S754_zero false) p = true ->
  Float64.leb p (Float64.of_int 100) = true ->
  2 <= Z.of_nat (length sorted) <= 2 ^ 62 ->
  let n := Z.of_nat (length sorted) in
  let r := Float64.mul (Float64.div p (Float64.of_int 100))
                       (Float64.of_int (n - 1)) in
  exists lo,
    Float64.floor r = Some lo /\ 0 <= lo <= 2 ^ 62 /\
    calculatePercentile unrep sorted p =
    Returned
      (if lo + 1 >=? n then nth (Z.to_nat (n - 1)) sorted 0
       else
         Float64.to_int unrep
           (Float64.add
              (Float64.mul (Float64.of_int (nth (Z.to_nat lo) sorted 0))
                 (Float64.sub (Float64.of_int 1)
                    (Float64.sub r (Float64.of_int lo))))
              (Float64.mul (Float64.of_int (nth (Z.to_nat (lo + 1)) sorted 0))
                 (Float64.sub r (Float64.of_int lo))))).
Proof.
  intros Hv H0 H100 Hn n r.
  destruct (rank_bounded p (n - 1) Hv H0 H100) as [Fr Nr]; [unfold n; lia|].
  fold r in Fr, Nr.
  destruct (to_int_bounded unrep r 1 62 Fr Nr) as (lo & Ht & Hi & Hlo);
    [lia|lia|unfold Int64.max_int; lia|].
  exists lo. rewrite floor_trunc by exact Nr.
  split; [exact Ht|]. split; [lia|].
  unfold calculatePercentile. fold n. fold r. rewrite Hi.
  destruct (n =? 0) eqn:E0; [apply Z.eqb_eq in E0; lia|].
  destruct (n =? 1) eqn:E1; [apply Z.eqb_eq in E1; lia|].
  assert (Int64.add lo 1 = lo + 1) as ->.
  { apply wrap_in_range. unfold Int64.in_range, Int64.min_int, Int64.max_int. lia. }
  destruct (lo + 1 >=? n) eqn:Eu.
  - apply index_in_range. unfold n. lia.
  - assert (lo + 1 < n) by (rewrite Z.geb_leb in Eu; apply Z.leb_gt in Eu; lia).
    rewrite (index_in_range sorted lo) by (fold n; lia).
    rewrite (index_in_range sorted (lo + 1)) by (fold n; lia).
    reflexivity.
Qed.

(** ** Rounding to nearest, ties to even, on integers *)

Lemma rne_by_parts (m k a r : Z) :
  0 <= k -> m = 2 ^ k * a + r -> 0 <= r < 2 ^ k ->
  rne m k =
  if 2 * r <? 2 ^ k then a
  else if 2 ^ k <? 2 * r then a + 1
  else if Z.even a then a else a + 1.
Proof.
  intros Hk Hm Hr. unfold rne.
  assert (m / 2 ^ k = a) as ->.
  { symmetry. apply Z.div_unique with r; [left; exact Hr|exact Hm]. }
  assert (m mod 2 ^ k = r) as ->.
  { symmetry. apply Z.mod_unique with a; [left; exact Hr|exact Hm]. }
  reflexivity.
Qed.

Lemma even_pred_odd (c : Z) : Z.even c = true -> Z.even (c - 1) = false.
Proof.
  intros H. replace (c - 1) with (Z.pred c) by lia.
  rewrite Z.even_pred. rewrite <- Z.negb_even, H. reflexivity.
Qed.

(** A multiple of the grid within half a step is what the rounding gives;
    at exactly half a step, when it is an even multiple. *)
Lemma rne_center (m k c : Z) :
  0 <= k ->
  2 * Z.abs (m - 2 ^ k * c) < 2 ^ k \/
  (2 * Z.abs (m - 2 ^ k * c) = 2 ^ k /\ Z.even c = true) ->
  rne m k = c.
Proof.
  intros Hk H.
  assert (0 < 2 ^ k) as Hq by (apply Z.pow_pos_nonneg; lia).
  destruct (Z_le_gt_dec 0 (m - 2 ^ k * c)) as [Hd|Hd].
  - rewrite (rne_by_parts m k c (m - 2 ^ k * c)) by lia.
    destruct (Z.ltb_spec (2 * (m - 2 ^ k * c)) (2 ^ k)); [reflexivity|].
    destruct (Z.ltb_spec (2 ^ k) (2 * (m - 2 ^ k * c))); [lia|].
    destruct H as [H|[_ ->]]; [lia|reflexivity].
  - rewrite (rne_by_parts m k (c - 1) (m - 2 ^ k * c + 2 ^ k)) by lia.
    destruct (Z.ltb_spec (2 * (m - 2 ^ k * c + 2 ^ k)) (2 ^ k)); [lia|].
    destruct (Z.ltb_spec (2 ^ k) (2 * (m - 2 ^ k * c + 2 ^ k))); [lia|].
    destruct H as [H|[_ H]]; [lia|].
    rewrite (even_pred_odd c H). lia.
Qed.

Lemma rne_exact (k c : Z) : 0 <= k -> rne (2 ^ k * c) k = c.
Proof.
  intros Hk. apply rne_center; [exact Hk|left].
  assert (0 < 2 ^ k) by (apply Z.pow_pos_nonneg; lia).
  rewrite Z.sub_diag. simpl. lia.
Qed.

Lemma rne_cases (m k : Z) :
  0 <= k ->
  exists a r, m = 2 ^ k * a + r /\ 0 <= r < 2 ^ k /\
    ((2 * r < 2 ^ k /\ rne m k = a) \/
     (2 ^ k < 2 * r /\ rne m k = a + 1) \/
     (2 * r = 2 ^ k /\ Z.even (rne m k) = true /\ (rne m k = a \/ rne m k = a + 1))).
Proof.
  intros Hk.
  assert (0 < 2 ^ k) as Hq by (apply Z.pow_pos_nonneg; lia).
  exists (m / 2 ^ k), (m mod 2 ^ k).
  pose proof (Z.div_mod m (2 ^ k) ltac:(lia)) as E.
  pose proof (Z.mod_pos_bound m (2 ^ k) Hq) as B.
  split; [exact E|]. split; [exact B|].
  unfold rne.
  destruct (Z.ltb_spec (2 * (m mod 2 ^ k)) (2 ^ k)); [left; auto|].
  destruct (Z.ltb_spec (2 ^ k) (2 * (m mod 2 ^ k))); [right; left; auto|].
  right; right. split; [lia|].
  destruct (Z.even (m / 2 ^ k)) eqn:Ev.
  - split; [exact Ev|left; reflexivity].
  - split; [|right; reflexivity].
    replace (m / 2 ^ k + 1) with (Z.succ (m / 2 ^ k)) by lia.
    rewrite Z.even_succ, <- Z.negb_even, Ev. reflexivity.
Qed.

Lemma rne_near (m k : Z) :
  0 <= k -> 2 * Z.abs (2 ^ k * rne m k - m) <= 2 ^ k.
Proof.
  intros Hk. destruct (rne_cases m k Hk) as (a & r & E & B & H).
  destruct H as [[H ->]|[[H ->]|(H & _ & [-> | ->])]]; lia.
Qed.

Lemma rne_tie_even (m k : Z) :
  0 <= k -> 2 * Z.abs (2 ^ k * rne m k - m) = 2 ^ k -> Z.even (rne m k) = true.
Proof.
  intros Hk Ht. destruct (rne_cases m k Hk) as (a & r & E & B & H).
  destruct H as [[H Er]|[[H Er]|(H & Ev & _)]]; [rewrite Er in Ht; lia..|exact Ev].
Qed.

Lemma rne_lower (m k Y : Z) : 0 <= k -> 2 ^ k * Y <= m -> Y <= rne m k.
Proof.
  intros Hk HY. destruct (rne_cases m k Hk) as (a & r & E & B & H).
  assert (Y <= a) by nia.
  destruct H as [[H ->]|[[H ->]|(H & _ & [-> | ->])]]; lia.
Qed.

Lemma rne_upper (m k Y : Z) : 0 <= k -> m <= 2 ^ k * Y -> rne m k <= Y.
Proof.
  intros Hk HY. destruct (rne_cases m k Hk) as (a & r & E & B & H).
  assert (0 < 2 ^ k) as Hq by (apply Z.pow_pos_nonneg; lia).
  destruct (Z.eq_dec r 0) as [Hr|Hr].
  - assert (a <= Y) by nia.
    destruct H as [[H ->]|[[H ->]|(H & _ & _)]]; lia.
  - assert (a < Y) by nia.
    destruct H as [[H ->]|[[H ->]|(H & _ & [-> | ->])]]; lia.
Qed.

Lemma rne_mono (a b k : Z) : 0 <= k -> a <= b -> rne a k <= rne b k.
Proof.
  intros Hk Hab.
  assert (0 < 2 ^ k) as Hq by (apply Z.pow_pos_nonneg; lia).
  unfold rne.
  pose proof (Z.div_mod a (2 ^ k) ltac:(lia)) as Ea.
  pose proof (Z.mod_pos_bound a (2 ^ k) Hq) as Ba.
  pose proof (Z.div_mod b (2 ^ k) ltac:(lia)) as Eb.
  pose proof (Z.mod_pos_bound b (2 ^ k) Hq) as Bb.
  set (a1 := a / 2 ^ k) in *. set (r1 := a mod 2 ^ k) in *.
  set (b1 := b / 2 ^ k) in *. set (r2 := b mod 2 ^ k) in *.
  assert (a1 <= b1) by (apply Z.div_le_mono; lia).
  destruct (Z.eq_dec a1 b1) as [Eq|Ne].
  - rewrite <- Eq in *. assert (r1 <= r2) by lia.
    destruct (Z.ltb_spec (2 * r1) (2 ^ k)), (Z.ltb_spec (2 * r2) (2 ^ k));
    destruct (Z.ltb_spec (2 ^ k) (2 * r1)), (Z.ltb_spec (2 ^ k) (2 * r2));
    destruct (Z.even a1); lia.
  - assert (a1 + 1 <= b1) by lia.
    destruct (Z.ltb_spec (2 * r1) (2 ^ k)), (Z.ltb_spec (2 * r2) (2 ^ k));
    destruct (Z.ltb_spec (2 ^ k) (2 * r1)), (Z.ltb_spec (2 ^ k) (2 * r2));
    destruct (Z.even a1), (Z.even b1); lia.
Qed.

Lemma rne_scale (m k j : Z) :
  0 <= k -> 0 <= j -> rne (m * 2 ^ j) (k + j) = rne m k.
Proof.
  intros Hk Hj.
  assert (0 < 2 ^ k) as Hq by (apply Z.pow_pos_nonneg; lia).
  assert (0 < 2 ^ j) as Hqj by (apply Z.pow_pos_nonneg; lia).
  pose proof (Z.div_mod m (2 ^ k) ltac:(lia)) as E.
  pose proof (Z.mod_pos_bound m (2 ^ k) Hq) as B.
  rewrite (rne_by_parts (m * 2 ^ j) (k + j) (m / 2 ^ k) (m mod 2 ^ k * 2 ^ j));
    [| lia | rewrite Z.pow_add_r by lia; nia | rewrite Z.pow_add_r by lia; nia].
  unfold rne. rewrite Z.pow_add_r by lia.
  set (a := m / 2 ^ k) in *. set (r := m mod 2 ^ k) in *.
  destruct (Z.ltb_spec (2 * (r * 2 ^ j)) (2 ^ k * 2 ^ j)), (Z.ltb_spec (2 * r) (2 ^ k));
    try nia; try reflexivity.
  destruct (Z.ltb_spec (2 ^ k * 2 ^ j) (2 * (r * 2 ^ j))), (Z.ltb_spec (2 ^ k) (2 * r));
    try nia; reflexivity.
Qed.


Lemma RN_0 : RN 0 = 0.
Proof. reflexivity. Qed.

Lemma pow2_split (a b : Z) : 0 <= a -> 0 <= b -> 2 ^ (a + b) = 2 ^ a * 2 ^ b.
Proof. intros. apply Z.pow_add_r; lia. Qed.

Lemma pow2_le (a b : Z) : 0 <= a <= b -> 2 ^ a <= 2 ^ b.
Proof. intros. apply Z.pow_le_mono_r; lia. Qed.

Lemma pow2_lt (a b : Z) : 0 <= a < b -> 2 ^ a < 2 ^ b.
Proof. intros. apply Z.pow_lt_mono_r; lia. Qed.

Lemma pow2_gt0 (a : Z) : 0 <= a -> 0 < 2 ^ a.
Proof. intros. apply Z.pow_pos_nonneg; lia. Qed.

Lemma Zdigits2_pos (z : Z) : 0 < z -> 1 <= Zdigits2 z.
Proof.
  intros Hz. pose proof (Zdigits2_bounds z Hz) as B.
  pose proof (Zdigits2_nonneg z).
  destruct (Z.eq_dec (Zdigits2 z) 0) as [E|]; [|lia].
  rewrite E in B. simpl in B. lia.
Qed.

(** The rounding to 53 bits as a rounding of the mantissa. *)
Lemma RN_rne (z : Z) :
  0 < z ->
  let k := Z.max 0 (Zdigits2 z - 53) in
  RN z = rne z k * 2 ^ k.
Proof.
  intros Hz k. unfold RN.
  destruct (Z.leb_spec (Zdigits2 z - 53) 0) as [H|H].
  - unfold k. rewrite Z.max_l by lia.
    rewrite (rne_center z 0 z); [simpl; lia|lia|left].
    replace (z - 2 ^ 0 * z) with 0 by (simpl; lia). simpl. lia.
  - unfold k. rewrite Z.max_r by lia. reflexivity.
Qed.

Lemma RN_bounds (z : Z) :
  0 < z -> 2 ^ (Zdigits2 z - 1) <= RN z <= 2 ^ Zdigits2 z.
Proof.
  intros Hz. pose proof (Zdigits2_bounds z Hz) as B.
  pose proof (Zdigits2_pos z Hz) as D.
  unfold RN. destruct (Z.leb_spec (Zdigits2 z - 53) 0) as [H|H]; [lia|].
  set (k := Zdigits2 z - 53) in *.
  assert (0 < 2 ^ k) by (apply pow2_gt0; lia).
  assert (2 ^ (Zdigits2 z - 1) = 2 ^ k * 2 ^ 52) as E1.
  { rewrite <- pow2_split by lia. f_equal. lia. }
  assert (2 ^ Zdigits2 z = 2 ^ k * 2 ^ 53) as E2.
  { rewrite <- pow2_split by lia. f_equal. lia. }
  pose proof (rne_lower z k (2 ^ 52) ltac:(lia) ltac:(lia)).
  pose proof (rne_upper z k (2 ^ 53) ltac:(lia) ltac:(lia)).
  nia.
Qed.

Lemma RN_repr (M j : Z) :
  0 <= M < 2 ^ 53 -> 0 <= j -> RN (M * 2 ^ j) = M * 2 ^ j.
Proof.
  intros HM Hj.
  destruct (Z.eq_dec M 0) as [->|HM0]; [reflexivity|].
  assert (0 < 2 ^ j) by (apply pow2_gt0; lia).
  assert (0 < M * 2 ^ j) as Hz by nia.
  unfold RN. destruct (Z.leb_spec (Zdigits2 (M * 2 ^ j) - 53) 0) as [H0|H0]; [reflexivity|].
  pose proof (Zdigits2_bounds _ Hz) as B.
  set (d := Zdigits2 (M * 2 ^ j)) in *. set (k := d - 53) in *.
  assert (k <= j) as Hkj.
  { destruct (Z_le_gt_dec k j); [assumption|exfalso].
    assert (2 ^ (53 + j) <= 2 ^ (d - 1)) by (apply pow2_le; lia).
    rewrite pow2_split in * by lia. nia. }
  assert (M * 2 ^ j = 2 ^ k * (M * 2 ^ (j - k))) as E.
  { replace j with (k + (j - k)) at 1 by lia. rewrite pow2_split by lia. ring. }
  rewrite E at 1. rewrite rne_exact by lia. rewrite E. ring.
Qed.

Lemma Zdigits2_scale (z j : Z) :
  0 < z -> 0 <= j -> Zdigits2 (z * 2 ^ j) = Zdigits2 z + j.
Proof.
  intros Hz Hj. pose proof (Zdigits2_bounds z Hz) as B.
  pose proof (Zdigits2_pos z Hz) as D.
  assert (0 < 2 ^ j) by (apply pow2_gt0; lia).
  apply Zdigits2_unique; [|nia].
  replace (Zdigits2 z + j - 1) with ((Zdigits2 z - 1) + j) by lia.
  rewrite !pow2_split by lia. nia.
Qed.

Lemma RN_scale (z j : Z) : 0 <= z -> 0 <= j -> RN (z * 2 ^ j) = RN z * 2 ^ j.
Proof.
  intros Hz Hj.
  destruct (Z.eq_dec z 0) as [->|Hz0]; [reflexivity|].
  assert (0 < 2 ^ j) by (apply pow2_gt0; lia).
  pose proof (Zdigits2_bounds z ltac:(lia)) as B.
  pose proof (Zdigits2_pos z ltac:(lia)) as D.
  unfold RN at 2.
  destruct (Z.leb_spec (Zdigits2 z - 53) 0) as [H0|H0].
  - apply RN_repr; [|lia]. split; [lia|].
    assert (2 ^ Zdigits2 z <= 2 ^ 53) by (apply pow2_le; lia). lia.
  - unfold RN. rewrite Zdigits2_scale by lia.
    destruct (Z.leb_spec (Zdigits2 z + j - 53) 0) as [H1|H1]; [lia|].
    replace (Zdigits2 z + j - 53) with ((Zdigits2 z - 53) + j) by lia.
    rewrite rne_scale by lia. rewrite pow2_split by lia. ring.
Qed.

Lemma Zdigits2_mono (a b : Z) : 0 < a <= b -> Zdigits2 a <= Zdigits2 b.
Proof.
  intros H. pose proof (Zdigits2_bounds a ltac:(lia)) as Ba.
  pose proof (Zdigits2_bounds b ltac:(lia)) as Bb.
  pose proof (Zdigits2_pos a ltac:(lia)).
  destruct (Z_le_gt_dec (Zdigits2 a) (Zdigits2 b)); [assumption|exfalso].
  assert (2 ^ Zdigits2 b <= 2 ^ (Zdigits2 a - 1)) by (apply pow2_le; pose proof (Zdigits2_nonneg b); lia).
  lia.
Qed.

Lemma RN_mono (a b : Z) : 0 <= a <= b -> RN a <= RN b.
Proof.
  intros H.
  destruct (Z.eq_dec a 0) as [->|Ha].
  { rewrite RN_0. destruct (Z.eq_dec b 0) as [->|Hb]; [rewrite RN_0; lia|].
    pose proof (RN_bounds b ltac:(lia)).
    assert (0 < 2 ^ (Zdigits2 b - 1)); [|lia].
    apply pow2_gt0. pose proof (Zdigits2_pos b ltac:(lia)). lia. }
  pose proof (Zdigits2_mono a b ltac:(lia)) as Hd.
  pose proof (Zdigits2_pos a ltac:(lia)) as Da.
  destruct (Z.eq_dec (Zdigits2 a) (Zdigits2 b)) as [E|NE].
  - unfold RN. rewrite E.
    destruct (Z.leb_spec (Zdigits2 b - 53) 0) as [H0|H0]; [lia|].
    assert (0 < 2 ^ (Zdigits2 b - 53)) by (apply pow2_gt0; lia).
    pose proof (rne_mono a b (Zdigits2 b - 53) ltac:(lia) ltac:(lia)). nia.
  - pose proof (RN_bounds a ltac:(lia)). pose proof (RN_bounds b ltac:(lia)).
    assert (2 ^ Zdigits2 a <= 2 ^ (Zdigits2 b - 1)) by (apply pow2_le; lia). lia.
Qed.

Lemma RN_err (z : Z) : 0 <= z -> 2 ^ 53 * Z.abs (RN z - z) <= z.
Proof.
  intros Hz. destruct (Z.eq_dec z 0) as [->|Hz0]; [rewrite RN_0; simpl; lia|].
  pose proof (Zdigits2_bounds z ltac:(lia)) as B.
  unfold RN. destruct (Z.leb_spec (Zdigits2 z - 53) 0) as [H0|H0].
  - rewrite Z.sub_diag. simpl. lia.
  - set (k := Zdigits2 z - 53) in *.
    pose proof (rne_near z k ltac:(lia)) as N.
    assert (2 ^ (Zdigits2 z - 1) = 2 ^ 52 * 2 ^ k) as E.
    { rewrite <- pow2_split by lia. f_equal. lia. }
    replace (rne z k * 2 ^ k) with (2 ^ k * rne z k) by ring.
    change (2 ^ 53) with (2 ^ 52 * 2). lia.
Qed.

Lemma RN_nonneg (z : Z) : 0 <= z -> 0 <= RN z.
Proof. intros H. change 0 with (RN 0) at 1. apply RN_mono. lia. Qed.

Lemma even_2pow_mul (x j : Z) : 1 <= j -> Z.even (x * 2 ^ j) = true.
Proof.
  intros Hj. replace j with (1 + (j - 1)) by lia. rewrite pow2_split by lia.
  change (2 ^ 1) with 2. replace (x * (2 * 2 ^ (j - 1))) with (2 * (x * 2 ^ (j - 1))) by ring.
  rewrite Z.even_mul. reflexivity.
Qed.

(** Interpolating between a value and itself gives the value back: with
    weights [a + b = 2^53] the two rounded products add up, after rounding,
    to [x * 2^53]. *)
Lemma interpolation_exact_ordered (x a b : Z) :
  0 < x < 2 ^ 52 -> 0 < b <= a -> a + b = 2 ^ 53 ->
  RN (RN (x * a) + RN (x * b)) = x * 2 ^ 53.
Proof.
  intros Hx Hab Hsum.
  set (dx := Zdigits2 x).
  pose proof (Zdigits2_bounds x ltac:(lia)) as Bx. fold dx in Bx.
  pose proof (Zdigits2_pos x ltac:(lia)) as Dx1. fold dx in Dx1.
  clearbody dx.
  assert (dx <= 52) as Dx2.
  { destruct (Z_le_gt_dec dx 52); [assumption|exfalso].
    assert (2 ^ 52 <= 2 ^ (dx - 1)) by (apply pow2_le; lia). lia. }
  assert (2 ^ 52 <= a < 2 ^ 53) as Ha by lia.
  assert (2 ^ dx <= 2 ^ 52) as Hdx52 by (apply pow2_le; lia).
  assert (0 < 2 ^ (dx - 1)) as Hdxp by (apply pow2_gt0; lia).
  assert (2 ^ dx = 2 * 2 ^ (dx - 1)) as Edx.
  { replace dx with (1 + (dx - 1)) at 1 by lia. rewrite pow2_split by lia. reflexivity. }
  remember (x * 2 ^ 53) as X eqn:EX0.
  remember (x * a) as t eqn:Et. remember (x * b) as s eqn:Es.
  assert (t + s = X) as Hts by nia.
  assert (0 < s <= t) as Hst by nia.
  assert (2 ^ (dx + 51) <= t < 2 ^ (dx + 53)) as Rt.
  { replace (dx + 51) with ((dx - 1) + 52) by lia.
    rewrite !pow2_split by lia. nia. }
  assert (2 ^ (dx + 52) <= X <= 2 ^ (dx + 53) - 2 ^ 53) as HX.
  { replace (dx + 52) with ((dx - 1) + 53) by lia. rewrite !pow2_split by lia. nia. }
  assert (x <> 2 ^ (dx - 1) -> 2 ^ (dx + 52) + 2 ^ 53 <= X) as HXnp.
  { intros Nx. replace (dx + 52) with ((dx - 1) + 53) by lia. rewrite pow2_split by lia. nia. }
  assert (x = 2 ^ (dx - 1) -> X = 2 ^ (dx + 52)) as HXp.
  { intros Ex. replace (dx + 52) with ((dx - 1) + 53) by lia. rewrite pow2_split by lia. nia. }
  assert (forall k, 0 <= k <= 52 -> X = 2 ^ k * (x * 2 ^ (53 - k))) as HXgrid.
  { intros k Hk. rewrite EX0. replace 53 with (k + (53 - k)) at 1 by lia.
    rewrite pow2_split by lia. ring. }
  clear Et Es EX0.
  (* the larger product *)
  set (dt := Zdigits2 t).
  pose proof (Zdigits2_bounds t ltac:(lia)) as Bt. fold dt in Bt.
  assert (0 <= dt) as Hdt0 by apply Zdigits2_nonneg.
  assert (dx + 52 <= dt <= dx + 53) as Hdt.
  { split.
    - destruct (Z_le_gt_dec (dx + 52) dt); [assumption|exfalso].
      assert (2 ^ dt <= 2 ^ (dx + 51)) by (apply pow2_le; lia).
      lia.
    - destruct (Z_le_gt_dec dt (dx + 53)); [assumption|exfalso].
      assert (2 ^ (dx + 53) <= 2 ^ (dt - 1)) by (apply pow2_le; lia). lia. }
  set (kt := dt - 53).
  assert (0 <= kt) as Hkt0 by (unfold kt; lia).
  assert (RN t = rne t kt * 2 ^ kt) as ET.
  { rewrite RN_rne by lia. cbv zeta. fold dt.
    replace (Z.max 0 (dt - 53)) with kt by (unfold kt; lia). reflexivity. }
  pose proof (rne_near t kt Hkt0) as NT.
  pose proof (rne_tie_even t kt Hkt0) as TT.
  remember (rne t kt) as cT eqn:EcT. clear EcT.
  (* the smaller product *)
  set (ds := Zdigits2 s).
  assert (ds <= dt) as Hds by (apply Zdigits2_mono; lia).
  set (ks := Z.max 0 (ds - 53)).
  assert (0 <= ks <= kt) as Hks by (unfold ks, kt; lia).
  assert (RN s = rne s ks * 2 ^ ks) as ES by (apply RN_rne; lia).
  clearbody ks ds.
  (* [X] on the grid of [t] *)
  pose proof (HXgrid kt ltac:(unfold kt; lia)) as EX.
  assert (Z.even (x * 2 ^ (53 - kt)) = true) as EvX
    by (apply even_2pow_mul; unfold kt; lia).
  remember (x * 2 ^ (53 - kt)) as cX eqn:EcX. clear EcX.
  assert (2 * Z.abs (RN s - (X - RN t)) <= 2 ^ kt) as Hrho.
  { destruct (Z.eq_dec ks kt) as [Ek|Nk].
    - assert (rne s ks = cX - cT) as EcS.
      { rewrite Ek. apply rne_center; [lia|].
        assert (s - 2 ^ kt * (cX - cT) = 2 ^ kt * cT - t) as -> by lia.
        destruct (Z.eq_dec (2 * Z.abs (2 ^ kt * cT - t)) (2 ^ kt)) as [Tie|NTie].
        + right. split; [exact Tie|].
          rewrite Z.even_sub, EvX, (TT Tie). reflexivity.
        + left. lia. }
      assert (RN s = X - RN t) as ->.
      { rewrite ES, ET, EcS, Ek. lia. }
      rewrite Z.sub_diag. simpl. assert (0 < 2 ^ kt) by (apply pow2_gt0; lia). lia.
    - assert (1 <= kt - ks) as Hgap by lia.
      assert (2 ^ kt = 2 ^ ks * (2 * 2 ^ (kt - ks - 1))) as Eq.
      { replace kt with (ks + (1 + (kt - ks - 1))) at 1 by lia.
        rewrite !pow2_split by lia. reflexivity. }
      assert (0 < 2 ^ (kt - ks - 1)) as Hh by (apply pow2_gt0; lia).
      assert (0 < 2 ^ ks) as Hqs by (apply pow2_gt0; lia).
      remember (2 ^ (kt - ks - 1)) as h eqn:Eh. clear Eh.
      pose proof (rne_lower s ks (2 * h * (cX - cT) - h) ltac:(lia)) as L.
      pose proof (rne_upper s ks (2 * h * (cX - cT) + h) ltac:(lia)) as U.
      remember (rne s ks) as cS eqn:EcS. clear EcS.
      remember (2 ^ ks) as qs eqn:Eqs. clear Eqs.
      remember (2 ^ kt) as qt eqn:Eqt. clear Eqt.
      assert (2 * h * (cX - cT) - h <= cS) by (apply L; nia).
      assert (cS <= 2 * h * (cX - cT) + h) by (apply U; nia).
      rewrite ES, ET.
      assert (cS * qs - (X - cT * qt) = qs * (cS - 2 * h * (cX - cT))) as ->
        by (rewrite EX, Eq; ring).
      rewrite Z.abs_mul, (Z.abs_eq qs) by lia.
      assert (Z.abs (cS - 2 * h * (cX - cT)) <= h) by lia.
      rewrite Eq. clear - H1 Hqs Hh.
      assert (qs * Z.abs (cS - 2 * h * (cX - cT)) <= qs * h)
        by (apply Z.mul_le_mono_nonneg_l; lia).
      lia. }
  (* the sum *)
  remember (RN s - (X - RN t)) as rho eqn:Erho.
  assert (RN t + RN s = X + rho) as -> by lia.
  clear Erho ES ET NT TT EX EvX.
  assert (2 ^ kt <= 2 ^ dx) as Hqtx by (apply pow2_le; unfold kt; lia).
  destruct (Z_le_gt_dec (2 ^ (dx + 52)) (X + rho)) as [Hin|Hout].
  - (* the sum is in the binade of [X] *)
    assert (Zdigits2 (X + rho) = dx + 53) as Dsum.
    { apply Zdigits2_unique; [|lia].
      replace (dx + 53 - 1) with (dx + 52) by lia. lia. }
    rewrite RN_rne by lia. cbv zeta. rewrite Dsum.
    replace (Z.max 0 (dx + 53 - 53)) with dx by lia.
    pose proof (HXgrid dx ltac:(lia)) as EX'.
    rewrite (rne_center (X + rho) dx (x * 2 ^ (53 - dx))).
    + lia.
    + lia.
    + rewrite <- EX'. replace (X + rho - X) with rho by lia.
      destruct (Z.eq_dec (2 * Z.abs rho) (2 ^ dx)) as [Tie|NTie].
      * right. split; [exact Tie|]. apply even_2pow_mul. lia.
      * left. lia.
  - (* the sum fell below a power of two *)
    assert (rho < 0) as Hneg by lia.
    assert (X = 2 ^ (dx + 52)) as EXp.
    { destruct (Z.eq_dec x (2 ^ (dx - 1))) as [Ex|Nx]; [auto|].
      specialize (HXnp Nx). lia. }
    assert (dt = dx + 52) as Edt.
    { destruct (Z.eq_dec dt (dx + 52)); [assumption|exfalso].
      assert (dt = dx + 53) as Edt by lia.
      assert (2 ^ (dx + 52) <= t) by (replace (dx + 52) with (dt - 1) by lia; lia).
      lia. }
    assert (kt = dx - 1) as Ekt by (unfold kt; lia).
    rewrite Ekt in *.
    assert (2 ^ (dx + 52) = 2 * 2 ^ (dx + 51)) as E52.
    { replace (dx + 52) with (1 + (dx + 51)) by lia.
      rewrite pow2_split by lia. reflexivity. }
    assert (2 ^ dx <= 2 ^ (dx + 51)) by (apply pow2_le; lia).
    assert (2 ^ (dx + 51) <= X + rho) as Hlo by lia.
    assert (Zdigits2 (X + rho) = dx + 52) as Dsum.
    { apply Zdigits2_unique; [|lia].
      replace (dx + 52 - 1) with (dx + 51) by lia. lia. }
    rewrite RN_rne by lia. cbv zeta. rewrite Dsum.
    replace (Z.max 0 (dx + 52 - 53)) with (dx - 1) by lia.
    assert (X = 2 ^ (dx - 1) * 2 ^ 53) as EX'.
    { rewrite EXp, <- pow2_split by lia. f_equal. lia. }
    rewrite (rne_center (X + rho) (dx - 1) (2 ^ 53)).
    + lia.
    + lia.
    + rewrite <- EX'. replace (X + rho - X) with rho by lia.
      destruct (Z.eq_dec (2 * Z.abs rho) (2 ^ (dx - 1))) as [Tie|NTie].
      * right. split; [exact Tie|reflexivity].
      * left. lia.
Qed.

Lemma interpolation_exact (x k : Z) :
  0 <= x < 2 ^ 52 -> 0 <= k <= 2 ^ 53 ->
  RN (RN (x * (2 ^ 53 - k)) + RN (x * k)) = x * 2 ^ 53.
Proof.
  intros Hx Hk.
  destruct (Z.eq_dec x 0) as [->|Hx0]; [reflexivity|].
  destruct (Z.eq_dec k 0) as [->|Hk0].
  { rewrite Z.mul_0_r, RN_0, Z.add_0_r, Z.sub_0_r.
    rewrite (RN_repr x 53) by lia. apply RN_repr; lia. }
  destruct (Z.eq_dec k (2 ^ 53)) as [->|Hk1].
  { rewrite Z.sub_diag, Z.mul_0_r, RN_0, Z.add_0_l.
    rewrite (RN_repr x 53) by lia. apply RN_repr; lia. }
  destruct (Z_le_gt_dec k (2 ^ 53 - k)).
  - apply interpolation_exact_ordered; lia.
  - rewrite Z.add_comm. apply interpolation_exact_ordered; lia.
Qed.


(** ** Binary64: what the operations compute *)

Lemma shr_1_parts (mrs : shr_record) :
  0 <= shr_m mrs ->
  shr_m (shr_1 mrs) = shr_m mrs / 2 /\
  shr_r (shr_1 mrs) = Z.odd (shr_m mrs) /\
  shr_s (shr_1 mrs) = shr_r mrs || shr_s mrs.
Proof.
  destruct mrs as [m r s]. cbn [shr_m shr_r shr_s]. intros Hm.
  destruct m as [|[p|p|]|p]; try lia; cbn [shr_1 shr_m shr_r shr_s].
  - repeat split; reflexivity.
  - repeat split; try reflexivity.
    rewrite Pos2Z.inj_xI. apply Z.div_unique with 1; lia.
  - repeat split; try reflexivity.
    rewrite Pos2Z.inj_xO. apply Z.div_unique with 0; lia.
  - repeat split; reflexivity.
Qed.

Lemma shr_inv_step (m0 n : Z) (mrs : shr_record) :
  0 <= m0 -> 0 <= n -> shr_inv m0 n mrs -> shr_inv m0 (n + 1) (shr_1 mrs).
Proof.
  intros Hm0 Hn (Im & Ir & Is).
  assert (0 < 2 ^ n) as Hq by (apply pow2_gt0; lia).
  assert (0 <= shr_m mrs) as Hm by (rewrite Im; apply Z.div_pos; lia).
  destruct (shr_1_parts mrs Hm) as (Sm & Sr & Ss).
  pose proof (Z.div_mod m0 (2 ^ n) ltac:(lia)) as E.
  pose proof (Z.mod_pos_bound m0 (2 ^ n) Hq) as B.
  set (m := m0 / 2 ^ n) in *. set (r := m0 mod 2 ^ n) in *.
  pose proof (Z.div_mod m 2 ltac:(lia)) as E2.
  pose proof (Z.mod_pos_bound m 2 ltac:(lia)) as B2.
  assert (2 ^ (n + 1) = 2 * 2 ^ n) as Ep by (rewrite pow2_split by lia; simpl; lia).
  assert (m0 / 2 ^ (n + 1) = m / 2) as Ed.
  { symmetry. apply Z.div_unique with (r + 2 ^ n * (m mod 2)); [left; nia|nia]. }
  assert (m0 mod 2 ^ (n + 1) = r + 2 ^ n * (m mod 2)) as Er.
  { symmetry. apply Z.mod_unique with (m / 2); [left; nia|nia]. }
  assert (Z.odd m = (m mod 2 =? 1)) as Eo.
  { rewrite Zmod_odd. destruct (Z.odd m); reflexivity. }
  unfold shr_inv. rewrite Sm, Sr, Ss, Im, Ir, Is, Ed, Er, Eo, Ep.
  split; [reflexivity|].
  clearbody m r. clear E Im Ir Is Sm Sr Ss Ed Er Eo E2.
  assert (m mod 2 = 0 \/ m mod 2 = 1) as [-> | ->] by lia.
  - rewrite Z.mul_0_r, Z.add_0_r. split.
    + destruct (Z.leb_spec (2 * 2 ^ n) (2 * r)); [lia|reflexivity].
    + destruct (Z.leb_spec (2 ^ n) (2 * r)), (Z.eqb_spec r 0), (Z.eqb_spec (2 * r) (2 ^ n)),
        (Z.eqb_spec (2 * r) (2 * 2 ^ n)); simpl; try reflexivity; lia.
  - rewrite Z.mul_1_r. split.
    + destruct (Z.leb_spec (2 * 2 ^ n) (2 * (r + 2 ^ n))); [reflexivity|lia].
    + destruct (Z.leb_spec (2 ^ n) (2 * r)), (Z.eqb_spec r 0), (Z.eqb_spec (2 * r) (2 ^ n)),
        (Z.eqb_spec (r + 2 ^ n) 0), (Z.eqb_spec (2 * (r + 2 ^ n)) (2 * 2 ^ n));
        simpl; try reflexivity; lia.
Qed.

Lemma shr_inv_iter (m0 : Z) (n : nat) :
  0 <= m0 ->
  shr_inv m0 (Z.of_nat n) (Nat.iter n shr_1 (shr_record_of_loc m0 loc_Exact)).
Proof.
  intros Hm0. induction n as [|n IH].
  - cbn [Nat.iter shr_record_of_loc]. unfold shr_inv. cbn [shr_m shr_r shr_s].
    change (2 ^ Z.of_nat 0) with 1. rewrite Z.div_1_r, Z.mod_1_r. auto.
  - rewrite Nat.iter_succ, Nat2Z.inj_succ.
    replace (Z.succ (Z.of_nat n)) with (Z.of_nat n + 1) by lia.
    apply shr_inv_step; [lia|lia|exact IH].
Qed.

(** Shifting right and rounding to nearest even is [rne]. *)
Lemma shr_rne (m e k : Z) :
  0 <= m -> 0 <= k ->
  snd (shr (shr_record_of_loc m loc_Exact) e k) = e + k /\
  round_nearest_even
    (shr_m (fst (shr (shr_record_of_loc m loc_Exact) e k)))
    (loc_of_shr_record (fst (shr (shr_record_of_loc m loc_Exact) e k)))
  = rne m k.
Proof.
  intros Hm Hk. destruct k as [|p|p]; try lia.
  - cbn. split; [lia|]. symmetry. apply rne_center; [lia|left].
    replace (m - 2 ^ 0 * m) with 0 by (simpl; lia). simpl. lia.
  - cbn [shr fst snd]. split; [reflexivity|].
    rewrite iter_pos_nat.
    pose proof (shr_inv_iter m (Pos.to_nat p) Hm) as (Im & Ir & Is).
    rewrite positive_nat_Z in *.
    destruct (Nat.iter (Pos.to_nat p) shr_1 (shr_record_of_loc m loc_Exact))
      as [m1 r1 s1].
    cbn [shr_m shr_r shr_s] in *. unfold rne. rewrite <- Im.
    assert (0 < 2 ^ Zpos p) as Hq by (apply pow2_gt0; lia).
    pose proof (Z.mod_pos_bound m (2 ^ Zpos p) Hq) as B.
    set (r := m mod 2 ^ Zpos p) in *.
    subst r1 s1.
    destruct (Z.leb_spec (2 ^ Zpos p) (2 * r)), (Z.eqb_spec r 0),
      (Z.eqb_spec (2 * r) (2 ^ Zpos p)), (Z.ltb_spec (2 * r) (2 ^ Zpos p)),
      (Z.ltb_spec (2 ^ Zpos p) (2 * r));
      cbn [negb andb loc_of_shr_record round_nearest_even]; try lia; try reflexivity.
Qed.

(** Rounding a number of at least 53 bits in the normal range. *)
Lemma round_aux_rne (s : bool) (m e : Z) :
  2 ^ 52 <= m ->
  -1074 <= e + (Zdigits2 m - 53) -> e + (Zdigits2 m - 53) < 971 ->
  exists m' e',
    binary_round_aux 53 1024 s m e loc_Exact = S754_finite s m' e' /\
    canon (Zpos m') e' /\ 2 ^ 52 <= Zpos m' /\
    e + (Zdigits2 m - 53) <= e' /\
    Zpos m' * 2 ^ (e' - (e + (Zdigits2 m - 53))) = rne m (Zdigits2 m - 53).
Proof.
  intros Hm Hlo Hhi.
  pose proof (Zdigits2_bounds m ltac:(lia)) as B.
  set (d := Zdigits2 m) in *. set (k := d - 53) in *.
  assert (53 <= d) as Hd.
  { destruct (Z_le_gt_dec 53 d); [assumption|exfalso].
    assert (2 ^ d <= 2 ^ 52) by (apply pow2_le; pose proof (Zdigits2_nonneg m); fold d in H; lia).
    lia. }
  assert (0 <= k) as Hk by (unfold k; lia).
  unfold binary_round_aux, shr_fexp. change (fexp 53 1024) with fexp64.
  fold d. assert (fexp64 (d + e) - e = k) as -> by (unfold fexp64, k in *; lia).
  destruct (shr_rne m e k ltac:(lia) Hk) as [Se Sr].
  destruct (shr (shr_record_of_loc m loc_Exact) e k) as [mrs1 e1].
  cbn [fst snd] in Se, Sr. subst e1. rewrite Sr.
  assert (0 < 2 ^ k) as Hq by (apply pow2_gt0; lia).
  assert (2 ^ (d - 1) = 2 ^ k * 2 ^ 52) as E1.
  { rewrite <- pow2_split by lia. f_equal. unfold k. lia. }
  assert (2 ^ d = 2 ^ k * 2 ^ 53) as E2.
  { rewrite <- pow2_split by lia. f_equal. unfold k. lia. }
  pose proof (rne_lower m k (2 ^ 52) Hk ltac:(lia)) as L.
  pose proof (rne_upper m k (2 ^ 53) Hk ltac:(lia)) as U.
  set (m2 := rne m k) in *.
  destruct (Z.eq_dec m2 (2 ^ 53)) as [T|NT].
  - rewrite T. replace (Zdigits2 (2 ^ 53)) with 54 by reflexivity.
    assert (fexp64 (54 + (e + k)) - (e + k) = 1) as -> by (unfold fexp64; lia).
    cbn [shr shr_record_of_loc SpecFloat.iter_pos shr_1 shr_m].
    replace (Z.leb (e + k + 1) (1024 - 53)) with true by (symmetry; apply Z.leb_le; lia).
    eexists _, _. split; [reflexivity|].
    split; [unfold canon; cbn; lia|].
    split; [cbn; lia|]. split; [lia|].
    replace (e + k + 1 - (e + k)) with 1 by lia. reflexivity.
  - assert (Zdigits2 m2 = 53) as D2 by (apply Zdigits2_unique; lia).
    rewrite D2.
    assert (fexp64 (53 + (e + k)) - (e + k) = 0) as -> by (unfold fexp64; lia).
    cbn [shr shr_record_of_loc shr_m].
    destruct m2 as [|p|p] eqn:Ep; try lia.
    replace (Z.leb (e + k) (1024 - 53)) with true by (symmetry; apply Z.leb_le; lia).
    eexists _, _. split; [reflexivity|].
    split; [unfold canon; lia|].
    split; [lia|]. split; [lia|].
    rewrite Z.sub_diag. simpl. lia.
Qed.


Lemma pow2_lt_inv (a b : Z) : 0 <= b -> 2 ^ a < 2 ^ b -> a < b.
Proof. intros Hb H. apply (Z.pow_lt_mono_r_iff 2); lia. Qed.

Lemma pow2_nz (a : Z) : 0 <= a -> 2 ^ a <> 0.
Proof. intros H. pose proof (pow2_gt0 a H). lia. Qed.

(** The number of digits of a number between two powers of two. *)
Lemma digits_of_range (m j a b : Z) :
  0 < m -> 0 <= j -> 0 <= a -> 0 <= b ->
  2 ^ a <= m * 2 ^ j < 2 ^ b ->
  a < Zdigits2 m + j /\ Zdigits2 m + j - 1 < b.
Proof.
  intros Hm Hj Ha Hb [H1 H2].
  pose proof (Zdigits2_bounds m Hm) as B. pose proof (Zdigits2_pos m Hm) as D.
  assert (0 < 2 ^ j) by (apply pow2_gt0; lia).
  split.
  - apply pow2_lt_inv; [lia|]. rewrite (pow2_split (Zdigits2 m) j) by lia. nia.
  - apply pow2_lt_inv; [lia|].
    replace (Zdigits2 m + j - 1) with ((Zdigits2 m - 1) + j) by lia.
    rewrite (pow2_split (Zdigits2 m - 1) j) by lia. nia.
Qed.

(** The large powers of two stay folded in the arithmetic goals. *)
Ltac hide_pow c :=
  let T := fresh "T" in
  let E := fresh "E" in
  remember (2 ^ c) as T eqn:E in *; clear E.

Ltac hide_big :=
  hide_pow 1021; hide_pow 1074; hide_pow 1200; hide_pow 2000; hide_pow 2095;
  hide_pow 3000.

Lemma fval_nonneg (f : float) : 0 <= fval f.
Proof.
  destruct f as [| | |[] m e]; cbn [fval]; lia.
Qed.

Lemma regular_nonneg (f : float) : regular f -> nonneg f.
Proof. destruct f as [| | |[] m e]; simpl; tauto. Qed.

Lemma round_aux_fval (m e : Z) :
  2 ^ 52 <= m ->
  -1074 <= e + (Zdigits2 m - 53) -> e + (Zdigits2 m - 53) < 971 ->
  regular (binary_round_aux 53 1024 false m e loc_Exact) /\
  fval (binary_round_aux 53 1024 false m e loc_Exact)
  = rne m (Zdigits2 m - 53) * 2 ^ (e + (Zdigits2 m - 53) + 1074).
Proof.
  intros Hm Hlo Hhi.
  destruct (round_aux_rne false m e Hm Hlo Hhi) as (m' & e' & -> & Hc & Hn & He & Hv).
  split; [simpl; auto|].
  cbn [fval]. rewrite <- Hv.
  rewrite <- Z.mul_assoc, <- pow2_split by lia. f_equal. f_equal. lia.
Qed.

Lemma mul_rounds (x y : float) :
  regular x -> regular y ->
  fval x * fval y = 0 \/ 2 ^ 1200 <= fval x * fval y < 2 ^ 3000 ->
  regular (Float64.mul x y) /\
  fval (Float64.mul x y) * 2 ^ 1074 = RN (fval x * fval y).
Proof.
  intros Rx Ry HP. unfold Float64.mul, Float64.prec, Float64.emax.
  destruct x as [sx| | |[] mx ex], y as [sy| | |[] my ey]; simpl in Rx, Ry; try contradiction.
  - simpl. auto.
  - simpl. auto.
  - cbn [SFmul fval regular]. rewrite Z.mul_0_r. auto.
  - destruct Rx as [Cx Nx], Ry as [Cy Ny].
    cbn [SFmul xorb fval] in *. rewrite Pos2Z.inj_mul.
    set (m := Zpos mx * Zpos my) in *. set (e := ex + ey) in *.
    assert (0 <= ex + 1074 /\ 0 <= ey + 1074) as [Hex Hey]
      by (destruct Cx as (_ & ? & _), Cy as (_ & ? & _); clear HP; lia).
    assert (Zpos mx * 2 ^ (ex + 1074) * (Zpos my * 2 ^ (ey + 1074)) = m * 2 ^ (e + 2148)) as EP.
    { unfold m, e. replace (ex + ey + 2148) with ((ex + 1074) + (ey + 1074)) by (clear; lia).
      rewrite (pow2_split (ex + 1074) (ey + 1074)) by assumption. ring. }
    rewrite EP in *.
    assert (2 ^ 104 <= m) as Hm.
    { unfold m. change (2 ^ 104) with (2 ^ 52 * 2 ^ 52).
      apply Z.mul_le_mono_nonneg; clear HP; lia. }
    assert (0 <= e + 2148) as He by (unfold e; clear HP; lia).
    assert (0 < 2 ^ (e + 2148)) as Hq by (apply pow2_gt0; exact He).
    destruct HP as [HP|HP]; [exfalso; nia|].
    destruct (digits_of_range m (e + 2148) 1200 3000) as [Hdn Hup];
      [clear HP; lia|exact He|clear; lia|clear; lia|exact HP|].
    clear HP.
    pose proof (Zdigits2_bounds m ltac:(lia)) as B.
    pose proof (Zdigits2_pos m ltac:(lia)) as D.
    pose proof (round_aux_fval m e) as RF.
    pose proof (RN_rne m ltac:(lia)) as RR. cbv zeta in RR.
    set (d := Zdigits2 m) in *.
    assert (105 <= d) as Hd.
    { destruct (Z_le_gt_dec 105 d); [assumption|exfalso].
      assert (2 ^ d <= 2 ^ 104) by (apply pow2_le; lia). lia. }
    destruct RF as [R F]; try lia.
    split; [exact R|]. rewrite F.
    rewrite RN_scale by lia. rewrite RR.
    rewrite Z.max_r by lia.
    rewrite <- !Z.mul_assoc.
    rewrite <- (pow2_split (e + (d - 53) + 1074) 1074) by lia.
    rewrite <- (pow2_split (d - 53) (e + 2148)) by lia.
    f_equal. f_equal. lia.
Qed.

Lemma binary_round_fval (m : positive) (e : Z) :
  -1074 <= e ->
  2 ^ 52 <= Zpos m * 2 ^ (e + 1074) < 2 ^ 2000 ->
  regular (binary_round 53 1024 false m e) /\
  fval (binary_round 53 1024 false m e) = RN (Zpos m * 2 ^ (e + 1074)).
Proof.
  intros He HV. unfold binary_round. change (fexp 53 1024) with fexp64.
  set (d := Zpos (digits2_pos m)).
  pose proof (digits2_pos_bounds m) as B. fold d in B.
  assert (1 <= d) as D by (unfold d; clear HV; lia).
  assert (0 < 2 ^ (e + 1074)) as Hq by (apply pow2_gt0; clear HV; lia).
  assert (52 < d + e + 1074 /\ d + e + 1074 < 2001) as [Hdn Hup].
  { destruct (digits_of_range (Zpos m) (e + 1074) 52 2000) as [H1 H2];
      [clear; lia|clear - He; lia|clear; lia|clear; lia|exact HV|].
    change (Zdigits2 (Zpos m)) with d in H1, H2. clear HV. lia. }
  clear HV.
  destruct (Z_lt_le_dec d 53) as [Hs|Hl].
  - assert (fexp64 (d + e) = d + e - 53) as Ef by (unfold fexp64; lia).
    rewrite Ef.
    destruct (shl_align_spec m e (d + e - 53) ltac:(lia)) as [S1 S2].
    destruct (shl_align m e (d + e - 53)) as [mz ez]. cbn [fst snd] in *. subst ez.
    replace (e - (d + e - 53)) with (53 - d) in S2 by lia.
    assert (0 < 2 ^ (53 - d)) by (apply pow2_gt0; lia).
    assert (canon (Zpos mz) (d + e - 53) /\ 2 ^ 52 <= Zpos mz) as [Hc Hn].
    { assert (2 ^ 52 <= Zpos mz < 2 ^ 53).
      { rewrite S2.
        assert (2 ^ 53 = 2 ^ d * 2 ^ (53 - d)) as -> by (rewrite <- pow2_split by lia; f_equal; lia).
        assert (2 ^ 52 = 2 ^ (d - 1) * 2 ^ (53 - d)) as -> by (rewrite <- pow2_split by lia; f_equal; lia).
        split; [apply Z.mul_le_mono_nonneg_r; lia|apply Z.mul_lt_mono_pos_r; lia]. }
      split; [|lia]. unfold canon. lia. }
    rewrite round_aux_canon by exact Hc.
    split; [simpl; auto|].
    cbn [fval]. rewrite S2, RN_repr.
    + rewrite <- Z.mul_assoc, <- pow2_split by lia. f_equal. f_equal. lia.
    + split; [lia|]. assert (2 ^ d <= 2 ^ 53) by (apply pow2_le; lia). lia.
    + lia.
  - assert (e <= fexp64 (d + e)) as Ef by (unfold fexp64; lia).
    rewrite shl_align_id by exact Ef.
    assert (2 ^ 52 <= Zpos m) as Hm.
    { assert (2 ^ 52 <= 2 ^ (d - 1)) by (apply pow2_le; lia). lia. }
    pose proof (round_aux_fval (Zpos m) e) as RF.
    pose proof (RN_rne (Zpos m) ltac:(lia)) as RR. cbv zeta in RR.
    change (Zdigits2 (Zpos m)) with d in RF, RR.
    destruct RF as [R F]; try lia.
    split; [exact R|]. rewrite F.
    rewrite RN_scale by lia. rewrite RR.
    rewrite Z.max_r by lia.
    rewrite <- !Z.mul_assoc, <- !pow2_split by lia.
    f_equal. f_equal. lia.
Qed.

Lemma fval_finite (m : positive) (e : Z) :
  canon (Zpos m) e -> 2 ^ 52 <= Zpos m ->
  2 ^ 52 <= fval (S754_finite false m e) /\ -1074 <= e.
Proof.
  intros (Hm & He & _) Hn. cbn [fval]. split; [|lia].
  assert (1 <= 2 ^ (e + 1074)) by (assert (0 < 2 ^ (e + 1074)) by (apply pow2_gt0; lia); lia).
  nia.
Qed.

Lemma RN_fval (f : float) : regular f -> RN (fval f) = fval f.
Proof.
  destruct f as [| | |[] m e]; simpl; try tauto; try reflexivity.
  intros [(Hm & He & _) _]. apply RN_repr; lia.
Qed.

Lemma add_rounds (x y : float) :
  regular x -> regular y -> fval x + fval y < 2 ^ 2000 ->
  regular (Float64.add x y) /\
  fval (Float64.add x y) = RN (fval x + fval y).
Proof.
  intros Rx Ry HV. unfold Float64.add, Float64.prec, Float64.emax.
  destruct x as [sx| | |[] mx ex], y as [sy| | |[] my ey]; simpl in Rx, Ry; try contradiction.
  - simpl. destruct sx, sy; simpl; auto.
  - cbn [SFadd]. split; [exact Ry|].
    change (fval (S754_zero sx)) with 0. rewrite Z.add_0_l. symmetry. apply RN_fval, Ry.
  - cbn [SFadd]. split; [exact Rx|].
    change (fval (S754_zero sy)) with 0. rewrite Z.add_0_r. symmetry. apply RN_fval, Rx.
  - destruct Rx as [Cx Nx], Ry as [Cy Ny].
    destruct (fval_finite mx ex Cx Nx) as [Vx Ex].
    destruct (fval_finite my ey Cy Ny) as [Vy Ey].
    cbn [SFadd cond_Zopp]. cbn [fval] in *.
    set (ez := Z.min ex ey).
    destruct (shl_align_spec mx ex ez ltac:(unfold ez; lia)) as [_ Sx].
    destruct (shl_align_spec my ey ez ltac:(unfold ez; lia)) as [_ Sy].
    set (a := fst (shl_align mx ex ez)) in *. set (b := fst (shl_align my ey ez)) in *.
    change (Zpos a + Zpos b) with (Zpos (a + b)). cbn [binary_normalize].
    assert (Zpos (a + b) * 2 ^ (ez + 1074)
            = Zpos mx * 2 ^ (ex + 1074) + Zpos my * 2 ^ (ey + 1074)) as EV.
    { rewrite Pos2Z.inj_add, Sx, Sy, Z.mul_add_distr_r.
      rewrite <- !Z.mul_assoc, <- !pow2_split by (unfold ez; lia).
      f_equal; f_equal; f_equal; lia. }
    rewrite <- EV in *.
    apply binary_round_fval; [unfold ez; clear HV; lia|].
    split; [clear HV; lia|exact HV].
Qed.

Lemma sub_rounds (x y : float) :
  regular x -> regular y -> fval y <= fval x -> fval x < 2 ^ 2000 ->
  fval x - fval y = 0 \/ 2 ^ 52 <= fval x - fval y ->
  regular (Float64.sub x y) /\
  fval (Float64.sub x y) = RN (fval x - fval y).
Proof.
  intros Rx Ry Hle HV Hn. unfold Float64.sub, Float64.prec, Float64.emax.
  destruct x as [sx| | |[] mx ex], y as [sy| | |[] my ey]; simpl in Rx, Ry; try contradiction.
  - simpl. destruct sx, sy; simpl; auto.
  - exfalso. destruct Ry as [Cy Ny]. destruct (fval_finite my ey Cy Ny) as [Vy _].
    change (fval (S754_zero sx)) with 0 in Hle. lia.
  - cbn [SFsub]. split; [exact Rx|].
    change (fval (S754_zero sy)) with 0. rewrite Z.sub_0_r. symmetry. apply RN_fval, Rx.
  - destruct Rx as [Cx Nx], Ry as [Cy Ny].
    destruct (fval_finite mx ex Cx Nx) as [Vx Ex].
    destruct (fval_finite my ey Cy Ny) as [Vy Ey].
    cbn [SFsub cond_Zopp]. cbn [fval] in *.
    set (ez := Z.min ex ey).
    destruct (shl_align_spec mx ex ez ltac:(unfold ez; lia)) as [_ Sx].
    destruct (shl_align_spec my ey ez ltac:(unfold ez; lia)) as [_ Sy].
    set (a := fst (shl_align mx ex ez)) in *. set (b := fst (shl_align my ey ez)) in *.
    assert ((Zpos a - Zpos b) * 2 ^ (ez + 1074)
            = Zpos mx * 2 ^ (ex + 1074) - Zpos my * 2 ^ (ey + 1074)) as EV.
    { rewrite Sx, Sy, Z.mul_sub_distr_r.
      rewrite <- !Z.mul_assoc, <- !pow2_split by (unfold ez; lia).
      f_equal; f_equal; f_equal; lia. }
    rewrite <- EV in *.
    assert (0 < 2 ^ (ez + 1074)) as Hq by (apply pow2_gt0; unfold ez; lia).
    destruct (Zpos a - Zpos b) as [|p|p] eqn:Ed.
    + cbn [binary_normalize]. simpl. auto.
    + cbn [binary_normalize].
      apply binary_round_fval; [unfold ez; clear HV; lia|].
      destruct Hn as [Hn|Hn]; [clear HV; lia|]. split; [exact Hn|].
      hide_big. lia.
    + exfalso. clear HV. assert (Z.neg p * 2 ^ (ez + 1074) < 0) by nia. lia.
Qed.

Lemma of_int_value (z : Z) :
  0 <= z < 2 ^ 53 ->
  regular (Float64.of_int z) /\ fval (Float64.of_int z) = z * 2 ^ 1074.
Proof.
  intros Hz. unfold Float64.of_int, Float64.prec, Float64.emax, binary_normalize.
  destruct z as [|p|p]; try lia.
  - simpl. auto.
  - destruct (binary_round_fval p 0) as [R F]; [lia| |].
    + change (0 + 1074) with 1074.
      assert (2 ^ 52 <= 2 ^ 1074) by (apply pow2_le; lia).
      assert (2 ^ 53 * 2 ^ 1074 < 2 ^ 2000)
        by (rewrite <- (pow2_split 53 1074) by lia; apply pow2_lt; lia).
      hide_big. nia.
    + split; [exact R|]. rewrite F. change (0 + 1074) with 1074.
      apply RN_repr; lia.
Qed.

Lemma trunc_value (f : float) :
  regular f -> Float64.trunc f = Some (fval f / 2 ^ 1074).
Proof.
  destruct f as [s| | |[] m e]; simpl; try tauto.
  intros [(Hm & He & _) _]. f_equal.
  destruct e as [|k|k].
  - rewrite Z.shiftl_0_r. change (0 + 1074) with 1074.
    rewrite Z.div_mul; [reflexivity|apply pow2_nz; lia].
  - rewrite Z.shiftl_mul_pow2 by lia. rewrite (pow2_split (Zpos k) 1074) by lia.
    rewrite Z.mul_assoc, Z.div_mul; [reflexivity|apply pow2_nz; lia].
  - rewrite Z.shiftr_div_pow2 by lia.
    assert (2 ^ 1074 = 2 ^ Zpos k * 2 ^ (Z.neg k + 1074)) as ->.
    { rewrite <- (pow2_split (Zpos k) (Z.neg k + 1074)) by lia.
      apply (f_equal (Z.pow 2)). lia. }
    rewrite Z.div_mul_cancel_r; [reflexivity|apply pow2_nz; lia|apply pow2_nz; lia].
Qed.

Lemma to_int_value (unrep : float -> Z) (f : float) :
  regular f -> fval f / 2 ^ 1074 <= Int64.max_int ->
  Float64.to_int unrep f = fval f / 2 ^ 1074.
Proof.
  intros R H. unfold Float64.to_int. rewrite trunc_value by exact R.
  rewrite in_rangeb_true; [reflexivity|].
  unfold Int64.in_range, Int64.min_int. split; [|exact H].
  pose proof (fval_nonneg f) as Hf.
  assert (0 <= fval f / 2 ^ 1074) as Hq
    by (apply Z.div_pos; [exact Hf|apply pow2_gt0; clear; lia]).
  clear H. remember (fval f / 2 ^ 1074) as q. clear Heqq. lia.
Qed.

(** ** The percentile on integers *)

Lemma RN_le_pow (z j : Z) : 0 <= z <= 2 ^ j -> 0 <= j -> RN z <= 2 ^ j.
Proof.
  intros Hz Hj. replace (2 ^ j) with (RN (1 * 2 ^ j)).
  - apply RN_mono. lia.
  - rewrite RN_repr; lia.
Qed.

Lemma grid_split : 2 ^ 1074 = 2 ^ 53 * 2 ^ 1021.
Proof. rewrite <- (pow2_split 53 1021) by lia. reflexivity. Qed.

Lemma RN_repr_le (M j : Z) :
  0 <= M <= 2 ^ 53 -> 0 <= j -> RN (M * 2 ^ j) = M * 2 ^ j.
Proof.
  intros HM Hj. destruct (Z.eq_dec M (2 ^ 53)) as [->|].
  - rewrite <- pow2_split by lia.
    replace (2 ^ (53 + j)) with (1 * 2 ^ (53 + j)) by lia.
    apply RN_repr; lia.
  - apply RN_repr; lia.
Qed.

(** A product of two numbers given on grids whose steps multiply to
    [2^-53]. *)
Lemma mul_grid (x y : float) (a b i j : Z) :
  regular x -> regular y ->
  fval x = a * 2 ^ i -> fval y = b * 2 ^ j ->
  0 <= i -> 0 <= j -> i + j = 2095 ->
  0 <= a -> 0 <= b -> a * b <= 2 ^ 106 ->
  regular (Float64.mul x y) /\ fval (Float64.mul x y) = RN (a * b) * 2 ^ 1021.
Proof.
  intros Rx Ry Ex Ey Hi Hj Hij Ha Hb Hab.
  assert (0 <= a * b) as Hab0 by nia.
  assert (fval x * fval y = (a * b) * 2 ^ 2095) as EP.
  { rewrite Ex, Ey, <- Hij, (pow2_split i j) by lia. ring. }
  assert (0 < 2 ^ 2095) as H2095 by (apply pow2_gt0; clear; lia).
  assert (2 ^ 1200 <= 2 ^ 2095) as Hlow by (apply pow2_le; clear; lia).
  assert (2 ^ 106 * 2 ^ 2095 < 2 ^ 3000) as Hhigh
    by (rewrite <- (pow2_split 106 2095) by (clear; lia); apply pow2_lt; clear; lia).
  assert (2 ^ 2095 = 2 ^ 1021 * 2 ^ 1074) as E2
    by (rewrite <- (pow2_split 1021 1074) by (clear; lia); reflexivity).
  destruct (mul_rounds x y Rx Ry) as [R F].
  { rewrite EP. destruct (Z.eq_dec (a * b) 0) as [->|Hnz]; [left; reflexivity|right].
    clear E2 EP Ex Ey. remember (a * b) as ab. hide_big. clear - Hab Hab0 Hnz H2095 Hlow Hhigh.
    split; nia. }
  split; [exact R|].
  rewrite EP, RN_scale in F by (assumption || (clear; lia)).
  rewrite E2, Z.mul_assoc in F.
  apply Z.mul_reg_r in F; [exact F|apply pow2_nz; clear; lia].
Qed.

Lemma div_grid (r : Z) : r * 2 ^ 1021 / 2 ^ 1074 = r / 2 ^ 53.
Proof.
  rewrite grid_split.
  apply Z.div_mul_cancel_r; apply pow2_nz; lia.
Qed.

(** [calculatePercentile] on integers: the rank [r] and the weight [k] are
    counted in units of [2^-53]. *)
Ltac blia := hide_big; lia.
Ltac bnia := hide_big; nia.

Lemma calculatePercentile_model (unrep : float -> Z) (data : list Z)
    (p : float) (c : Z) :
  Float64.valid p ->
  Float64.leb (S754_zero false) p = true ->
  Float64.leb p (Float64.of_int 100) = true ->
  regular (Float64.div p (Float64.of_int 100)) ->
  fval (Float64.div p (Float64.of_int 100)) = c * 2 ^ 1021 ->
  0 <= c <= 2 ^ 53 ->
  2 <= Z.of_nat (length data) <= 2 ^ 52 ->
  Forall (fun d => 0 <= d < 2 ^ 53) data ->
  calculatePercentile unrep data p = Returned (pmodel data c).
Proof.
  intros Hv H0 H100 Rq Eq Hc Hn Hdata.
  destruct (calculatePercentile_eq unrep data p Hv H0 H100) as (lo & Hfl & Hlo & ->);
    [blia|].
  f_equal. unfold pmodel.
  set (n := Z.of_nat (length data)) in *.
  set (q := Float64.div p (Float64.of_int 100)) in *.
  assert (0 < 2 ^ 1021) as HG by (apply pow2_gt0; clear; lia).
  assert (0 < 2 ^ 1074) as HD by (apply pow2_gt0; clear; lia).
  assert (2 ^ 1074 = 2 ^ 53 * 2 ^ 1021) as ED by apply grid_split.
  assert (2 ^ 52 <= 2 ^ 1021) as HG52 by (apply pow2_le; clear; lia).
  (* the rank *)
  destruct (of_int_value (n - 1)) as [Rm Em]; [blia|].
  destruct (mul_grid q (Float64.of_int (n - 1)) c (n - 1) 1021 1074) as [Rr Er];
    auto; try blia.
  { assert (c * (n - 1) <= 2 ^ 53 * 2 ^ 53) by (apply Z.mul_le_mono_nonneg; blia).
    change (2 ^ 53 * 2 ^ 53) with (2 ^ 106) in *. blia. }
  set (rank := Float64.mul q (Float64.of_int (n - 1))) in *.
  assert (0 <= c * (n - 1) <= 2 ^ 106) as Hcm.
  { split; [bnia|].
    assert (c * (n - 1) <= 2 ^ 53 * 2 ^ 53) by (apply Z.mul_le_mono_nonneg; blia).
    change (2 ^ 53 * 2 ^ 53) with (2 ^ 106) in *. blia. }
  pose proof (RN_nonneg (c * (n - 1)) ltac:(blia)) as Hr0.
  pose proof (RN_le_pow (c * (n - 1)) 106 Hcm ltac:(blia)) as Hr1.
  set (r := RN (c * (n - 1))) in *.
  assert (lo = r / 2 ^ 53) as Elo.
  { rewrite floor_trunc in Hfl by (apply regular_nonneg, Rr).
    rewrite trunc_value in Hfl by exact Rr.
    injection Hfl as <-. rewrite Er. apply div_grid. }
  rewrite <- Elo.
  destruct (lo + 1 >=? n) eqn:Eu; [reflexivity|].
  assert (lo + 1 < n) as Hlt by (rewrite Z.geb_leb in Eu; apply Z.leb_gt in Eu; blia).
  pose proof (Z.div_mod r (2 ^ 53) ltac:(blia)) as DM.
  pose proof (Z.mod_pos_bound r (2 ^ 53) ltac:(blia)) as MB.
  rewrite <- Elo in DM.
  set (k := r mod 2 ^ 53) in *.
  (* the weight *)
  destruct (of_int_value lo) as [Rl El]; [blia|].
  destruct (sub_rounds rank (Float64.of_int lo)) as [Rw Ew]; auto.
  { rewrite Er, El, ED. bnia. }
  { rewrite Er. assert (2 ^ 106 * 2 ^ 1021 < 2 ^ 2000)
      by (rewrite <- (pow2_split 106 1021) by (clear; lia); apply pow2_lt; clear; lia).
    bnia. }
  { assert (fval rank - fval (Float64.of_int lo) = k * 2 ^ 1021) as ->
      by (rewrite Er, El, ED; blia).
    destruct (Z.eq_dec k 0) as [->|]; [left; reflexivity|right]. bnia. }
  assert (fval (Float64.sub rank (Float64.of_int lo)) = k * 2 ^ 1021) as Ew'.
  { rewrite Ew. assert (fval rank - fval (Float64.of_int lo) = k * 2 ^ 1021) as ->
      by (rewrite Er, El, ED; blia).
    apply RN_repr; blia. }
  clear Ew. set (weight := Float64.sub rank (Float64.of_int lo)) in *.
  (* one minus the weight *)
  destruct (of_int_value 1) as [R1 E1]; [blia|].
  assert (fval weight <= fval (Float64.of_int 1)) as S1
    by (rewrite E1, Ew', ED; bnia).
  assert (fval (Float64.of_int 1) < 2 ^ 2000) as S2.
  { rewrite E1. assert (2 ^ 1074 < 2 ^ 2000) by (apply pow2_lt; clear; lia). blia. }
  assert (fval (Float64.of_int 1) - fval weight = 0 \/
          2 ^ 52 <= fval (Float64.of_int 1) - fval weight) as S3.
  { right. rewrite E1, Ew', ED. bnia. }
  destruct (sub_rounds (Float64.of_int 1) weight R1 Rw S1 S2 S3) as [Ro Eo].
  assert (fval (Float64.sub (Float64.of_int 1) weight) = (2 ^ 53 - k) * 2 ^ 1021) as Eo'.
  { rewrite Eo. assert (fval (Float64.of_int 1) - fval weight = (2 ^ 53 - k) * 2 ^ 1021) as ->
      by (rewrite E1, Ew', ED; blia).
    apply RN_repr_le; blia. }
  clear Eo. set (omw := Float64.sub (Float64.of_int 1) weight) in *.
  (* the two samples *)
  assert (forall i, 0 <= i < n -> 0 <= nth (Z.to_nat i) data 0 < 2 ^ 53) as Hnth.
  { intros i Hi. rewrite List.Forall_forall in Hdata. apply Hdata.
    apply nth_In. unfold n in Hi. blia. }
  pose proof (Hnth lo ltac:(blia)) as HA. pose proof (Hnth (lo + 1) ltac:(blia)) as HB.
  set (A := nth (Z.to_nat lo) data 0) in *.
  set (B := nth (Z.to_nat (lo + 1)) data 0) in *.
  destruct (of_int_value A HA) as [RA EA]. destruct (of_int_value B HB) as [RB EB].
  assert (forall a b, 0 <= a < 2 ^ 53 -> 0 <= b <= 2 ^ 53 ->
                      0 <= a * b <= 2 ^ 106) as Hprod.
  { intros a b Ha Hb. split; [bnia|].
    assert (a * b <= 2 ^ 53 * 2 ^ 53) by (apply Z.mul_le_mono_nonneg; blia).
    change (2 ^ 53 * 2 ^ 53) with (2 ^ 106) in *. blia. }
  pose proof (Hprod A (2 ^ 53 - k) HA ltac:(blia)) as PA.
  pose proof (Hprod B k HB ltac:(blia)) as PB.
  destruct (mul_grid (Float64.of_int A) omw A (2 ^ 53 - k) 1074 1021) as [Ru Eu'];
    auto; try blia.
  destruct (mul_grid (Float64.of_int B) weight B k 1074 1021) as [Rv Ev];
    auto; try blia.
  pose proof (RN_nonneg (A * (2 ^ 53 - k)) ltac:(blia)) as Hu0.
  pose proof (RN_le_pow (A * (2 ^ 53 - k)) 106 PA ltac:(blia)) as Hu1.
  pose proof (RN_nonneg (B * k) ltac:(blia)) as Hv0.
  pose proof (RN_le_pow (B * k) 106 PB ltac:(blia)) as Hv1.
  set (u := RN (A * (2 ^ 53 - k))) in *. set (v := RN (B * k)) in *.
  destruct (add_rounds (Float64.mul (Float64.of_int A) omw)
                     (Float64.mul (Float64.of_int B) weight)) as [Rs Es]; auto.
  { rewrite Eu', Ev.
    assert (2 ^ 107 * 2 ^ 1021 < 2 ^ 2000)
      by (rewrite <- (pow2_split 107 1021) by (clear; lia); apply pow2_lt; clear; lia).
    change (2 ^ 107) with (2 ^ 106 + 2 ^ 106) in *. bnia. }
  rewrite Eu', Ev, <- Z.mul_add_distr_r, RN_scale in Es by blia.
  pose proof (RN_le_pow (u + v) 107 ltac:(change (2 ^ 107) with (2 ^ 106 + 2 ^ 106); blia)
                ltac:(blia)) as Hs1.
  pose proof (RN_nonneg (u + v) ltac:(blia)) as Hs0.
  rewrite to_int_value; [|exact Rs|].
  - rewrite Es. unfold interp. fold u v. apply div_grid.
  - rewrite Es, div_grid.
    assert (RN (u + v) / 2 ^ 53 <= 2 ^ 107 / 2 ^ 53) by (apply Z.div_le_mono; blia).
    change (2 ^ 107 / 2 ^ 53) with (2 ^ 54) in *.
    unfold Int64.max_int. blia.
Qed.

(** An interpolation stays between the two samples. *)
Lemma interp_between (A B k : Z) :
  0 <= A <= B -> B < 2 ^ 52 -> 0 <= k <= 2 ^ 53 ->
  A <= interp A B k <= B.
Proof.
  intros HAB HB Hk. unfold interp.
  pose proof (interpolation_exact A k ltac:(lia) Hk) as EA.
  pose proof (interpolation_exact B k ltac:(lia) Hk) as EB.
  assert (0 <= A * k <= B * k) as H1 by nia.
  assert (0 <= A * (2 ^ 53 - k) <= B * (2 ^ 53 - k)) as H2 by nia.
  pose proof (RN_mono _ _ H1) as M1. pose proof (RN_mono _ _ H2) as M2.
  pose proof (RN_nonneg (A * k) ltac:(lia)).
  pose proof (RN_nonneg (A * (2 ^ 53 - k)) ltac:(lia)).
  set (S := RN (A * (2 ^ 53 - k)) + RN (B * k)) in *.
  assert (A * 2 ^ 53 <= RN S) as L.
  { rewrite <- EA. apply RN_mono. unfold S. lia. }
  assert (RN S <= B * 2 ^ 53) as U.
  { rewrite <- EB. apply RN_mono. unfold S. lia. }
  split.
  - apply Z.div_le_lower_bound; lia.
  - apply Z.div_le_upper_bound; lia.
Qed.

(** A heavier weight on the larger sample does not lower the result. *)
Lemma interp_mono (A B k k' : Z) :
  0 <= A < B -> B <= 2 ^ 46 -> 0 <= k -> k + 2 ^ 47 <= k' -> k' <= 2 ^ 53 ->
  interp A B k <= interp A B k'.
Proof.
  intros HAB HB Hk Hkk Hk'. unfold interp.
  apply Z.div_le_mono; [lia|]. apply RN_mono.
  assert (forall j, 0 <= j <= 2 ^ 53 ->
            0 <= A * (2 ^ 53 - j) /\ 0 <= B * j /\
            A * (2 ^ 53 - j) + B * j = A * 2 ^ 53 + (B - A) * j /\
            A * (2 ^ 53 - j) + B * j <= B * 2 ^ 53) as Hz.
  { intros j Hj. repeat split; nia. }
  destruct (Hz k ltac:(lia)) as (Z1 & Z2 & Z3 & Z4).
  destruct (Hz k' ltac:(lia)) as (Z1' & Z2' & Z3' & Z4').
  pose proof (RN_err _ Z1) as E1. pose proof (RN_err _ Z2) as E2.
  pose proof (RN_err _ Z1') as E1'. pose proof (RN_err _ Z2') as E2'.
  pose proof (RN_nonneg _ Z1). pose proof (RN_nonneg _ Z2).
  assert ((B - A) * k + 2 ^ 47 <= (B - A) * k') as Hgap.
  { assert (1 * 2 ^ 47 <= (B - A) * (k' - k)) by (apply Z.mul_le_mono_nonneg; lia).
    replace ((B - A) * k') with ((B - A) * k + (B - A) * (k' - k)) by ring. lia. }
  remember (A * (2 ^ 53 - k)) as z1. remember (B * k) as z2.
  remember (A * (2 ^ 53 - k')) as z1'. remember (B * k') as z2'.
  remember ((B - A) * k) as g. remember ((B - A) * k') as g'.
  remember (RN z1) as u1. remember (RN z2) as u2.
  remember (RN z1') as u1'. remember (RN z2') as u2'.
  clear - E1 E2 E1' E2' Z1 Z2 Z1' Z2' Z3 Z3' Z4 Z4' Hgap HB H H0.
  split; [lia|].
  assert (2 ^ 53 * (u1 + u2 - (z1 + z2)) <= 2 ^ 53 * B) by lia.
  assert (2 ^ 53 * (z1' + z2' - (u1' + u2')) <= 2 ^ 53 * B) by lia.
  lia.
Qed.

Lemma sorted_nth (l : list Z) :
  StronglySorted Z.le l ->
  forall i j : nat, (i <= j < length l)%nat -> nth i l 0 <= nth j l 0.
Proof.
  induction 1 as [|x l Hs IH Hx]; intros i j Hij; [simpl in Hij; lia|].
  destruct i as [|i], j as [|j]; cbn [nth length] in *; try lia.
  - rewrite List.Forall_forall in Hx. apply Hx, nth_In. lia.
  - apply IH. lia.
Qed.

(** The percentile grows with the rank, when the ranks are at least
    [2^-6] apart. *)
Lemma pmodel_mono (data : list Z) (c c' : Z) :
  StronglySorted Z.le data ->
  Forall (fun d => 0 <= d <= 2 ^ 46) data ->
  2 <= Z.of_nat (length data) ->
  0 <= RN (c * (Z.of_nat (length data) - 1)) ->
  RN (c * (Z.of_nat (length data) - 1)) + 2 ^ 47
  <= RN (c' * (Z.of_nat (length data) - 1)) ->
  pmodel data c <= pmodel data c'.
Proof.
  intros Hs Hd Hn Hr Hrr. unfold pmodel.
  set (n := Z.of_nat (length data)) in *.
  set (r := RN (c * (n - 1))) in *. set (r' := RN (c' * (n - 1))) in *.
  pose proof (Z.div_mod r (2 ^ 53) ltac:(lia)) as DM.
  pose proof (Z.mod_pos_bound r (2 ^ 53) ltac:(lia)) as MB.
  pose proof (Z.div_mod r' (2 ^ 53) ltac:(lia)) as DM'.
  pose proof (Z.mod_pos_bound r' (2 ^ 53) ltac:(lia)) as MB'.
  assert (0 <= r / 2 ^ 53) as Hlo by (apply Z.div_pos; lia).
  assert (r / 2 ^ 53 <= r' / 2 ^ 53) as Hlolo by (apply Z.div_le_mono; lia).
  set (lo := r / 2 ^ 53) in *. set (lo' := r' / 2 ^ 53) in *.
  set (k := r mod 2 ^ 53) in *. set (k' := r' mod 2 ^ 53) in *.
  assert (forall i, 0 <= i < n -> 0 <= nth (Z.to_nat i) data 0 <= 2 ^ 46) as Hnth.
  { intros i Hi. rewrite List.Forall_forall in Hd. apply Hd, nth_In. unfold n in Hi. lia. }
  assert (forall i j, 0 <= i <= j -> j < n ->
            nth (Z.to_nat i) data 0 <= nth (Z.to_nat j) data 0) as Hmono.
  { intros i j Hij Hj. apply sorted_nth; [exact Hs|]. unfold n in Hj. lia. }
  assert (forall i j, 0 <= i -> i + 1 < n -> 0 <= j <= 2 ^ 53 ->
            nth (Z.to_nat i) data 0
            <= interp (nth (Z.to_nat i) data 0) (nth (Z.to_nat (i + 1)) data 0) j
            <= nth (Z.to_nat (i + 1)) data 0) as Hbetween.
  { intros i j Hi Hi1 Hj. apply interp_between; [|  |exact Hj].
    - split; [apply Hnth; lia|apply Hmono; lia].
    - pose proof (Hnth (i + 1) ltac:(lia)). lia. }
  destruct (lo' + 1 >=? n) eqn:Eu'.
  - destruct (lo + 1 >=? n) eqn:Eu; [lia|].
    assert (lo + 1 < n) by (rewrite Z.geb_leb in Eu; apply Z.leb_gt in Eu; lia).
    pose proof (Hbetween lo k ltac:(lia) ltac:(lia) ltac:(lia)).
    pose proof (Hmono (lo + 1) (n - 1) ltac:(lia) ltac:(lia)). lia.
  - assert (lo' + 1 < n) by (rewrite Z.geb_leb in Eu'; apply Z.leb_gt in Eu'; lia).
    destruct (lo + 1 >=? n) eqn:Eu.
    { rewrite Z.geb_leb in Eu; apply Z.leb_le in Eu; lia. }
    destruct (Z.eq_dec lo lo') as [Elo|Nlo].
    + rewrite <- Elo in *.
      pose proof (Hbetween lo k ltac:(lia) ltac:(lia) ltac:(lia)) as Bk.
      pose proof (Hbetween lo k' ltac:(lia) ltac:(lia) ltac:(lia)) as Bk'.
      pose proof (Hnth lo ltac:(lia)). pose proof (Hnth (lo + 1) ltac:(lia)).
      set (A := nth (Z.to_nat lo) data 0) in *.
      set (B := nth (Z.to_nat (lo + 1)) data 0) in *.
      destruct (Z.eq_dec A B) as [EAB|NAB]; [lia|].
      apply interp_mono; lia.
    + pose proof (Hbetween lo k ltac:(lia) ltac:(lia) ltac:(lia)) as Bk.
      pose proof (Hbetween lo' k' ltac:(lia) ltac:(lia) ltac:(lia)) as Bk'.
      pose proof (Hmono (lo + 1) lo' ltac:(lia) ltac:(lia)). lia.
Qed.

Lemma RN_close (z : Z) :
  0 <= z -> 2 ^ 53 * z <= 2 ^ 53 * RN z + z /\ 2 ^ 53 * RN z <= 2 ^ 53 * z + z.
Proof. intros Hz. pose proof (RN_err z Hz). lia. Qed.

(** The ranks of the four percentiles, in units of [2^-53], over
    [m + 1] samples. *)
Lemma rank_gaps (m : Z) :
  1 <= m < 2 ^ 51 ->
  0 <= RN (c25 * m) /\
  RN (c25 * m) + 2 ^ 47 <= RN (c75 * m) /\
  RN (c75 * m) + 2 ^ 47 <= RN (c95 * m) /\
  RN (c95 * m) + 2 ^ 47 <= RN (c99 * m).
Proof.
  intros Hm.
  assert (RN (c25 * m) = m * 2 ^ 51) as E25.
  { unfold c25. rewrite Z.mul_comm. apply RN_repr; lia. }
  assert (RN (c75 * m) = (3 * m) * 2 ^ 51) as E75.
  { unfold c75. replace (3 * 2 ^ 51 * m) with ((3 * m) * 2 ^ 51) by ring.
    apply RN_repr; lia. }
  pose proof (RN_close (c95 * m) ltac:(unfold c95; lia)) as [L95 U95].
  pose proof (RN_close (c99 * m) ltac:(unfold c99; lia)) as [L99 U99].
  rewrite E25, E75. unfold c95, c99 in *.
  remember (RN (8556839292003942 * m)) as r95.
  remember (RN (8917127262193582 * m)) as r99.
  clear - Hm L95 U95 L99 U99.
  repeat split; lia.
Qed.


(** ** The statistics reducer on lists *)

Lemma calculatePercentile_returns (unrep : float -> Z) (data : list Z) (p : float) :
  Float64.valid p ->
  Float64.leb (S754_zero false) p = true ->
  Float64.leb p (Float64.of_int 100) = true ->
  Z.of_nat (length data) <= 2 ^ 62 ->
  exists v, calculatePercentile unrep data p = Returned v.
Proof.
  intros Hv H0 H100 Hn.
  destruct (Z_lt_le_dec (Z.of_nat (length data)) 2) as [Hs|Hl].
  - unfold calculatePercentile.
    destruct (Z.of_nat (length data) =? 0) eqn:E0; [eauto|].
    destruct (Z.of_nat (length data) =? 1) eqn:E1.
    + rewrite index_in_range by lia. eauto.
    + apply Z.eqb_neq in E0, E1. lia.
  - destruct (calculatePercentile_eq unrep data p Hv H0 H100) as (lo & _ & _ & ->);
      [lia|eauto].
Qed.

Lemma calculateMean_returns (data : list Z) :
  data <> [] ->
  calculateMean data =
  Returned (Int64.quot (fold_left Int64.add data 0) (Z.of_nat (length data))).
Proof.
  intros H. unfold calculateMean.
  destruct (Z.of_nat (length data) =? 0) eqn:E; [|reflexivity].
  apply Z.eqb_eq in E. destruct data; [congruence|simpl in E; lia].
Qed.

(** ** Slices and the heap *)

Lemma make_returns (h : Slices.heap) (n c : Z) :
  0 <= n <= c ->
  Slices.make h n c =
  Returned (h ++ [replicate (Z.to_nat c) 0],
            Slices.Slice (length h) (Z.to_nat n) (Z.to_nat c)).
Proof.
  intros H. unfold Slices.make.
  destruct (n <? 0) eqn:E1; [apply Z.ltb_lt in E1; lia|].
  destruct (c <? n) eqn:E2; [apply Z.ltb_lt in E2; lia|]. reflexivity.
Qed.

Lemma array_app_old (h : Slices.heap) (a : list Z) (s : Slices.slice) :
  (Slices.ptr s < length h)%nat ->
  Slices.array (h ++ [a]) s = Slices.array h s.
Proof. intros H. unfold Slices.array. rewrite lookup_app_l by exact H. reflexivity. Qed.

Lemma insert_last (h : Slices.heap) (a b : list Z) :
  <[length h := b]> (h ++ [a]) = h ++ [b].
Proof.
  rewrite insert_app_r_alt by lia. rewrite Nat.sub_diag. reflexivity.
Qed.

Lemma array_last (h : Slices.heap) (a : list Z) (n c : nat) :
  Slices.array (h ++ [a]) (Slices.Slice (length h) n c) = a.
Proof.
  unfold Slices.array. cbn [Slices.ptr].
  rewrite lookup_app_r by lia. rewrite Nat.sub_diag. reflexivity.
Qed.

(** [calculateStats] allocates one array, that of [sorted], and writes
    nowhere else. *)
Lemma calculateStats_heap (unrep : float -> Z) (h : Slices.heap) (cost : Z)
    (durations : Slices.slice) :
  exists a, fst (calculateStats unrep h cost durations) = h ++ [a].
Proof.
  unfold calculateStats.
  rewrite make_returns by lia.
  unfold Slices.sort, Slices.copy. cbn [Slices.ptr fst].
  rewrite insert_last, insert_last. eauto.
Qed.

Lemma calculateStats_result (unrep : float -> Z) (h : Slices.heap) (cost : Z)
    (durations : Slices.slice) (r : CostResult.t) :
  snd (calculateStats unrep h cost durations) = Returned r ->
  CostResult.Cost r = cost /\
  CostResult.Durations r = durations /\
  CostResult.Iterations r = Z.of_nat (Slices.len durations).
Proof.
  unfold calculateStats. rewrite make_returns by lia. cbn [snd].
  match goal with |- context [calculateMean ?d] => set (data := d) end.
  clearbody data.
  destruct (calculateMean data) as [mean| | |]; try discriminate; cbn [mbind outcome_bind].
  destruct (calculatePercentile unrep data (Float64.of_int 25)); try discriminate; cbn [mbind outcome_bind].
  destruct (calculatePercentile unrep data (Float64.of_int 75)); try discriminate; cbn [mbind outcome_bind].
  destruct (calculatePercentile unrep data (Float64.of_int 95)); try discriminate; cbn [mbind outcome_bind].
  destruct (calculatePercentile unrep data (Float64.of_int 99)); try discriminate; cbn [mbind outcome_bind].
  intros [= E]. rewrite <- E. cbn. auto.
Qed.

(** A slice whose elements are all inside its backing array. *)
Lemma calculateStats_sorted (unrep : float -> Z) (h : Slices.heap) (cost : Z)
    (durations : Slices.slice) :
  (Slices.ptr durations < length h)%nat ->
  (Slices.len durations <= length (Slices.array h durations))%nat ->
  let data := merge_sort Z.le (Slices.elems h durations) in
  calculateStats unrep h cost durations =
  (h ++ [data],
   mean ← calculateMean data;
   p25 ← calculatePercentile unrep data (Float64.of_int 25);
   p75 ← calculatePercentile unrep data (Float64.of_int 75);
   p95 ← calculatePercentile unrep data (Float64.of_int 95);
   p99 ← calculatePercentile unrep data (Float64.of_int 99);
   Returned
     {| CostResult.Cost := cost;
        CostResult.Durations := durations;
        CostResult.Mean := mean;
        CostResult.StdDev := calculateStdDev unrep data mean;
        CostResult.P25 := p25;
        CostResult.P75 := p75;
        CostResult.P95 := p95;
        CostResult.P99 := p99;
        CostResult.Iterations := Z.of_nat (Slices.len durations) |}).
Proof.
  intros Hp Hl data. unfold calculateStats.
  rewrite make_returns by lia. rewrite Nat2Z.id.
  set (n := Slices.len durations) in *.
  set (sorted := Slices.Slice (length h) n n).
  assert (length (Slices.elems h durations) = n) as Hlen.
  { unfold Slices.elems. fold n. rewrite length_take. lia. }
  assert (Slices.copy (h ++ [replicate n 0]) sorted durations
          = h ++ [Slices.elems h durations]) as ->.
  { unfold Slices.copy. cbn [Slices.ptr Slices.len sorted]. fold n.
    rewrite Nat.min_id.
    unfold Slices.elems at 1. rewrite array_app_old by exact Hp.
    fold n. fold (Slices.elems h durations).
    unfold sorted. rewrite array_last.
    rewrite insert_last. f_equal. f_equal.
    change (take n (Slices.array h durations)) with (Slices.elems h durations).
    rewrite take_ge by lia. rewrite drop_ge by (rewrite length_replicate; lia).
    apply app_nil_r. }
  assert (Slices.sort (h ++ [Slices.elems h durations]) sorted = h ++ [data]) as ->.
  { unfold Slices.sort, Slices.elems at 1. cbn [Slices.ptr Slices.len sorted].
    unfold sorted. rewrite array_last. rewrite insert_last. f_equal. f_equal.
    rewrite take_ge by lia. rewrite drop_ge by lia. apply app_nil_r. }
  assert (Slices.elems (h ++ [data]) sorted = data) as ->.
  { unfold Slices.elems, sorted. rewrite array_last. cbn [Slices.len].
    apply take_ge. unfold data.
    rewrite (Permutation_length (merge_sort_Permutation Z.le _)). lia. }
  reflexivity.
Qed.

Lemma percentile_constant (c : Z) :
  In c [25; 75; 95; 99] ->
  Float64.valid (Float64.of_int c) /\
  Float64.leb (S754_zero false) (Float64.of_int c) = true /\
  Float64.leb (Float64.of_int c) (Float64.of_int 100) = true.
Proof.
  intros [<-|[<-|[<-|[<-|[]]]]]; repeat split; vm_compute; reflexivity.
Qed.

Lemma calculateStats_returns (unrep : float -> Z) (h : Slices.heap) (cost : Z)
    (durations : Slices.slice) :
  (Slices.ptr durations < length h)%nat ->
  (Slices.len durations <= length (Slices.array h durations))%nat ->
  1 <= Z.of_nat (Slices.len durations) <= 2 ^ 62 ->
  exists r,
    calculateStats unrep h cost durations =
    (h ++ [merge_sort Z.le (Slices.elems h durations)], Returned r).
Proof.
  intros Hp Hl Hn. rewrite calculateStats_sorted by assumption.
  set (data := merge_sort Z.le (Slices.elems h durations)).
  assert (length data = Slices.len durations) as Hlen.
  { unfold data. rewrite (Permutation_length (merge_sort_Permutation Z.le _)).
    unfold Slices.elems. rewrite length_take. lia. }
  rewrite calculateMean_returns by (intros E; rewrite E in Hlen; simpl in Hlen; lia).
  cbn [mbind outcome_bind].
  assert (forall c, In c [25; 75; 95; 99] ->
            exists v, calculatePercentile unrep data (Float64.of_int c) = Returned v)
    as Hpc.
  { intros c Hc. destruct (percentile_constant c Hc) as (? & ? & ?).
    apply calculatePercentile_returns; auto. lia. }
  destruct (Hpc 25) as [p25 ->]; [simpl; auto|].
  destruct (Hpc 75) as [p75 ->]; [simpl; auto|].
  destruct (Hpc 95) as [p95 ->]; [simpl; auto|].
  destruct (Hpc 99) as [p99 ->]; [simpl; auto 6|].
  cbn [mbind outcome_bind]. eauto.
Qed.

(** ** The loops of the sweep *)

Lemma spinner_step (idx : Z) :
  0 <= idx < 10 ->
  let idx' := Z.rem (Int64.add idx 1) (Z.of_nat (length spinnerFrames)) in
  0 <= idx' < 10 /\
  (0 <=? idx') && (idx' <? Z.of_nat (length spinnerFrames)) = true.
Proof.
  intros H idx'. unfold idx'.
  assert (Int64.add idx 1 = idx + 1) as ->.
  { apply wrap_in_range. unfold Int64.in_range, Int64.min_int, Int64.max_int. lia. }
  change (Z.of_nat (length spinnerFrames)) with 10.
  pose proof (Z.rem_bound_pos (idx + 1) 10 ltac:(lia) ltac:(lia)) as B.
  split; [lia|]. apply andb_true_iff. split; [apply Z.leb_le|apply Z.ltb_lt]; lia.
Qed.

Lemma add_one (z : Z) :
  Int64.min_int <= z < Int64.max_int -> Int64.add z 1 = z + 1.
Proof.
  intros H. apply wrap_in_range.
  unfold Int64.in_range, Int64.min_int, Int64.max_int in *. lia.
Qed.

(** The inner loop runs to its end when every invocation succeeds: the
    samples are appended in place, one per iteration. *)
Lemma iterations_loop_ok (hash : primitive) (cfg : Config.t)
    (pw : list Byte.byte) (cost : Z) (R : nat) :
  forall (fuel : nat) (iter idx : Z) (s : Slices.slice) (w : world),
    (R < fuel)%nat ->
    Config.Iterations cfg < Int64.max_int ->
    1 <= iter -> iter + Z.of_nat R = Config.Iterations cfg + 1 ->
    0 <= idx < 10 ->
    (Slices.ptr s < length (heap w))%nat ->
    Slices.len s = Z.to_nat (iter - 1) ->
    Slices.cap s = Z.to_nat (Config.Iterations cfg) ->
    length (Slices.array (heap w) s) = Z.to_nat (Config.Iterations cfg) ->
    (forall j, (invocations w <= j < invocations w + R)%nat ->
               exists d, hash j pw cost = HashOk d) ->
    exists idx' w',
      iterations_loop hash cfg pw fuel cost iter idx s w =
      (w', Returned (idx',
                     Slices.Slice (Slices.ptr s)
                       (Z.to_nat (Config.Iterations cfg)) (Slices.cap s))) /\
      0 <= idx' < 10 /\
      invocations w' = (invocations w + R)%nat /\
      length (heap w') = length (heap w) /\
      (forall l, l <> Slices.ptr s -> heap w' !! l = heap w !! l) /\
      length (default [] (heap w' !! Slices.ptr s)) =
      Z.to_nat (Config.Iterations cfg).
Proof.
  induction R as [|R IH]; intros fuel iter idx s w Hf HI Hi HR Hx Hp Hl Hc Ha Hok;
    (destruct fuel as [|fuel]; [lia|]); cbn [iterations_loop].
  - replace (iter <=? Config.Iterations cfg) with false
      by (symmetry; apply Z.leb_gt; lia).
    exists idx, w. destruct s as [p n c]. cbn [Slices.ptr Slices.len Slices.cap] in *.
    subst n. replace (iter - 1) with (Config.Iterations cfg) by lia.
    repeat split; auto; lia.
  - replace (iter <=? Config.Iterations cfg) with true
      by (symmetry; apply Z.leb_le; lia).
    destruct (spinner_step idx Hx) as [Hx' ->].
    set (idx' := Z.rem (Int64.add idx 1) (Z.of_nat (length spinnerFrames))) in *.
    cbn [print invocations].
    destruct (Hok (invocations w) ltac:(lia)) as [d ->].
    cbn [heap].
    unfold Slices.append.
    replace (Slices.len s <? Slices.cap s)%nat with true
      by (symmetry; apply Nat.ltb_lt; lia).
    rewrite add_one by (unfold Int64.min_int; lia).
    match goal with
    | |- context [iterations_loop _ _ _ _ _ _ _ ?s0 ?w0] =>
        set (s2 := s0); set (w2 := w0)
    end.
    assert (heap w2 = <[Slices.ptr s := <[Slices.len s := d]>
                          (Slices.array (heap w) s)]> (heap w)) as Hh2 by reflexivity.
    assert (invocations w2 = S (invocations w)) as Hn2 by reflexivity.
    assert (Slices.ptr s2 = Slices.ptr s /\ Slices.len s2 = S (Slices.len s) /\
            Slices.cap s2 = Slices.cap s) as (Hp2 & Hl2 & Hc2) by (repeat split).
    clearbody s2 w2.
    assert (Slices.ptr s2 < length (heap w2))%nat as A1
      by (rewrite Hh2, Hp2, length_insert; exact Hp).
    assert (length (Slices.array (heap w2) s2) = Z.to_nat (Config.Iterations cfg))
      as A2.
    { unfold Slices.array. rewrite Hh2, Hp2.
      rewrite list_lookup_insert_eq by exact Hp. cbn [default from_option id].
      rewrite length_insert. exact Ha. }
    assert (forall j, (invocations w2 <= j < invocations w2 + R)%nat ->
                      exists d, hash j pw cost = HashOk d) as A3
      by (intros j Hj; apply Hok; lia).
    destruct (IH fuel (iter + 1) idx' s2 w2 ltac:(lia) HI ltac:(lia) ltac:(lia)
                Hx' A1 ltac:(lia) ltac:(lia) A2 A3)
      as (idx2 & w' & E & Hx2 & Hn & Hh & Hfr & Har).
    exists idx2, w'. rewrite Hp2, Hc2 in E. split; [exact E|].
    rewrite Hh2, length_insert in Hh. rewrite Hp2 in Hfr, Har.
    repeat split; auto; try lia.
    intros l Hne. rewrite Hfr by exact Hne. rewrite Hh2.
    apply list_lookup_insert_ne. auto.
Qed.

(** The inner loop stops at the first invocation that fails: [log.Fatalf]
    exits, and nothing is invoked after it. *)
Lemma iterations_loop_fatal (hash : primitive) (cfg : Config.t)
    (pw : list Byte.byte) (cost : Z) (err : string) (t : nat) :
  forall (fuel : nat) (iter idx : Z) (s : Slices.slice) (w : world),
    (t < fuel)%nat ->
    Config.Iterations cfg < Int64.max_int ->
    1 <= iter -> iter + Z.of_nat t <= Config.Iterations cfg ->
    0 <= idx < 10 ->
    (forall j, (invocations w <= j < invocations w + t)%nat ->
               exists d, hash j pw cost = HashOk d) ->
    hash (invocations w + t)%nat pw cost = HashErr err ->
    exists w',
      iterations_loop hash cfg pw fuel cost iter idx s w =
      (w', Fatal (fatal_message err)) /\
      invocations w' = S (invocations w + t).
Proof.
  induction t as [|t IH]; intros fuel iter idx s w Hf HI Hi Ht Hx Hok Herr;
    (destruct fuel as [|fuel]; [lia|]); cbn [iterations_loop];
    (replace (iter <=? Config.Iterations cfg) with true
      by (symmetry; apply Z.leb_le; lia));
    destruct (spinner_step idx Hx) as [Hx' ->];
    set (idx' := Z.rem (Int64.add idx 1) (Z.of_nat (length spinnerFrames))) in *;
    cbn [print invocations].
  - rewrite Nat.add_0_r in Herr. rewrite Herr.
    eexists. split; [reflexivity|]. cbn. lia.
  - destruct (Hok (invocations w) ltac:(lia)) as [d ->].
    cbn [heap].
    match goal with
    | |- context [Slices.append ?h0 ?s0 ?d0] =>
        destruct (Slices.append h0 s0 d0) as [h2 s2]
    end.
    rewrite add_one by (unfold Int64.min_int; lia).
    match goal with
    | |- context [iterations_loop _ _ _ _ _ _ _ _ ?w0] => set (w2 := w0)
    end.
    assert (invocations w2 = S (invocations w)) as Hn2 by reflexivity.
    clearbody w2.
    assert (forall j, (invocations w2 <= j < invocations w2 + t)%nat ->
                      exists d, hash j pw cost = HashOk d) as A3
      by (intros j Hj; apply Hok; lia).
    assert (hash (invocations w2 + t)%nat pw cost = HashErr err) as A4.
    { rewrite Hn2.
      replace (S (invocations w) + t)%nat with (invocations w + S t)%nat by lia.
      exact Herr. }
    destruct (IH fuel (iter + 1) idx' s2 w2 ltac:(lia) HI ltac:(lia) ltac:(lia)
                Hx' A3 A4) as (w' & E & Hn).
    exists w'. split; [exact E|]. lia.
Qed.

Lemma seqZ_step (m : Z) (L : nat) :
  seqZ m (Z.of_nat (S L)) = m :: seqZ (m + 1) (Z.of_nat L).
Proof.
  rewrite seqZ_cons by lia. f_equal. f_equal; lia.
Qed.

Lemma seqZ_ascending (m : Z) (L : nat) : StronglySorted Z.lt (seqZ m (Z.of_nat L)).
Proof.
  revert m. induction L as [|L IH]; intros m.
  - rewrite seqZ_nil by lia. constructor.
  - rewrite seqZ_step. constructor; [apply IH|].
    apply Forall_seqZ. intros. lia.
Qed.

(** One cost level with every invocation successful: the inner loop fills
    the slice and [calculateStats] reduces it. *)
Lemma level_ok (unrep : float -> Z) (hash : primitive) (cfg : Config.t)
    (pw : list Byte.byte) (fuel : nat) (cost idx : Z) (w : world) :
  (Z.to_nat (Config.Iterations cfg) < fuel)%nat ->
  1 <= Config.Iterations cfg <= 2 ^ 62 ->
  0 <= idx < 10 ->
  (forall j, (invocations w <= j < invocations w + Z.to_nat (Config.Iterations cfg))%nat ->
             exists d, hash j pw cost = HashOk d) ->
  exists h durations idx' w' r h',
    Slices.make (heap w) 0 (Config.Iterations cfg) = Returned (h, durations) /\
    iterations_loop hash cfg pw fuel cost 1 idx durations (with_heap w h) =
    (w', Returned (idx', Slices.Slice (Slices.ptr durations)
                           (Z.to_nat (Config.Iterations cfg))
                           (Slices.cap durations))) /\
    calculateStats unrep (heap w') cost
      (Slices.Slice (Slices.ptr durations) (Z.to_nat (Config.Iterations cfg))
         (Slices.cap durations)) = (h', Returned r) /\
    0 <= idx' < 10 /\
    invocations w' = (invocations w + Z.to_nat (Config.Iterations cfg))%nat /\
    CostResult.Cost r = cost /\
    CostResult.Iterations r = Config.Iterations cfg /\
    Slices.len (CostResult.Durations r) = Z.to_nat (Config.Iterations cfg).
Proof.
  intros Hf HI Hx Hok.
  set (I := Config.Iterations cfg) in *.
  pose proof (make_returns (heap w) 0 I ltac:(lia)) as Em.
  set (h := heap w ++ [replicate (Z.to_nat I) 0]) in *.
  set (s := Slices.Slice (length (heap w)) (Z.to_nat 0) (Z.to_nat I)) in *.
  assert (I < Int64.max_int) as A0 by (unfold Int64.max_int; lia).
  assert (Slices.ptr s < length (heap (with_heap w h)))%nat as A1.
  { unfold h. cbn [with_heap heap s Slices.ptr]. rewrite length_app. cbn. lia. }
  assert (length (Slices.array (heap (with_heap w h)) s) = Z.to_nat I) as A2.
  { unfold h, s. cbn [with_heap heap]. rewrite array_last, length_replicate.
    reflexivity. }
  destruct (iterations_loop_ok hash cfg pw cost (Z.to_nat I) fuel 1 idx s
              (with_heap w h) Hf A0 ltac:(lia) ltac:(fold I; lia) Hx A1
              eq_refl eq_refl A2 Hok)
    as (idx' & w' & El & Hx' & Hn & Hh & Hfr & Har).
  fold I in El, Har. cbn [with_heap heap invocations s Slices.ptr Slices.cap] in *.
  set (s' := Slices.Slice (length (heap w)) (Z.to_nat I) (Z.to_nat I)) in *.
  destruct (calculateStats_returns unrep (heap w') cost s') as [r Er].
  - rewrite Hh. unfold h. rewrite length_app. cbn. lia.
  - unfold Slices.array. cbn [s' Slices.ptr Slices.len]. lia.
  - cbn [s' Slices.len]. lia.
  - pose proof (calculateStats_result unrep (heap w') cost s' r) as Hr.
    rewrite Er in Hr. destruct (Hr eq_refl) as (Hc & Hd & Hi).
    exists h, s, idx', w', r. eexists.
    split; [exact Em|]. split; [exact El|]. split; [exact Er|].
    split; [exact Hx'|]. split; [exact Hn|]. split; [exact Hc|].
    rewrite Hi, Hd. cbn [s' Slices.len]. split; [lia|reflexivity].
Qed.

(** The outer loop when every invocation succeeds. *)
Lemma cost_loop_ok (unrep : float -> Z) (hash : primitive) (cfg : Config.t)
    (pw : list Byte.byte) (L : nat) :
  forall (fuel : nat) (cost idx : Z) (results : list CostResult.t) (w : world),
    (L + Z.to_nat (Config.Iterations cfg) < fuel)%nat ->
    1 <= Config.Iterations cfg <= 2 ^ 62 ->
    Int64.min_int <= cost ->
    cost + Z.of_nat L = Config.EndCost cfg + 1 ->
    Config.EndCost cfg < Int64.max_int ->
    0 <= idx < 10 ->
    (forall j c, exists d, hash j pw c = HashOk d) ->
    exists w' new,
      cost_loop unrep hash cfg pw fuel cost idx results w =
      (w', Returned (results ++ new)) /\
      map CostResult.Cost new = seqZ cost (Z.of_nat L) /\
      Forall (fun r => CostResult.Iterations r = Config.Iterations cfg) new /\
      invocations w' = (invocations w + L * Z.to_nat (Config.Iterations cfg))%nat.
Proof.
  induction L as [|L IH]; intros fuel cost idx results w Hf HI Hc HL HE Hx Hok;
    (destruct fuel as [|fuel]; [lia|]); cbn [cost_loop].
  - replace (cost <=? Config.EndCost cfg) with false by (symmetry; apply Z.leb_gt; lia).
    exists w, []. rewrite app_nil_r. repeat split; auto; lia.
  - replace (cost <=? Config.EndCost cfg) with true by (symmetry; apply Z.leb_le; lia).
    destruct (level_ok unrep hash cfg pw fuel cost idx w)
      as (h & s & idx' & w' & r & h' & Em & El & Es & Hx' & Hn & Hrc & Hri & Hrl);
      try lia; auto.
    rewrite Em, El, Es.
    rewrite add_one by lia.
    destruct (IH fuel (cost + 1) idx' (results ++ [r]) (with_heap w' h'))
      as (w2 & new & E & Hm & Hfa & Hn2); try lia; auto.
    exists w2, (r :: new). rewrite E, <- app_assoc. split; [reflexivity|].
    split; [|split].
    + rewrite seqZ_step. cbn [map]. rewrite Hrc, Hm. reflexivity.
    + constructor; auto.
    + cbn [with_heap invocations] in Hn2. lia.
Qed.

(** The outer loop when an invocation fails after [L] complete levels. *)
Lemma cost_loop_fatal (unrep : float -> Z) (hash : primitive) (cfg : Config.t)
    (pw : list Byte.byte) (err : string) (i : nat) (L : nat) :
  forall (fuel : nat) (cost idx : Z) (results : list CostResult.t) (w : world),
    (L + Z.to_nat (Config.Iterations cfg) < fuel)%nat ->
    1 <= Config.Iterations cfg <= 2 ^ 62 ->
    Int64.min_int <= cost ->
    cost + Z.of_nat L <= Config.EndCost cfg ->
    Config.EndCost cfg < Int64.max_int ->
    0 <= idx < 10 ->
    (i < Z.to_nat (Config.Iterations cfg))%nat ->
    (forall j c,
        (j < invocations w + L * Z.to_nat (Config.Iterations cfg) + i)%nat ->
        exists d, hash j pw c = HashOk d) ->
    hash (invocations w + L * Z.to_nat (Config.Iterations cfg) + i)%nat pw
         (cost + Z.of_nat L) = HashErr err ->
    exists w',
      cost_loop unrep hash cfg pw fuel cost idx results w =
      (w', Fatal (fatal_message err)) /\
      invocations w' =
      S (invocations w + L * Z.to_nat (Config.Iterations cfg) + i).
Proof.
  induction L as [|L IH]; intros fuel cost idx results w Hf HI Hc HL HE Hx Hi Hok Herr;
    (destruct fuel as [|fuel]; [lia|]); cbn [cost_loop];
    (replace (cost <=? Config.EndCost cfg) with true by (symmetry; apply Z.leb_le; lia)).
  - rewrite make_returns by lia.
    match goal with
    | |- context [iterations_loop _ _ _ _ _ _ _ ?s0 ?w0] => set (s := s0); set (w0' := w0)
    end.
    destruct (iterations_loop_fatal hash cfg pw cost err i fuel 1 idx s w0')
      as (w' & E & Hn); try lia; auto.
    + unfold Int64.max_int. lia.
    + intros j Hj. apply Hok. unfold w0' in Hj. cbn in Hj. lia.
    + unfold w0'. cbn [with_heap invocations].
      replace (invocations w + i)%nat with (invocations w + 0 * Z.to_nat (Config.Iterations cfg) + i)%nat by lia.
      replace cost with (cost + Z.of_nat 0) by lia. exact Herr.
    + rewrite E. exists w'. split; [reflexivity|]. unfold w0' in Hn. cbn in Hn. lia.
  - destruct (level_ok unrep hash cfg pw fuel cost idx w)
      as (h & s & idx' & w' & r & h' & Em & El & Es & Hx' & Hn & Hrc & Hri & Hrl);
      try lia; auto.
    { intros j Hj. apply Hok. nia. }
    rewrite Em, El, Es.
    rewrite add_one by lia.
    destruct (IH fuel (cost + 1) idx' (results ++ [r]) (with_heap w' h'))
      as (w2 & E & Hn2); try lia; auto.
    + intros j c Hj. apply Hok. cbn [with_heap invocations] in Hj. nia.
    + cbn [with_heap invocations].
      replace (invocations w' + L * Z.to_nat (Config.Iterations cfg) + i)%nat
        with (invocations w + S L * Z.to_nat (Config.Iterations cfg) + i)%nat by nia.
      replace (cost + 1 + Z.of_nat L) with (cost + Z.of_nat (S L)) by lia.
      exact Herr.
    + exists w2. split; [exact E|]. cbn [with_heap invocations] in Hn2. nia.
Qed.

(** ** What a returning sweep has collected *)

Lemma append_len (h : Slices.heap) (s : Slices.slice) (x : Z) :
  Slices.len (snd (Slices.append h s x)) = S (Slices.len s).
Proof. unfold Slices.append. destruct (_ <? _)%nat; reflexivity. Qed.

Lemma iterations_loop_len (hash : primitive) (cfg : Config.t)
    (pw : list Byte.byte) (cost : Z) (fuel : nat) :
  forall (iter idx : Z) (s : Slices.slice) (w w' : world) (idx' : Z)
         (s' : Slices.slice),
    Config.Iterations cfg < Int64.max_int ->
    1 <= iter <= Config.Iterations cfg + 1 ->
    iterations_loop hash cfg pw fuel cost iter idx s w = (w', Returned (idx', s')) ->
    Z.of_nat (Slices.len s') =
    Z.of_nat (Slices.len s) + (Config.Iterations cfg - iter + 1).
Proof.
  induction fuel as [|fuel IH]; intros iter idx s w w' idx' s' HI Hi;
    cbn [iterations_loop]; [discriminate|].
  destruct (iter <=? Config.Iterations cfg) eqn:Ei.
  - apply Z.leb_le in Ei.
    destruct (_ && _); [|discriminate].
    destruct (hash _ pw cost) as [d|e]; [|discriminate].
    pose proof (append_len (heap (print w (Progress
      (default EmptyString (spinnerFrames !!
         Z.to_nat (Z.rem (Int64.add idx 1) (Z.of_nat (length spinnerFrames)))))
      cost iter (Config.Iterations cfg)))) s d) as Hl.
    destruct (Slices.append _ s d) as [h2 s2]. cbn [snd] in Hl.
    rewrite add_one by (unfold Int64.min_int; lia).
    intros E. apply IH in E; [|exact HI|lia]. lia.
  - apply Z.leb_gt in Ei. intros [= <- <- <-]. lia.
Qed.

Lemma iterations_loop_never (hash : primitive) (cfg : Config.t)
    (pw : list Byte.byte) (cost : Z) (fuel : nat) :
  forall (iter idx : Z) (s : Slices.slice) (w w' : world) (x : Z * Slices.slice),
    Int64.max_int <= Config.Iterations cfg ->
    Int64.in_range iter ->
    iterations_loop hash cfg pw fuel cost iter idx s w <> (w', Returned x).
Proof.
  induction fuel as [|fuel IH]; intros iter idx s w w' x HI Hi;
    cbn [iterations_loop]; [discriminate|].
  replace (iter <=? Config.Iterations cfg) with true
    by (symmetry; apply Z.leb_le; unfold Int64.in_range in Hi; lia).
  destruct (_ && _); [|discriminate].
  destruct (hash _ pw cost) as [d|e]; [|discriminate].
  destruct (Slices.append _ s d) as [h2 s2].
  apply IH; [exact HI|apply wrap_range].
Qed.

Lemma cost_loop_count (unrep : float -> Z) (hash : primitive) (cfg : Config.t)
    (pw : list Byte.byte) (fuel : nat) :
  forall (cost idx : Z) (results : list CostResult.t) (w w' : world)
         (out : list CostResult.t),
    1 <= Config.Iterations cfg ->
    cost_loop unrep hash cfg pw fuel cost idx results w = (w', Returned out) ->
    exists new,
      out = results ++ new /\
      Forall (fun r =>
                CostResult.Iterations r = Config.Iterations cfg /\
                Z.of_nat (Slices.len (CostResult.Durations r)) =
                Config.Iterations cfg) new.
Proof.
  induction fuel as [|fuel IH]; intros cost idx results w w' out HI;
    cbn [cost_loop]; [discriminate|].
  destruct (cost <=? Config.EndCost cfg).
  - rewrite make_returns by lia.
    destruct (iterations_loop hash cfg pw fuel cost 1 idx _ _) as [w1 [[idx1 s1]| | |]]
      eqn:El; try discriminate.
    destruct (calculateStats unrep (heap w1) cost s1) as [h2 [r| | |]] eqn:Es;
      try discriminate.
    intros E. apply IH in E; [|exact HI]. destruct E as (new & -> & Hfa).
    exists (r :: new). rewrite <- app_assoc. split; [reflexivity|].
    constructor; [|exact Hfa].
    pose proof (calculateStats_result unrep (heap w1) cost s1 r) as Hr.
    rewrite Es in Hr. destruct (Hr eq_refl) as (_ & Hd & Hi).
    rewrite Hd, Hi.
    destruct (Z_lt_le_dec (Config.Iterations cfg) Int64.max_int) as [Hlt|Hge].
    + apply iterations_loop_len in El; [|exact Hlt|lia].
      cbn [Slices.len] in El. lia.
    + exfalso. revert El. apply iterations_loop_never; [exact Hge|].
      unfold Int64.in_range, Int64.min_int, Int64.max_int. lia.
  - intros [= <- <-]. exists []. rewrite app_nil_r. auto.
Qed.

(** * The claims *)

(** ** The sweep controller *)

Lemma capacity_ok (cfg : Config.t) :
  Config.StartCost cfg <= Config.EndCost cfg ->
  Int64.min_int <= Config.StartCost cfg ->
  Config.EndCost cfg < Int64.max_int ->
  Config.EndCost cfg - Config.StartCost cfg < Int64.max_int ->
  (Int64.add (Int64.sub (Config.EndCost cfg) (Config.StartCost cfg)) 1 <? 0)
  = false.
Proof.
  intros H1 H2 H3 H4. unfold Int64.sub.
  rewrite wrap_in_range
    by (unfold Int64.in_range, Int64.min_int, Int64.max_int in *; lia).
  rewrite add_one by (unfold Int64.min_int in *; lia).
  apply Z.ltb_ge. lia.
Qed.








(** ** The statistics reducer *)

(** C9: [calculateStats] leaves every array that existed before it as it
    was; in particular the samples of the caller read the same, in the same
    order, after the reduction as before, and the result refers to those
    very samples: the sort works on a copy. *)
Theorem reduction_preserves_samples (unrep : float -> Z) (h : Slices.heap)
    (cost : Z) (durations : Slices.slice) :
  (Slices.ptr durations < length h)%nat ->
  (forall l, (l < length h)%nat ->
             fst (calculateStats unrep h cost durations) !! l = h !! l) /\
  Slices.elems (fst (calculateStats unrep h cost durations)) durations =
  Slices.elems h durations /\
  (forall r, snd (calculateStats unrep h cost durations) = Returned r ->
             CostResult.Durations r = durations).
Proof.
  intros Hp. destruct (calculateStats_heap unrep h cost durations) as [a ->].
  split; [|split].
  - intros l Hl. apply lookup_app_l. exact Hl.
  - unfold Slices.elems. rewrite array_app_old by exact Hp. reflexivity.
  - intros r Hr. apply calculateStats_result in Hr. tauto.
Qed.

Lemma reduction_preserves_samples_witness :
  Slices.elems
    (fst (calculateStats Float64.amd64 [[ms 30; ms 10; ms 20]] 10
            (Slices.Slice 0 3 3)))
    (Slices.Slice 0 3 3) = [ms 30; ms 10; ms 20].
Proof.
  apply (reduction_preserves_samples Float64.amd64 [[ms 30; ms 10; ms 20]] 10
           (Slices.Slice 0 3 3)).
  simpl. lia.
Defined.

(** C10: on the empty sequence [calculatePercentile] returns the zero
    duration, whatever the percentile: it neither fails nor indexes. *)
Theorem percentile_of_nothing (unrep : float -> Z) (p : float) :
  calculatePercentile unrep [] p = Returned 0.
Proof. reflexivity. Qed.

(** C5: the recommendation depends on the mean alone and puts it in
    exactly one of five bands, tested in ascending order with strict upper
    bounds: below 100ms "Fast", below 250ms "Good - balanced", below 500ms
    "Acceptable", below 1s "Slow", from 1s on "Too slow".  A mean of exactly
    100ms is in the balanced band, one of exactly 250ms in the acceptable
    band. *)
Theorem recommendation_bands (mean : Z) (b : band) :
  (band_range b mean <-> recommendation mean = band_message b) /\
  recommendation (ms 100) = band_message Balanced /\
  recommendation (ms 250) = band_message Acceptable /\
  recommendation (ms 100 - 1000) = band_message Fast /\
  recommendation (ms 250 - 1000) = band_message Balanced /\
  recommendation (ms 1000) = band_message TooSlow.
Proof.
  split; [|repeat split].
  assert (exists b0, band_range b0 mean /\ recommendation mean = band_message b0)
    as (b0 & Hr & ->).
  { unfold recommendation.
    change (100 * Duration.Millisecond) with (ms 100).
    change (250 * Duration.Millisecond) with (ms 250).
    change (500 * Duration.Millisecond) with (ms 500).
    change (1 * Duration.Second) with (ms 1000).
    destruct (Z.ltb_spec mean (ms 100));
      [exists Fast; split; [assumption|reflexivity]|].
    destruct (Z.ltb_spec mean (ms 250));
      [exists Balanced; split; [split; assumption|reflexivity]|].
    destruct (Z.ltb_spec mean (ms 500));
      [exists Acceptable; split; [split; assumption|reflexivity]|].
    destruct (Z.ltb_spec mean (ms 1000));
      [exists Slow; split; [split; assumption|reflexivity]|].
    exists TooSlow. split; [assumption|reflexivity]. }
  split.
  - intros Hb. f_equal. revert Hr Hb.
    destruct b0, b; cbn [band_range];
      unfold ms, Duration.Millisecond, Duration.Microsecond, Duration.Nanosecond;
      intros; try reflexivity; lia.
  - intros E. assert (b0 = b) as <- by (destruct b0, b; try reflexivity; discriminate).
    exact Hr.
Qed.

Lemma recommendation_bands_witness :
  recommendation (ms 100) = band_message Balanced.
Proof.
  apply (proj1 (proj1 (recommendation_bands (ms 100) Balanced))).
  vm_compute. split; congruence.
Defined.

(** The running total of [calculateMean] is the sum, reduced to 64 bits. *)
Lemma wrap_add_l (a d : Z) : Int64.wrap (Int64.wrap a + d) = Int64.wrap (a + d).
Proof.
  unfold Int64.wrap. f_equal.
  replace ((a + 2 ^ 63) mod 2 ^ 64 - 2 ^ 63 + d + 2 ^ 63)
    with ((a + 2 ^ 63) mod 2 ^ 64 + d) by lia.
  rewrite Z.add_mod_idemp_l by lia. f_equal. lia.
Qed.

Lemma total_wraps_sum (l : list Z) (a : Z) :
  fold_left Int64.add l (Int64.wrap a) = Int64.wrap (a + sum_Z l).
Proof.
  revert a. induction l as [|d l IH]; intros a; cbn [fold_left sum_Z fold_right].
  - f_equal. lia.
  - unfold Int64.add at 2. rewrite wrap_add_l, IH. f_equal.
    unfold sum_Z. lia.
Qed.

Lemma quot_in_range (a n : Z) :
  Int64.in_range a -> 1 <= n -> Int64.in_range (Z.quot a n).
Proof.
  unfold Int64.in_range, Int64.min_int, Int64.max_int. intros Ha Hn.
  destruct (Z_le_gt_dec 0 a).
  - pose proof (Z.quot_pos a n ltac:(lia) ltac:(lia)).
    pose proof (Z.quot_le_upper_bound a n a ltac:(lia) ltac:(nia)). lia.
  - assert (Z.quot a n = - Z.quot (- a) n) as ->
      by (rewrite Z.quot_opp_l by lia; lia).
    pose proof (Z.quot_pos (- a) n ltac:(lia) ltac:(lia)).
    pose proof (Z.quot_le_upper_bound (- a) n (- a) ltac:(lia) ltac:(nia)). lia.
Qed.

Lemma calculateMean_sum (d : Z) (ds : list Z) :
  calculateMean (d :: ds) =
  Returned (Z.quot (Int64.wrap (sum_Z (d :: ds))) (Z.of_nat (length (d :: ds)))).
Proof.
  rewrite calculateMean_returns by discriminate.
  change 0 with (Int64.wrap 0) at 1. rewrite total_wraps_sum, Z.add_0_l.
  unfold Int64.quot. rewrite wrap_in_range; [reflexivity|].
  apply quot_in_range; [apply wrap_range|]. cbn [length]. lia.
Qed.

(** C3: the mean of a non-empty sequence is the sum of the durations, taken
    in the 64-bit integer type of durations, divided by their number at the
    end (integer division, toward zero); no float is involved.  When the sum
    fits the type it is the sum itself that is divided.  For 10ms, 20ms and
    30ms the mean is exactly 20ms. *)
Theorem mean_sum_then_divide (d : Z) (ds : list Z) :
  calculateMean (d :: ds) =
  Returned (Z.quot (Int64.wrap (sum_Z (d :: ds))) (Z.of_nat (length (d :: ds)))) /\
  (Int64.in_range (sum_Z (d :: ds)) ->
   calculateMean (d :: ds) =
   Returned (Z.quot (sum_Z (d :: ds)) (Z.of_nat (length (d :: ds))))) /\
  calculateMean [ms 10; ms 20; ms 30] = Returned (ms 20).
Proof.
  split; [apply calculateMean_sum|]. split; [|reflexivity].
  intros H. rewrite calculateMean_sum, wrap_in_range by exact H. reflexivity.
Qed.

Lemma mean_sum_then_divide_witness :
  calculateMean [ms 10; ms 20; ms 30] =
  Returned (Z.quot (sum_Z [ms 10; ms 20; ms 30]) 3).
Proof.
  apply (proj1 (proj2 (mean_sum_then_divide (ms 10) [ms 20; ms 30]))).
  vm_compute. split; congruence.
Defined.

(** ** The standard deviation stays within the durations *)

Lemma squared_deviation_bounded (x : Z) :
  Z.abs x <= 2 ^ 62 ->
  fbounded (Float64.mul (Float64.of_int x) (Float64.of_int x)) 1 124 /\
  nonneg (Float64.mul (Float64.of_int x) (Float64.of_int x)).
Proof.
  intros Hx.
  destruct (of_int_fbounded x 1 62) as [F S]; [lia|lia|lia|].
  destruct (mul_fbounded (Float64.of_int x) (Float64.of_int x) 1 62 1 62)
    as [Fm Sm]; auto; try lia.
  split; [exact Fm|].
  apply has_sign_nonneg.
  replace false with (xorb (x <? 0) (x <? 0)) by (destruct (x <? 0); reflexivity).
  apply Sm; exact S.
Qed.

Lemma sum_squares_bounded (mean : Z) (l : list Z) :
  forall (acc : float) (k : Z),
    fbounded acc k 124 -> nonneg acc -> 0 <= k ->
    k + Z.of_nat (length l) < 2 ^ 53 ->
    Forall (fun d => Z.abs (d - mean) <= 2 ^ 62) l ->
    let total :=
      fold_left
        (fun sumSquares d =>
           let diff := Float64.of_int (Int64.sub d mean) in
           Float64.add sumSquares (Float64.mul diff diff)) l acc in
    fbounded total (k + Z.of_nat (length l)) 124 /\ nonneg total.
Proof.
  induction l as [|d l IH]; intros acc k Fa Na Hk Hn Hall; cbn [fold_left length].
  - rewrite Z.add_0_r. auto.
  - inversion Hall as [|? ? Hd Hl]; subst.
    assert (k + 1 + Z.of_nat (length l) < 2 ^ 53) as Hn'
      by (cbn [length] in Hn; lia).
    assert (Int64.sub d mean = d - mean) as ->.
    { apply wrap_in_range. unfold Int64.in_range, Int64.min_int, Int64.max_int. lia. }
    destruct (squared_deviation_bounded (d - mean) Hd) as [Fs Ns].
    destruct (add_nonneg acc
                (Float64.mul (Float64.of_int (d - mean)) (Float64.of_int (d - mean)))
                k 1 124) as [F N]; auto; try lia.
    replace (k + Z.of_nat (S (length l))) with ((k + 1) + Z.of_nat (length l)) by lia.
    apply IH; auto; try lia.
Qed.

Lemma variance_bounded (s : float) (n : Z) :
  fbounded s n 124 -> nonneg s -> 2 <= n < 2 ^ 53 ->
  fbounded (Float64.div s (Float64.of_int (n - 1))) 1 125 /\
  nonneg (Float64.div s (Float64.of_int (n - 1))).
Proof.
  intros Fs Ns Hn.
  destruct (of_int_exact (n - 1)) as (my & ey & -> & Cy & Hey & Hmy); [lia|].
  assert (-52 <= ey).
  { destruct Cy as (Hm & He & _).
    destruct (Z_le_gt_dec (-52) ey); [lia|].
    assert (2 ^ 53 <= 2 ^ (- ey)) by (apply Z.pow_le_mono_r; lia).
    assert (1 * 2 ^ (- ey) <= (n - 1) * 2 ^ (- ey))
      by (apply Z.mul_le_mono_nonneg_r; lia). lia. }
  destruct s as [ss| | |[] ms es]; simpl in Fs, Ns; try contradiction.
  - simpl. auto.
  - destruct Fs as [Cs Ds].
    destruct (div_fbounded false ms es false my ey 1 125) as [F S]; auto; try lia.
    + rewrite Z.mul_1_l. apply dle_trans with n 124; [exact Ds|].
      apply (dle_scale (124 + ey)); [lia|lia|].
      replace (124 - (124 + ey)) with (- ey) by lia.
      replace (125 + ey - (124 + ey)) with 1 by lia.
      rewrite Hmy. change (2 ^ 1) with 2.
      assert (0 < 2 ^ (- ey)) by (apply Z.pow_pos_nonneg; lia). nia.
    + split; [exact F|]. apply has_sign_nonneg, S.
Qed.

Lemma sqrt_variance_bounded (v : float) :
  fbounded v 1 125 -> nonneg v ->
  fbounded (Float64.sqrt v) (2 ^ 53 - 1) 10 /\ nonneg (Float64.sqrt v).
Proof.
  intros Fv Nv.
  destruct v as [sv| | |[] mv ev]; simpl in Fv, Nv; try contradiction.
  - simpl. auto.
  - destruct Fv as [Cv Dv].
    apply sqrt_fbounded; try lia.
    apply dle_trans with 1 125; [exact Dv|].
    apply dle_ge_intro; [lia|]. vm_compute. discriminate.
Qed.

(** The standard deviation of fewer than [2^53] samples that all lie within
    [2^62] of the mean is a nonnegative duration. *)
Lemma calculateStdDev_nonneg (unrep : float -> Z) (data : list Z) (mean : Z) :
  Z.of_nat (length data) < 2 ^ 53 ->
  Forall (fun d => Z.abs (d - mean) <= 2 ^ 62) data ->
  0 <= calculateStdDev unrep data mean <= Int64.max_int.
Proof.
  intros Hn Hall. unfold calculateStdDev.
  destruct (Z.ltb_spec (Z.of_nat (length data)) 2) as [|Hge];
    [unfold Int64.max_int; lia|].
  destruct (sum_squares_bounded mean data (S754_zero false) 0) as [Fs Ns];
    simpl; auto; try lia.
  rewrite Z.add_0_l in Fs.
  destruct (variance_bounded _ (Z.of_nat (length data)) Fs Ns) as [Fv Nv]; [lia|].
  destruct (sqrt_variance_bounded _ Fv Nv) as [Fq Nq].
  destruct (to_int_bounded unrep _ (2 ^ 53 - 1) 10 Fq Nq) as (z & _ & Ez & Hz);
    try lia.
  - vm_compute. discriminate.
  - assert ((2 ^ 53 - 1) * 2 ^ 10 <= Int64.max_int) by (vm_compute; discriminate).
    cbv zeta in Ez |- *. rewrite Ez. lia.
Qed.

(** ** The summary of nonnegative durations *)

Lemma sum_Z_perm (l l' : list Z) : l ≡ₚ l' -> sum_Z l = sum_Z l'.
Proof. induction 1; cbn [sum_Z fold_right] in *; unfold sum_Z in *; lia. Qed.

Lemma sum_Z_bounds (B : Z) (l : list Z) :
  Forall (fun d => 0 <= d <= B) l ->
  0 <= sum_Z l <= B * Z.of_nat (length l).
Proof.
  induction 1 as [|d l Hd _ IH]; cbn [sum_Z fold_right length].
  - lia.
  - fold (sum_Z l). lia.
Qed.

(** The truncated mean of durations in [[0, B]] is in [[0, B]]. *)
Lemma mean_within (B : Z) (l : list Z) :
  l <> [] -> Forall (fun d => 0 <= d <= B) l ->
  0 <= Z.quot (sum_Z l) (Z.of_nat (length l)) <= B.
Proof.
  intros Hl Hall. pose proof (sum_Z_bounds B l Hall) as Hs.
  assert (0 < Z.of_nat (length l)) as Hn by (destruct l; [congruence|simpl; lia]).
  split.
  - apply Z.quot_pos; lia.
  - apply Z.quot_le_upper_bound; lia.
Qed.

(** The fractions of the four percentiles are on the grid of [2^-53]. *)
Lemma percentile_fraction (p : Z) :
  In p [25; 75; 95; 99] ->
  regular (Float64.div (Float64.of_int p) (Float64.of_int 100)) /\
  fval (Float64.div (Float64.of_int p) (Float64.of_int 100))
  = percentile_grid p * 2 ^ 1021 /\
  0 <= percentile_grid p <= 2 ^ 53.
Proof.
  intros [<-|[<-|[<-|[<-|[]]]]].
  - change (Float64.div (Float64.of_int 25) (Float64.of_int 100))
      with (S754_finite false 4503599627370496 (-54)).
    split; [|split]; [unfold regular, canon; lia|reflexivity|vm_compute; split; discriminate].
  - change (Float64.div (Float64.of_int 75) (Float64.of_int 100))
      with (S754_finite false 6755399441055744 (-53)).
    split; [|split]; [unfold regular, canon; lia|reflexivity|vm_compute; split; discriminate].
  - change (Float64.div (Float64.of_int 95) (Float64.of_int 100))
      with (S754_finite false 8556839292003942 (-53)).
    split; [|split]; [unfold regular, canon; lia|reflexivity|vm_compute; split; discriminate].
  - change (Float64.div (Float64.of_int 99) (Float64.of_int 100))
      with (S754_finite false 8917127262193582 (-53)).
    split; [|split]; [unfold regular, canon; lia|reflexivity|vm_compute; split; discriminate].
Qed.

(** The four percentiles of an ascending sequence of durations of at most
    [2^46] nanoseconds come out in order. *)
Lemma percentiles_ordered (unrep : float -> Z) (data : list Z) :
  StronglySorted Z.le data ->
  Forall (fun d => 0 <= d <= 2 ^ 46) data ->
  1 <= Z.of_nat (length data) <= 2 ^ 51 ->
  exists p25 p75 p95 p99,
    calculatePercentile unrep data (Float64.of_int 25) = Returned p25 /\
    calculatePercentile unrep data (Float64.of_int 75) = Returned p75 /\
    calculatePercentile unrep data (Float64.of_int 95) = Returned p95 /\
    calculatePercentile unrep data (Float64.of_int 99) = Returned p99 /\
    p25 <= p75 <= p95 /\ p95 <= p99.
Proof.
  intros Hs Hd Hn.
  destruct (Z.eq_dec (Z.of_nat (length data)) 1) as [E1|N1].
  - destruct data as [|x [|y l]]; simpl in E1; try lia.
    exists x, x, x, x. repeat split; try reflexivity; lia.
  - assert (Forall (fun d => 0 <= d < 2 ^ 53) data) as Hd'.
    { eapply Forall_impl; [exact Hd|]. cbv beta. intros; lia. }
    assert (forall p, In p [25; 75; 95; 99] ->
              calculatePercentile unrep data (Float64.of_int p)
              = Returned (pmodel data (percentile_grid p))) as Hp.
    { intros p Hin.
      destruct (percentile_constant p Hin) as (V & L0 & L100).
      destruct (percentile_fraction p Hin) as (R & F & C).
      apply calculatePercentile_model; auto. lia. }
    destruct (rank_gaps (Z.of_nat (length data) - 1) ltac:(lia)) as (G0 & G1 & G2 & G3).
    pose proof (RN_nonneg (c75 * (Z.of_nat (length data) - 1)) ltac:(unfold c75; lia)) as N75.
    pose proof (RN_nonneg (c95 * (Z.of_nat (length data) - 1)) ltac:(unfold c95; lia)) as N95.
    exists (pmodel data c25), (pmodel data c75), (pmodel data c95), (pmodel data c99).
    split; [apply (Hp 25); simpl; auto|].
    split; [apply (Hp 75); simpl; auto|].
    split; [apply (Hp 95); simpl; auto|].
    split; [apply (Hp 99); simpl; auto 6|].
    repeat split; apply pmodel_mono; auto; lia.
Qed.


(** The mean and the standard deviation of durations of at most [2^62]
    nanoseconds whose sum fits a 64-bit integer are nonnegative. *)
Lemma summary_mean_stddev (unrep : float -> Z) (h : Slices.heap) (cost : Z)
    (durations : Slices.slice) :
  (Slices.ptr durations < length h)%nat ->
  (Slices.len durations <= length (Slices.array h durations))%nat ->
  Slices.elems h durations <> [] ->
  Z.of_nat (length (Slices.elems h durations)) < 2 ^ 53 ->
  Forall (fun d => 0 <= d <= 2 ^ 62) (Slices.elems h durations) ->
  sum_Z (Slices.elems h durations) <= Int64.max_int ->
  exists r,
    snd (calculateStats unrep h cost durations) = Returned r /\
    0 <= CostResult.Mean r /\
    0 <= CostResult.StdDev r.
Proof.
  intros Hp Hl Hne Hn Hall Hsum.
  rewrite calculateStats_sorted by assumption. cbn [snd].
  pose proof (merge_sort_Permutation Z.le (Slices.elems h durations)) as Hperm.
  set (samples := Slices.elems h durations) in *.
  destruct (merge_sort Z.le samples) as [|d ds] eqn:Ed.
  { apply Permutation_nil in Hperm. contradiction. }
  rewrite calculateMean_sum.
  set (data := d :: ds) in *.
  assert (Forall (fun d => 0 <= d <= 2 ^ 62) data) as Hdata.
  { rewrite Hperm. exact Hall. }
  assert (length data = length samples) as Hlen by (apply Permutation_length, Hperm).
  assert (sum_Z data = sum_Z samples) as Hs by (apply sum_Z_perm, Hperm).
  pose proof (sum_Z_bounds _ _ Hall) as Hs0.
  rewrite Hs, wrap_in_range
    by (unfold Int64.in_range, Int64.min_int; lia).
  rewrite <- Hs.
  set (mean := Z.quot (sum_Z data) (Z.of_nat (length data))).
  assert (0 <= mean <= 2 ^ 62) as Hmean
    by (apply mean_within; [discriminate|exact Hdata]).
  assert (forall c, In c [25; 75; 95; 99] ->
            exists v, calculatePercentile unrep data (Float64.of_int c) = Returned v)
    as Hpc.
  { intros c Hc. destruct (percentile_constant c Hc) as (? & ? & ?).
    apply calculatePercentile_returns; auto. lia. }
  destruct (Hpc 25) as [p25 E25]; [simpl; auto|].
  destruct (Hpc 75) as [p75 E75]; [simpl; auto|].
  destruct (Hpc 95) as [p95 E95]; [simpl; auto|].
  destruct (Hpc 99) as [p99 E99]; [simpl; auto 6|].
  rewrite E25, E75, E95, E99. cbn [mbind outcome_bind].
  eexists. split; [reflexivity|].
  cbn [CostResult.Mean CostResult.StdDev].
  split; [lia|].
  apply calculateStdDev_nonneg; [lia|].
  eapply Forall_impl; [exact Hdata|].
  cbv beta. intros; lia.
Qed.

(** C8, within the reach of the machine arithmetic: for a non-empty sequence
    of nonnegative durations of at most [2^46] nanoseconds each, at most
    [2^51] of them, whose sum fits a 64-bit integer, [calculateStats] returns
    a summary with [P25 <= P75 <= P95 <= P99], a nonnegative mean and a
    nonnegative standard deviation. *)
Theorem summary_ordered (unrep : float -> Z) (h : Slices.heap) (cost : Z)
    (durations : Slices.slice) :
  (Slices.ptr durations < length h)%nat ->
  (Slices.len durations <= length (Slices.array h durations))%nat ->
  Slices.elems h durations <> [] ->
  Z.of_nat (length (Slices.elems h durations)) <= 2 ^ 51 ->
  Forall (fun d => 0 <= d <= sample_bound) (Slices.elems h durations) ->
  sum_Z (Slices.elems h durations) <= Int64.max_int ->
  exists r,
    snd (calculateStats unrep h cost durations) = Returned r /\
    summary_invariant r.
Proof.
  intros Hp Hl Hne Hn Hall Hsum.
  assert (1 <= Z.of_nat (length (Slices.elems h durations))) as Hn1.
  { destruct (Slices.elems h durations); [congruence|simpl; lia]. }
  destruct (summary_mean_stddev unrep h cost durations Hp Hl Hne) as (r & Hr & Hm & Hs);
    [lia| |exact Hsum|].
  { eapply Forall_impl; [exact Hall|]. unfold sample_bound. cbv beta.
    intros; lia. }
  exists r. split; [exact Hr|].
  rewrite calculateStats_sorted in Hr by assumption. cbn [snd] in Hr.
  pose proof (merge_sort_Permutation Z.le (Slices.elems h durations)) as Hperm.
  pose proof (StronglySorted_merge_sort Z.le (Slices.elems h durations)) as Hsorted.
  set (data := merge_sort Z.le (Slices.elems h durations)) in *.
  assert (length data = length (Slices.elems h durations)) as Hlen
    by (apply Permutation_length, Hperm).
  destruct (percentiles_ordered unrep data) as
    (p25 & p75 & p95 & p99 & E25 & E75 & E95 & E99 & O1 & O2).
  - exact Hsorted.
  - rewrite Hperm. exact Hall.
  - rewrite Hlen. lia.
  - rewrite E25, E75, E95, E99 in Hr.
    destruct (calculateMean data) as [mean| | |]; cbn [mbind outcome_bind] in Hr;
      try discriminate.
    injection Hr as <-. unfold summary_invariant in *.
    cbn [CostResult.Mean CostResult.StdDev CostResult.P25 CostResult.P75
         CostResult.P95 CostResult.P99] in *. lia.
Qed.

Lemma summary_ordered_witness :
  exists r,
    snd (calculateStats Float64.amd64 [[ms 30; ms 10; ms 20]] 10
           (Slices.Slice 0 3 3)) = Returned r /\
    summary_invariant r.
Proof.
  apply (summary_ordered Float64.amd64 [[ms 30; ms 10; ms 20]] 10
           (Slices.Slice 0 3 3)).
  - simpl. lia.
  - simpl. lia.
  - discriminate.
  - vm_compute. discriminate.
  - repeat constructor; vm_compute; discriminate.
  - vm_compute. discriminate.
Defined.

Lemma sum_Z_replicate (n : nat) (x : Z) : sum_Z (replicate n x) = Z.of_nat n * x.
Proof.
  induction n as [|n IH]; [reflexivity|].
  cbn [replicate sum_Z fold_right]. fold (sum_Z (replicate n x)). lia.
Qed.

Lemma calculateMean_replicate (n : nat) (x : Z) :
  (0 < n)%nat ->
  calculateMean (replicate n x) =
  Returned (Z.quot (Int64.wrap (Z.of_nat n * x)) (Z.of_nat n)).
Proof.
  intros Hn. destruct n as [|n]; [lia|].
  cbn [replicate]. rewrite calculateMean_sum.
  change (x :: replicate n x) with (replicate (S n) x).
  rewrite sum_Z_replicate, length_replicate. reflexivity.
Qed.

(** The sum has to fit: 131073 durations of [2^46] nanoseconds each have a
    negative mean. *)
Lemma mean_wraps :
  exists mean,
    calculateMean (replicate (Z.to_nat 131073) sample_bound) = Returned mean /\
    mean < 0.
Proof.
  exists (Z.quot (Int64.wrap (131073 * sample_bound)) 131073).
  split; [|vm_compute; reflexivity].
  rewrite calculateMean_replicate by lia.
  rewrite Z2Nat.id by lia. reflexivity.
Qed.

(** Where C8 fails: two equal samples of some 64 years; the 75th percentile
    comes out above the 95th. *)
Lemma percentiles_out_of_order :
  exists r,
    snd (calculateStats Float64.amd64 [long_samples] 10 (Slices.Slice 0 2 2))
    = Returned r /\
    Forall (fun d => 0 <= d) long_samples /\
    ~ summary_invariant r.
Proof.
  eexists. split; [vm_compute; reflexivity|]. split.
  - repeat constructor; vm_compute; discriminate.
  - unfold summary_invariant.
    cbn [CostResult.P25 CostResult.P75 CostResult.P95 CostResult.P99].
    intros (_ & H & _). vm_compute in H. apply H. reflexivity.
Qed.

(** ** The standard deviation against its formula *)

Lemma sum_squares_map (mean : Z) (l : list Z) (acc : float) :
  Forall (fun x => Int64.in_range (x - mean)) l ->
  fold_left
    (fun sumSquares d =>
       let diff := Float64.of_int (Int64.sub d mean) in
       Float64.add sumSquares (Float64.mul diff diff)) l acc
  = fold_left Float64.add (map (squared_deviation mean) l) acc.
Proof.
  intros Hall. revert acc.
  induction Hall as [|x l Hx _ IH]; intros acc; cbn [fold_left map].
  - reflexivity.
  - rewrite IH. unfold squared_deviation, Int64.sub.
    rewrite wrap_in_range by exact Hx. reflexivity.
Qed.

(** C4: with fewer than two samples the standard deviation is exactly zero;
    otherwise it is the square root of the sum of the squared deviations
    from the mean divided by [n - 1] (Bessel's correction), computed in
    binary64 and converted to a duration, provided each deviation fits a
    duration.  For 10ms, 20ms and 30ms around their mean of 20ms it is
    exactly 10ms. *)
Theorem stddev_bessel (unrep : float -> Z) (samples : list Z) (mean : Z) :
  (Z.of_nat (length samples) < 2 -> calculateStdDev unrep samples mean = 0) /\
  (Forall (fun x => Int64.in_range (x - mean)) samples ->
   calculateStdDev unrep samples mean = stddev_spec unrep samples mean) /\
  calculateStdDev unrep [ms 10; ms 20; ms 30] (ms 20) = ms 10.
Proof.
  split; [|split].
  - intros Hn. unfold calculateStdDev.
    destruct (Z.ltb_spec (Z.of_nat (length samples)) 2); [reflexivity|lia].
  - intros Hall. unfold calculateStdDev, stddev_spec, float_sum.
    rewrite sum_squares_map by exact Hall. reflexivity.
  - reflexivity.
Qed.

Lemma stddev_bessel_witness :
  calculateStdDev Float64.amd64 [ms 12; ms 15; ms 18; ms 27] (ms 18) =
  stddev_spec Float64.amd64 [ms 12; ms 15; ms 18; ms 27] (ms 18).
Proof.
  apply (proj1 (proj2 (stddev_bessel Float64.amd64
                         [ms 12; ms 15; ms 18; ms 27] (ms 18)))).
  repeat constructor; vm_compute; discriminate.
Defined.

(** ** The percentile against its formula *)

Lemma fold_max_le (a m : Z) (l : list Z) :
  a <= m -> Forall (fun x => x <= m) l -> fold_right Z.max a l <= m.
Proof. intros Ha. induction 1; cbn [fold_right]; lia. Qed.

Lemma fold_max_ge (a m : Z) (l : list Z) :
  In m l -> m <= fold_right Z.max a l.
Proof.
  induction l as [|x l IH]; cbn [fold_right In]; [tauto|].
  intros [->|H]; [|specialize (IH H)]; lia.
Qed.

(** The last element of an ascending sequence is above all of it. *)
Lemma sorted_last (l : list Z) :
  StronglySorted Z.le l -> l <> [] ->
  In (nth (pred (length l)) l 0) l /\
  Forall (fun x => x <= nth (pred (length l)) l 0) l.
Proof.
  induction 1 as [|x l Hs IH Hx]; intros Hne; [congruence|].
  destruct l as [|y l'].
  - cbn. split; [auto|]. constructor; [lia|constructor].
  - destruct IH as [Hin Hall]; [discriminate|].
    change (nth (pred (length (x :: y :: l'))) (x :: y :: l') 0)
      with (nth (pred (length (y :: l'))) (y :: l') 0).
    set (m := nth (pred (length (y :: l'))) (y :: l') 0) in *.
    split; [right; exact Hin|].
    constructor; [|exact Hall].
    rewrite List.Forall_forall in Hx. apply Hx. exact Hin.
Qed.

Lemma maximum_sorted (l : list Z) :
  Sorted Z.le l -> l <> [] ->
  maximum l = nth (Z.to_nat (Z.of_nat (length l) - 1)) l 0.
Proof.
  intros Hs Hne.
  apply Sorted_StronglySorted in Hs; [|intros x y z; lia].
  destruct (sorted_last l Hs Hne) as [Hin Hall].
  replace (Z.to_nat (Z.of_nat (length l) - 1)) with (pred (length l)) by lia.
  unfold maximum. apply Z.le_antisymm.
  - apply fold_max_le; [|exact Hall].
    destruct l as [|x l']; [congruence|].
    inversion Hall; subst. assumption.
  - apply fold_max_ge. exact Hin.
Qed.

(** C2: on an ascending sequence of [n >= 2] samples and a percentile [p]
    in [[0, 100]], [calculatePercentile] returns what the formula gives: with
    the rank [r = (p / 100) * (n - 1)], [lo = floor r], [hi = lo + 1] and
    [w = r - lo], the maximum sample when [hi >= n] and otherwise
    [sorted[lo] * (1 - w) + sorted[hi] * w], in binary64, converted to a
    duration.  It never indexes out of range.  A single sample is returned
    whatever [p] is.  For 10ms, 20ms, 30ms, 40ms the 25th percentile is
    17.5ms and the 100th is 40ms. *)
Theorem percentile_interpolation (unrep : float -> Z) (sorted : list Z)
    (p : float) :
  (Sorted Z.le sorted ->
   Float64.valid p ->
   Float64.leb (S754_zero false) p = true ->
   Float64.leb p (Float64.of_int 100) = true ->
   2 <= Z.of_nat (length sorted) <= 2 ^ 62 ->
   calculatePercentile unrep sorted p =
   Returned (percentile_spec unrep sorted p)) /\
  (forall x, calculatePercentile unrep [x] p = Returned x) /\
  calculatePercentile unrep [ms 10; ms 20; ms 30; ms 40] (Float64.of_int 25)
  = Returned (us 17500) /\
  calculatePercentile unrep [ms 10; ms 20; ms 30; ms 40] (Float64.of_int 100)
  = Returned (ms 40).
Proof.
  split; [|split; [|split]]; try reflexivity.
  intros Hs Hv H0 H100 Hn.
  destruct (calculatePercentile_eq unrep sorted p Hv H0 H100 Hn)
    as (lo & Hfl & Hlo & ->).
  f_equal. unfold percentile_spec.
  destruct (Z.eqb_spec (Z.of_nat (length sorted)) 1) as [E|_]; [lia|].
  cbv zeta. rewrite Hfl. cbn [default from_option id].
  destruct (lo + 1 >=? Z.of_nat (length sorted)); [|reflexivity].
  symmetry. apply maximum_sorted; [exact Hs|].
  intros ->. simpl in Hn. lia.
Qed.

Lemma percentile_interpolation_witness :
  calculatePercentile Float64.amd64 [ms 10; ms 20; ms 30; ms 40]
    (Float64.of_int 75) =
  Returned (percentile_spec Float64.amd64 [ms 10; ms 20; ms 30; ms 40]
              (Float64.of_int 75)).
Proof.
  apply (proj1 (percentile_interpolation Float64.amd64
                  [ms 10; ms 20; ms 30; ms 40] (Float64.of_int 75))).
  - repeat constructor; vm_compute; discriminate.
  - vm_compute. reflexivity.
  - vm_compute. reflexivity.
  - vm_compute. reflexivity.
  - simpl. lia.
Defined.

(** * Further properties of the program *)


(** ** The command line *)

Lemma parseFlags_cases (cfg : Config.t) :
  (accepted cfg /\ parseFlags cfg = Returned cfg) \/
  (~ accepted cfg /\ exists msg, parseFlags cfg = Fatal msg).
Proof.
  unfold parseFlags, accepted.
  destruct (Z.ltb_spec (Config.StartCost cfg) Bcrypt.MinCost);
    [right; split; [lia|eauto]|].
  destruct (Z.gtb_spec (Config.EndCost cfg) Bcrypt.MaxCost);
    [right; split; [lia|eauto]|].
  destruct (Z.gtb_spec (Config.StartCost cfg) (Config.EndCost cfg));
    [right; split; [lia|eauto]|].
  destruct (Z.ltb_spec (Config.Iterations cfg) 1);
    [right; split; [lia|eauto]|].
  left. split; [lia|reflexivity].
Qed.

(** X1: [parseFlags] returns the configuration, unchanged, exactly when
    [4 <= StartCost <= EndCost <= 31] and [Iterations >= 1]; every other
    configuration exits through [log.Fatal].  The checks run in the order
    of the source: a start cost below 4 is reported as such whatever the
    other flags are, an end cost above 31 once the start cost has passed.
    The defaults of the flags (10, 16, 3 iterations) are accepted. *)
Theorem parseFlags_accepts (cfg : Config.t) :
  (forall cfg', parseFlags cfg = Returned cfg' <-> accepted cfg /\ cfg' = cfg) /\
  (~ accepted cfg -> exists msg, parseFlags cfg = Fatal msg) /\
  (Config.StartCost cfg < 4 ->
   parseFlags cfg = Fatal "Start cost must be at least 4") /\
  (4 <= Config.StartCost cfg -> 31 < Config.EndCost cfg ->
   parseFlags cfg = Fatal "End cost must be at most 31") /\
  parseFlags default_flags = Returned default_flags.
Proof.
  split; [|split; [|split; [|split]]].
  - intros cfg'. destruct (parseFlags_cases cfg) as [[Ha ->]|[Hn [msg ->]]].
    + split; [intros [= <-]; auto|intros [_ ->]; reflexivity].
    + split; [discriminate|tauto].
  - intros Hn. destruct (parseFlags_cases cfg) as [[Ha _]|[_ H]]; [tauto|exact H].
  - intros H. unfold parseFlags.
    replace (Config.StartCost cfg <? Bcrypt.MinCost) with true
      by (symmetry; apply Z.ltb_lt; exact H).
    reflexivity.
  - intros H1 H2. unfold parseFlags.
    replace (Config.StartCost cfg <? Bcrypt.MinCost) with false
      by (symmetry; apply Z.ltb_ge; exact H1).
    replace (Config.EndCost cfg >? Bcrypt.MaxCost) with true
      by (symmetry; apply Z.gtb_gt; unfold Bcrypt.MaxCost; lia).
    reflexivity.
  - reflexivity.
Qed.

Lemma parseFlags_accepts_witness :
  parseFlags default_flags = Returned default_flags <->
  accepted default_flags /\ default_flags = default_flags.
Proof. apply (proj1 (parseFlags_accepts default_flags) default_flags). Defined.

(** ** The password *)

Lemma charset_index_bound (b : Byte.byte) :
  0 <= charset_index (Z.of_N (Byte.to_N b)) < Z.of_nat (length charset_bytes).
Proof.
  unfold charset_index.
  change (Z.of_nat (length charset_bytes)) with 70.
  apply Z.rem_bound_pos; lia.
Qed.

Lemma byte_at_some (s : list Byte.byte) (i : nat) (x : Byte.byte) :
  s !! i = Some x -> byte_at s (Z.of_nat i) = Returned x.
Proof.
  intros H. unfold byte_at. pose proof (lookup_lt_Some _ _ _ H) as Hl.
  replace ((0 <=? Z.of_nat i) && (Z.of_nat i <? Z.of_nat (length s))) with true
    by (symmetry; apply andb_true_iff; split; [apply Z.leb_le|apply Z.ltb_lt]; lia).
  rewrite Nat2Z.id, H. reflexivity.
Qed.

Lemma selected_some (b : Byte.byte) :
  exists c, selected b = Some c /\ c ∈ charset_bytes /\
            byte_at charset_bytes (charset_index (Z.of_N (Byte.to_N b))) = Returned c.
Proof.
  pose proof (charset_index_bound b) as Hb. unfold selected.
  destruct (lookup_lt_is_Some_2 charset_bytes
              (Z.to_nat (charset_index (Z.of_N (Byte.to_N b)))) ltac:(lia))
    as [c Hc].
  exists c. split; [exact Hc|]. split; [eapply list_elem_of_lookup_2; exact Hc|].
  rewrite <- (Z2Nat.id (charset_index _)) by lia. apply byte_at_some. exact Hc.
Qed.

Lemma password_loop_fills (stream : nat -> Byte.byte) (n : nat) :
  forall (todo i : nat) (password : list Byte.byte),
    (i + todo = n)%nat -> length password = n ->
    exists tail,
      password_loop (map stream (seq 0 n)) password (Z.of_nat i) todo =
      Returned (take i password ++ tail) /\
      Forall2 (fun j c => selected (stream j) = Some c) (seq i todo) tail.
Proof.
  induction todo as [|todo IH]; intros i password Hi Hl; cbn [password_loop].
  - exists []. rewrite app_nil_r, take_ge by lia. split; [reflexivity|constructor].
  - assert (map stream (seq 0 n) !! i = Some (stream i)) as Hr.
    { rewrite list_lookup_fmap, lookup_seq_lt by lia. reflexivity. }
    rewrite (byte_at_some _ _ _ Hr). cbn [mbind outcome_bind].
    destruct (selected_some (stream i)) as (c & Hs & _ & ->). cbn [mbind outcome_bind].
    replace ((0 <=? Z.of_nat i) && (Z.of_nat i <? Z.of_nat (length password)))
      with true
      by (symmetry; apply andb_true_iff; split; [apply Z.leb_le|apply Z.ltb_lt]; lia).
    rewrite Nat2Z.id.
    replace (Z.of_nat i + 1) with (Z.of_nat (S i)) by lia.
    destruct (IH (S i) (<[i := c]> password)) as (tail & E & Ht);
      [lia|rewrite length_insert; exact Hl|].
    exists (c :: tail). rewrite E. split.
    + f_equal. rewrite (take_S_r _ _ c) by (apply list_lookup_insert_eq; lia).
      rewrite take_insert_ge by lia. rewrite <- app_assoc. reflexivity.
    + cbn [seq]. constructor; assumption.
Qed.

Lemma generateRandomPassword_ok (stream : nat -> Byte.byte) (n : Z) :
  0 <= n ->
  exists pw,
    generateRandomPassword (RandOk stream) n = Returned pw /\
    Forall2 (fun j c => selected (stream j) = Some c) (seq 0 (Z.to_nat n)) pw.
Proof.
  intros Hn. unfold generateRandomPassword.
  replace (n <? 0) with false by (symmetry; apply Z.ltb_ge; exact Hn).
  destruct (password_loop_fills stream (Z.to_nat n) (Z.to_nat n) 0
              (replicate (Z.to_nat n) Byte.x00)) as (tail & E & Ht);
    [lia|apply length_replicate|].
  exists tail. split; [exact E|exact Ht].
Qed.

Lemma selected_in_charset (l : list nat) (stream : nat -> Byte.byte)
    (pw : list Byte.byte) :
  Forall2 (fun j c => selected (stream j) = Some c) l pw ->
  Forall (fun c => c ∈ charset_bytes) pw.
Proof.
  induction 1 as [|j c l pw Hc _ IH]; constructor; [|exact IH].
  destruct (selected_some (stream j)) as (c' & Hs & Hin & _). congruence.
Qed.





Lemma selectors_table :
  forallb (fun k =>
             bool_decide (selectors k =
                          [k; k + 70; k + 140] ++
                          (if k <? 46 then [k + 210] else [])))
          (seqZ 0 70) = true.
Proof. vm_compute. reflexivity. Qed.

(** X4: the character at position [k] of the charset is selected by the
    byte values [k], [k + 70], [k + 140] and, only when [k < 46], [k + 210];
    the 70 characters are distinct.  So of the 256 byte values the first 46
    characters have four each and the other 24 have three: random bytes that
    are uniform do not give characters that are. *)
Theorem charset_bias (k : Z) :
  0 <= k < Z.of_nat (length charset_bytes) ->
  selectors k = [k; k + 70; k + 140] ++ (if k <? 46 then [k + 210] else []) /\
  NoDup charset_bytes.
Proof.
  intros Hk. split.
  - pose proof selectors_table as T. rewrite forallb_forall in T.
    assert (In k (seqZ 0 70)) as Hin.
    { apply list_elem_of_In, elem_of_seqZ.
      change (Z.of_nat (length charset_bytes)) with 70 in Hk. lia. }
    apply T in Hin. apply bool_decide_eq_true in Hin. exact Hin.
  - apply (NoDup_fmap_1 Byte.to_N). apply (bool_decide_unpack _). vm_compute. exact I.
Qed.

Lemma charset_bias_witness :
  selectors 45 = [45; 115; 185; 255] /\ NoDup charset_bytes.
Proof. apply (charset_bias 45). vm_compute. split; congruence. Defined.

(** ** The sweep at the edges of its configuration *)

Lemma calculateStats_nothing (unrep : float -> Z) (h : Slices.heap) (cost : Z)
    (durations : Slices.slice) :
  Slices.len durations = 0%nat ->
  calculateStats unrep h cost durations = (h ++ [[]], Panicked IntegerDivideByZero).
Proof.
  intros H. unfold calculateStats. rewrite H. rewrite make_returns by lia.
  unfold Slices.sort, Slices.copy, Slices.elems.
  cbn [Slices.ptr Slices.len Z.to_nat Z.of_nat Nat.min take drop app replicate].
  rewrite H. cbn [Nat.min take drop app].
  rewrite insert_last, array_last. cbn [drop merge_sort app].
  rewrite insert_last, array_last. reflexivity.
Qed.

(** X5: [calculateStats] on a slice of length 0 panics with an integer
    division by zero: [calculateMean] divides by the length without a
    check, whereas [calculateStdDev] returns 0 on the same input. *)
Theorem reduction_of_nothing (unrep : float -> Z) (h : Slices.heap) (cost : Z)
    (durations : Slices.slice) :
  Slices.len durations = 0%nat ->
  snd (calculateStats unrep h cost durations) = Panicked IntegerDivideByZero /\
  calculateMean (Slices.elems h durations) = Panicked IntegerDivideByZero /\
  calculateStdDev unrep (Slices.elems h durations) 0 = 0.
Proof.
  intros H. rewrite calculateStats_nothing by exact H.
  unfold Slices.elems. rewrite H. auto.
Qed.

Lemma reduction_of_nothing_witness :
  snd (calculateStats Float64.amd64 [[0; 0]] 10 (Slices.Slice 0 0 2)) =
  Panicked IntegerDivideByZero.
Proof.
  apply (proj1 (reduction_of_nothing Float64.amd64 [[0; 0]] 10 (Slices.Slice 0 0 2)
                  eq_refl)).
Defined.



(** X7: what the check [StartCost <= EndCost] in [parseFlags] keeps away
    from [runBenchmark].  With [EndCost = StartCost - 1] the sweep returns
    no result, invokes nothing and prints the clearing of the line only;
    with [EndCost < StartCost - 1] it panics in [make] of the results
    (capacity out of range). *)
Theorem sweep_of_empty_range (unrep : float -> Z) (hash : primitive)
    (cfg : Config.t) (pw : list Byte.byte) (fuel : nat) (w : world) :
  Config.EndCost cfg < Config.StartCost cfg ->
  Int64.min_int <= Config.EndCost cfg - Config.StartCost cfg ->
  (1 <= fuel)%nat ->
  (Config.EndCost cfg = Config.StartCost cfg - 1 ->
   runBenchmark unrep hash cfg pw fuel w = (print w ClearLine, Returned [])) /\
  (Config.EndCost cfg < Config.StartCost cfg - 1 ->
   runBenchmark unrep hash cfg pw fuel w = (w, Panicked MakesliceCapOutOfRange)).
Proof.
  intros H1 H2 Hf. unfold runBenchmark.
  assert (Int64.add (Int64.sub (Config.EndCost cfg) (Config.StartCost cfg)) 1
          = Config.EndCost cfg - Config.StartCost cfg + 1) as ->.
  { unfold Int64.sub.
    rewrite wrap_in_range
      by (unfold Int64.in_range, Int64.min_int, Int64.max_int in *; lia).
    apply add_one. unfold Int64.min_int, Int64.max_int in *. lia. }
  split; intros H.
  - replace (_ <? 0) with false by (symmetry; apply Z.ltb_ge; lia).
    destruct fuel as [|fuel]; [lia|]. cbn [cost_loop].
    replace (Config.StartCost cfg <=? Config.EndCost cfg) with false
      by (symmetry; apply Z.leb_gt; lia).
    reflexivity.
  - replace (_ <? 0) with true by (symmetry; apply Z.ltb_lt; lia). reflexivity.
Qed.

Lemma sweep_of_empty_range_witness :
  runBenchmark Float64.amd64 steady empty_range example_password 1 initial_world
  = (print initial_world ClearLine, Returned []).
Proof.
  apply (proj1 (sweep_of_empty_range Float64.amd64 steady empty_range
                  example_password 1 initial_world
                  ltac:(simpl; lia) ltac:(vm_compute; congruence) ltac:(lia))).
  reflexivity.
Defined.



(** ** Every run of the sweep that returns *)

Lemma spinner_next (idx : Z) :
  0 <= idx < 10 ->
  Z.rem (Int64.add idx 1) (Z.of_nat (length spinnerFrames)) = (idx + 1) mod 10.
Proof.
  intros H. rewrite add_one by (unfold Int64.min_int, Int64.max_int; lia).
  change (Z.of_nat (length spinnerFrames)) with 10.
  apply Z.rem_mod_nonneg; lia.
Qed.

Lemma iterations_loop_run (hash : primitive) (cfg : Config.t)
    (pw : list Byte.byte) (cost : Z) (fuel : nat) :
  forall (iter idx : Z) (s : Slices.slice) (w w' : world) (idx' : Z)
         (s' : Slices.slice),
    Config.Iterations cfg < Int64.max_int ->
    1 <= iter <= Config.Iterations cfg + 1 ->
    0 <= idx < 10 ->
    (Slices.ptr s < length (heap w))%nat ->
    Slices.len s = Z.to_nat (iter - 1) ->
    Slices.cap s = Z.to_nat (Config.Iterations cfg) ->
    length (Slices.array (heap w) s) = Z.to_nat (Config.Iterations cfg) ->
    iterations_loop hash cfg pw fuel cost iter idx s w = (w', Returned (idx', s')) ->
    s' = Slices.Slice (Slices.ptr s) (Z.to_nat (Config.Iterations cfg))
           (Slices.cap s) /\
    idx' = (idx + (Config.Iterations cfg - iter + 1)) mod 10 /\
    invocations w' =
    (invocations w + Z.to_nat (Config.Iterations cfg - iter + 1))%nat /\
    stdout w' =
    stdout w ++
    map (fun j => Progress (frame ((idx + Z.of_nat j + 1) mod 10)) cost
                    (iter + Z.of_nat j) (Config.Iterations cfg))
        (seq 0 (Z.to_nat (Config.Iterations cfg - iter + 1))) /\
    length (heap w') = length (heap w) /\
    (forall l, l <> Slices.ptr s -> heap w' !! l = heap w !! l) /\
    exists ds,
      heap w' !! Slices.ptr s =
      Some (take (Slices.len s) (Slices.array (heap w) s) ++ ds) /\
      Forall2 (fun j d => hash j pw cost = HashOk d)
              (seq (invocations w) (Z.to_nat (Config.Iterations cfg - iter + 1)))
              ds.
Proof.
  induction fuel as [|fuel IH]; intros iter idx s w w' idx' s' HI Hi Hx Hp Hl Hc Ha;
    cbn [iterations_loop]; [discriminate|].
  destruct (iter <=? Config.Iterations cfg) eqn:Ei.
  - apply Z.leb_le in Ei.
    pose proof (spinner_next idx Hx) as Hnext.
    destruct (spinner_step idx Hx) as [Hx' ->].
    set (idx1 := Z.rem (Int64.add idx 1) (Z.of_nat (length spinnerFrames))) in *.
    cbn [print invocations heap].
    destruct (hash (invocations w) pw cost) as [d|e] eqn:Eh; [|discriminate].
    unfold Slices.append.
    replace (Slices.len s <? Slices.cap s)%nat with true
      by (symmetry; apply Nat.ltb_lt; lia).
    rewrite add_one by (unfold Int64.min_int; lia).
    match goal with
    | |- context [iterations_loop _ _ _ _ _ _ _ ?s0 ?w0] =>
        set (s2 := s0); set (w2 := w0)
    end.
    assert (heap w2 = <[Slices.ptr s := <[Slices.len s := d]>
                          (Slices.array (heap w) s)]> (heap w)) as Hh2 by reflexivity.
    assert (invocations w2 = S (invocations w)) as Hn2 by reflexivity.
    assert (stdout w2 =
            stdout w ++ [Progress (frame idx1) cost iter (Config.Iterations cfg)])
      as Ho2 by reflexivity.
    assert (Slices.ptr s2 = Slices.ptr s /\ Slices.len s2 = S (Slices.len s) /\
            Slices.cap s2 = Slices.cap s) as (Hp2 & Hl2 & Hc2) by (repeat split).
    clearbody s2 w2.
    assert (Slices.ptr s2 < length (heap w2))%nat as A1
      by (rewrite Hh2, Hp2, length_insert; exact Hp).
    assert (Slices.array (heap w2) s2 =
            <[Slices.len s := d]> (Slices.array (heap w) s)) as Ha2.
    { unfold Slices.array at 1. rewrite Hh2, Hp2.
      rewrite list_lookup_insert_eq by exact Hp. reflexivity. }
    assert (length (Slices.array (heap w2) s2) = Z.to_nat (Config.Iterations cfg))
      as A2 by (rewrite Ha2, length_insert; exact Ha).
    intros E.
    destruct (IH (iter + 1) idx1 s2 w2 w' idx' s' HI ltac:(lia) Hx' A1 ltac:(lia)
                ltac:(lia) A2 E)
      as (Es & Ex & En & Eo & Eh' & Efr & ds & Ed & Ef).
    replace (Z.to_nat (Config.Iterations cfg - iter + 1))
      with (S (Z.to_nat (Config.Iterations cfg - (iter + 1) + 1))) by lia.
    set (R := Z.to_nat (Config.Iterations cfg - (iter + 1) + 1)) in *.
    split; [rewrite Es, Hp2, Hc2; reflexivity|].
    split.
    { rewrite Ex, Hnext, Z.add_mod_idemp_l by lia. f_equal. lia. }
    split; [lia|].
    split.
    { rewrite Eo, Ho2, <- app_assoc. f_equal. cbn [seq map app]. f_equal.
      - rewrite Hnext. f_equal; [f_equal; f_equal; lia|lia].
      - rewrite <- seq_shift, map_map. apply map_ext. intros j.
        rewrite Hnext, <- (Z.add_assoc _ (Z.of_nat j) 1), Z.add_mod_idemp_l by lia.
        f_equal; [f_equal; f_equal; lia|lia]. }
    split; [rewrite Eh', Hh2, length_insert; reflexivity|].
    split.
    { intros l Hne. rewrite Efr by (rewrite Hp2; exact Hne). rewrite Hh2.
      apply list_lookup_insert_ne. auto. }
    exists (d :: ds). split.
    + rewrite Hp2 in Ed. rewrite Ed, Hl2, Ha2. f_equal.
      rewrite (take_S_r _ _ d) by (apply list_lookup_insert_eq; lia).
      rewrite take_insert_ge by lia. rewrite <- app_assoc. reflexivity.
    + cbn [seq]. constructor; [exact Eh|]. rewrite <- Hn2. exact Ef.
  - apply Z.leb_gt in Ei. intros [= <- <- <-].
    replace (Z.to_nat (Config.Iterations cfg - iter + 1)) with 0%nat by lia.
    replace (Config.Iterations cfg - iter + 1) with 0 by lia.
    split; [destruct s as [p n c]; cbn [Slices.ptr Slices.len Slices.cap] in *;
            subst n; f_equal; lia|].
    split; [rewrite Z.add_0_r, Z.mod_small by lia; reflexivity|].
    split; [lia|]. split; [cbn [seq map]; rewrite app_nil_r; reflexivity|].
    split; [reflexivity|]. split; [reflexivity|].
    exists []. split; [|constructor].
    rewrite app_nil_r. unfold Slices.array in *.
    destruct (lookup_lt_is_Some_2 (heap w) (Slices.ptr s) Hp) as [a Ea].
    rewrite Ea in *. cbn [default from_option id] in *.
    rewrite take_ge by lia. reflexivity.
Qed.

Lemma calculateStats_elems (unrep : float -> Z) (h h' : Slices.heap) (cost : Z)
    (s : Slices.slice) :
  (Slices.ptr s < length h)%nat ->
  (Slices.len s <= length (Slices.array h s))%nat ->
  (Slices.ptr s < length h')%nat ->
  (Slices.len s <= length (Slices.array h' s))%nat ->
  Slices.elems h s = Slices.elems h' s ->
  snd (calculateStats unrep h cost s) = snd (calculateStats unrep h' cost s).
Proof.
  intros Hp Hl Hp' Hl' E. rewrite !calculateStats_sorted by assumption.
  cbn [snd]. rewrite E. reflexivity.
Qed.

(** One level of a sweep that goes on: the samples are in a new array, in
    the order of the invocations, and the sorted copy is in the next. *)
Lemma level_run (unrep : float -> Z) (hash : primitive) (cfg : Config.t)
    (pw : list Byte.byte) (fuel : nat) (cost idx : Z) (w w1 : world) (idx1 : Z)
    (s1 : Slices.slice) (h2 : Slices.heap) (r : CostResult.t) :
  1 <= Config.Iterations cfg ->
  0 <= idx < 10 ->
  iterations_loop hash cfg pw fuel cost 1 idx
    (Slices.Slice (length (heap w)) (Z.to_nat 0) (Z.to_nat (Config.Iterations cfg)))
    (with_heap w (heap w ++ [replicate (Z.to_nat (Config.Iterations cfg)) 0]))
  = (w1, Returned (idx1, s1)) ->
  calculateStats unrep (heap w1) cost s1 = (h2, Returned r) ->
  0 <= idx1 < 10 /\
  idx1 = (idx + Config.Iterations cfg) mod 10 /\
  invocations w1 = (invocations w + Z.to_nat (Config.Iterations cfg))%nat /\
  stdout w1 =
  stdout w ++
  map (fun j => Progress (frame ((idx + Z.of_nat j + 1) mod 10)) cost
                  (1 + Z.of_nat j) (Config.Iterations cfg))
      (seq 0 (Z.to_nat (Config.Iterations cfg))) /\
  CostResult.Cost r = cost /\
  CostResult.Durations r =
  Slices.Slice (length (heap w)) (Z.to_nat (Config.Iterations cfg))
    (Z.to_nat (Config.Iterations cfg)) /\
  exists ds,
    h2 = heap w ++ [ds; merge_sort Z.le ds] /\
    length ds = Z.to_nat (Config.Iterations cfg) /\
    timed hash pw cost (invocations w) ds /\
    snd (calculateStats unrep (heap w ++ [ds]) cost (CostResult.Durations r))
    = Returned r.
Proof.
  intros HI Hx El Es.
  set (I := Config.Iterations cfg) in *.
  destruct (Z_lt_le_dec I Int64.max_int) as [Hlt|Hge].
  2:{ exfalso. revert El. apply iterations_loop_never; [exact Hge|].
      unfold Int64.in_range, Int64.min_int, Int64.max_int. lia. }
  set (s := Slices.Slice (length (heap w)) (Z.to_nat 0) (Z.to_nat I)) in *.
  set (w0 := with_heap w (heap w ++ [replicate (Z.to_nat I) 0])) in *.
  assert (Slices.ptr s < length (heap w0))%nat as A1.
  { unfold w0. cbn [with_heap heap s Slices.ptr]. rewrite length_app. cbn. lia. }
  assert (length (Slices.array (heap w0) s) = Z.to_nat I) as A2.
  { unfold w0, s. cbn [with_heap heap]. rewrite array_last, length_replicate.
    reflexivity. }
  destruct (iterations_loop_run hash cfg pw cost fuel 1 idx s w0 w1 idx1 s1 Hlt
              ltac:(fold I; lia) Hx A1 eq_refl eq_refl A2 El)
    as (E1 & Ex & En & Eo & Eh & Efr & ds & Ed & Ef).
  fold I in E1, Ex, En, Eo, Ed, Ef.
  replace (I - 1 + 1) with I in * by lia.
  cbn [s Slices.ptr Slices.len Slices.cap Z.to_nat take app] in E1, Ed, Efr.
  cbn [w0 with_heap heap invocations stdout] in En, Eo, Eh, Efr, Ef.
  pose proof (Forall2_length _ _ _ Ef) as Hlen. rewrite length_seq in Hlen.
  assert (heap w1 = heap w ++ [ds]) as Hh1.
  { apply list_eq. intros i.
    destruct (Nat.eq_dec i (length (heap w))) as [->|Hne].
    - rewrite Ed. rewrite lookup_app_r by lia. rewrite Nat.sub_diag. reflexivity.
    - rewrite Efr by exact Hne.
      destruct (Nat.lt_ge_cases i (length (heap w))) as [Hi|Hi].
      + rewrite !lookup_app_l by exact Hi. reflexivity.
      + rewrite !lookup_ge_None_2; [reflexivity| |];
          rewrite length_app; cbn [length]; lia. }
  assert (Slices.array (heap w1) s1 = ds) as Harr.
  { rewrite Hh1, E1. apply array_last. }
  assert (Slices.elems (heap w1) s1 = ds) as Hel.
  { unfold Slices.elems. rewrite Harr, E1. cbn [Slices.len].
    apply take_ge. lia. }
  assert (snd (calculateStats unrep (heap w1) cost s1) = Returned r) as Esnd
    by (rewrite Es; reflexivity).
  pose proof (calculateStats_sorted unrep (heap w1) cost s1) as Hs.
  rewrite Hel in Hs. rewrite Hs in Es.
  2:{ rewrite Hh1, E1. cbn [Slices.ptr]. rewrite length_app. cbn. lia. }
  2:{ rewrite Harr, E1. cbn [Slices.len]. lia. }
  pose proof (calculateStats_result unrep (heap w1) cost s1 r) as Hr.
  rewrite Hs in Hr.
  2:{ rewrite Hh1, E1. cbn [Slices.ptr]. rewrite length_app. cbn. lia. }
  2:{ rewrite Harr, E1. cbn [Slices.len]. lia. }
  injection Es as Eh2 Er. cbn [snd] in Hr. destruct (Hr Er) as (Hc & Hd & _).
  split; [rewrite Ex; apply Z.mod_pos_bound; lia|].
  split; [exact Ex|]. split; [exact En|]. split; [exact Eo|].
  split; [exact Hc|]. split; [rewrite Hd; exact E1|].
  exists ds. split; [rewrite <- Eh2, Hh1, <- app_assoc; reflexivity|].
  split; [lia|]. split; [unfold timed; rewrite <- Hlen; exact Ef|].
  rewrite Hd, <- Hh1. exact Esnd.
Qed.

Lemma progress_first (total cost idx : Z) (n : nat) :
  0 < total -> Z.of_nat n <= total ->
  map (progress_line total cost idx) (seq 0 n) =
  map (fun j => Progress (frame ((idx + Z.of_nat j + 1) mod 10)) cost
                  (1 + Z.of_nat j) total) (seq 0 n).
Proof.
  intros Ht Hn. apply map_ext_in. intros j Hj. apply in_seq in Hj.
  unfold progress_line.
  rewrite (Z.div_small (Z.of_nat j) total), (Z.mod_small (Z.of_nat j) total) by lia.
  f_equal; lia.
Qed.

Lemma progress_next (total cost idx : Z) (n m : nat) :
  0 < total -> Z.of_nat n = total ->
  map (progress_line total cost idx) (seq n m) =
  map (progress_line total (cost + 1) ((idx + total) mod 10)) (seq 0 m).
Proof.
  intros Ht Hn.
  replace (seq n m) with (map (Nat.add n) (seq 0 m))
    by (rewrite <- (Nat.add_0_r n) at 2; apply (fmap_add_seq n 0 m)).
  rewrite map_map. apply map_ext. intros j. unfold progress_line.
  rewrite Nat2Z.inj_add, Hn.
  replace (total + Z.of_nat j) with (Z.of_nat j + 1 * total) by lia.
  rewrite Z.div_add, Z.mod_add by lia.
  rewrite <- (Z.add_assoc _ (Z.of_nat j) 1), Z.add_mod_idemp_l by lia.
  f_equal; [f_equal; f_equal; lia|lia].
Qed.

(** The outer loop, whenever it returns. *)
Lemma cost_loop_run (unrep : float -> Z) (hash : primitive) (cfg : Config.t)
    (pw : list Byte.byte) (fuel : nat) :
  forall (cost idx : Z) (results : list CostResult.t) (w w' : world)
         (out : list CostResult.t),
    1 <= Config.Iterations cfg ->
    Int64.min_int <= cost ->
    Config.EndCost cfg < Int64.max_int ->
    0 <= idx < 10 ->
    cost_loop unrep hash cfg pw fuel cost idx results w = (w', Returned out) ->
    exists new,
      out = results ++ new /\
      invocations w' =
      (invocations w + length new * Z.to_nat (Config.Iterations cfg))%nat /\
      stdout w' =
      stdout w ++
      map (progress_line (Config.Iterations cfg) cost idx)
          (seq 0 (length new * Z.to_nat (Config.Iterations cfg))) /\
      (exists ext, heap w' = heap w ++ ext) /\
      forall (l : nat) (r : CostResult.t),
        new !! l = Some r ->
        CostResult.Cost r = cost + Z.of_nat l /\
        length (Slices.elems (heap w') (CostResult.Durations r)) =
        Z.to_nat (Config.Iterations cfg) /\
        timed hash pw (cost + Z.of_nat l)
          (invocations w + l * Z.to_nat (Config.Iterations cfg))
          (Slices.elems (heap w') (CostResult.Durations r)) /\
        in_heap (heap w') (CostResult.Durations r) /\
        snd (calculateStats unrep (heap w') (cost + Z.of_nat l)
               (CostResult.Durations r)) = Returned r.
Proof.
  induction fuel as [|fuel IH]; intros cost idx results w w' out HI Hc HE Hx;
    cbn [cost_loop]; [discriminate|].
  destruct (cost <=? Config.EndCost cfg) eqn:Ec.
  - apply Z.leb_le in Ec. rewrite make_returns by lia.
    destruct (iterations_loop hash cfg pw fuel cost 1 idx _ _) as [w1 [[idx1 s1]| | |]]
      eqn:El; try discriminate.
    destruct (calculateStats unrep (heap w1) cost s1) as [h2 [r| | |]] eqn:Es;
      try discriminate.
    destruct (level_run unrep hash cfg pw fuel cost idx w w1 idx1 s1 h2 r HI Hx El Es)
      as (Hx1 & Ex1 & En1 & Eo1 & Hrc & Hrd & ds & Eh2 & Hds & Ht & Er).
    rewrite add_one by lia. intros E.
    apply IH in E; [|exact HI|lia|exact HE|exact Hx1].
    destruct E as (new & -> & En & Eo & [ext Eh] & Hall).
    cbn [with_heap heap invocations stdout] in En, Eo, Eh, Hall.
    set (I := Config.Iterations cfg) in *.
    exists (r :: new). cbn [length].
    split; [rewrite <- app_assoc; reflexivity|].
    split; [lia|]. split.
    { rewrite Eo, Eo1, <- app_assoc. f_equal.
      replace (S (length new) * Z.to_nat I)%nat
        with (Z.to_nat I + length new * Z.to_nat I)%nat by lia.
      rewrite seq_app, map_app. f_equal.
      - symmetry. apply progress_first; lia.
      - rewrite Ex1. symmetry. apply progress_next; lia. }
    split; [exists ([ds; merge_sort Z.le ds] ++ ext);
            rewrite Eh, Eh2, <- app_assoc; reflexivity|].
    intros [|l] r' Hr'.
    + cbn in Hr'. injection Hr' as <-.
      assert (Slices.array (heap w') (CostResult.Durations r) = ds) as Harr.
      { unfold Slices.array. rewrite Hrd, Eh, Eh2.
        cbn [Slices.ptr]. rewrite <- app_assoc.
        rewrite lookup_app_r by lia. rewrite Nat.sub_diag. reflexivity. }
      assert (Slices.len (CostResult.Durations r) = Z.to_nat I) as Hlr
        by (rewrite Hrd; reflexivity).
      assert (Slices.elems (heap w') (CostResult.Durations r) = ds) as Hel.
      { unfold Slices.elems. rewrite Harr, Hlr. apply take_ge. lia. }
      assert (in_heap (heap w') (CostResult.Durations r)) as Hin.
      { split; [|rewrite Harr, Hlr; lia].
        rewrite Eh, Eh2, Hrd. cbn [Slices.ptr]. rewrite !length_app.
        cbn [length]. lia. }
      rewrite Hel, Z.add_0_r, Nat.mul_0_l, Nat.add_0_r.
      split; [exact Hrc|]. split; [exact Hds|]. split; [exact Ht|].
      split; [exact Hin|].
      rewrite <- Er. symmetry. destruct Hin as [Hin1 Hin2].
      apply calculateStats_elems; try assumption.
      * rewrite Hrd. cbn [Slices.ptr]. rewrite length_app. cbn [length]. lia.
      * rewrite Hrd at 2. rewrite array_last, Hlr. lia.
      * rewrite Hel. unfold Slices.elems. rewrite Hrd at 2.
        rewrite array_last, Hlr. rewrite take_ge by lia. reflexivity.
    + cbn in Hr'. destruct (Hall l r' Hr') as (Hc' & Hl' & Ht' & Hin' & Er').
      split; [lia|]. split; [exact Hl'|].
      replace (cost + Z.of_nat (S l)) with (cost + 1 + Z.of_nat l) by lia.
      replace (invocations w + S l * Z.to_nat I)%nat
        with (invocations w1 + l * Z.to_nat I)%nat by lia.
      auto.
  - intros [= <- <-]. exists []. rewrite app_nil_r. cbn [length Nat.mul seq map].
    rewrite app_nil_r. split; [reflexivity|]. split; [lia|].
    split; [reflexivity|]. split; [exists []; rewrite app_nil_r; reflexivity|].
    intros l r Hr. discriminate.
Qed.

(** X9: every sweep that returns (with [Iterations >= 1]) has printed one
    progress line per invocation and then the clearing of the line, once:
    the [t]-th line, counted from 0, shows the spinner frame
    [(t + 1) mod 10], the cost [StartCost + t / Iterations] and the iteration
    [t mod Iterations + 1] of [Iterations].  The primitive was invoked
    [len(results) * Iterations] times. *)
Theorem sweep_progress (unrep : float -> Z) (hash : primitive) (cfg : Config.t)
    (pw : list Byte.byte) (fuel : nat) (w w' : world)
    (results : list CostResult.t) :
  1 <= Config.Iterations cfg ->
  Int64.min_int <= Config.StartCost cfg ->
  Config.EndCost cfg < Int64.max_int ->
  runBenchmark unrep hash cfg pw fuel w = (w', Returned results) ->
  stdout w' =
  stdout w ++
  map (progress_line (Config.Iterations cfg) (Config.StartCost cfg) 0)
      (seq 0 (length results * Z.to_nat (Config.Iterations cfg))) ++
  [ClearLine] /\
  invocations w' =
  (invocations w + length results * Z.to_nat (Config.Iterations cfg))%nat.
Proof.
  intros HI HS HE. unfold runBenchmark.
  destruct (_ <? 0); [discriminate|].
  destruct (cost_loop unrep hash cfg pw fuel (Config.StartCost cfg) 0 [] w)
    as [w1 [out| | |]] eqn:E; try discriminate.
  intros [= <- <-].
  apply cost_loop_run in E; [|exact HI|exact HS|exact HE|lia].
  destruct E as (new & -> & En & Eo & _ & _). cbn [app print stdout invocations].
  rewrite Eo, <- app_assoc. split; [reflexivity|exact En].
Qed.

Lemma sweep_progress_witness :
  stdout (fst (runBenchmark Float64.amd64 steady example_cfg example_password 10
                 initial_world)) =
  stdout initial_world ++
  map (progress_line 2 4 0)
      (seq 0 (length (delivered (snd (runBenchmark Float64.amd64 steady
                                        example_cfg example_password 10
                                        initial_world))) * Z.to_nat 2)) ++
  [ClearLine] /\
  invocations (fst (runBenchmark Float64.amd64 steady example_cfg
                      example_password 10 initial_world)) =
  (invocations initial_world +
   length (delivered (snd (runBenchmark Float64.amd64 steady example_cfg
                             example_password 10 initial_world))) * Z.to_nat 2)%nat.
Proof.
  apply (sweep_progress Float64.amd64 steady example_cfg example_password 10
           initial_world);
    [simpl; lia|vm_compute; congruence|vm_compute; congruence|
     vm_compute; reflexivity].
Defined.

(** X10: after a sweep that returns (with [Iterations >= 1]), the [l]-th
    result has the cost [StartCost + l], and its [Durations], read in the
    memory the sweep leaves, are [Iterations] samples: the elapsed times of
    the invocations [l * Iterations], [l * Iterations + 1], ... of the
    sweep, in this order, each made at that cost.  Neither the sorting nor
    a later level has written over them. *)
Theorem sweep_samples (unrep : float -> Z) (hash : primitive) (cfg : Config.t)
    (pw : list Byte.byte) (fuel : nat) (w w' : world)
    (results : list CostResult.t) :
  1 <= Config.Iterations cfg ->
  Int64.min_int <= Config.StartCost cfg ->
  Config.EndCost cfg < Int64.max_int ->
  runBenchmark unrep hash cfg pw fuel w = (w', Returned results) ->
  Forall2
    (fun l r =>
       CostResult.Cost r = Config.StartCost cfg + Z.of_nat l /\
       length (Slices.elems (heap w') (CostResult.Durations r)) =
       Z.to_nat (Config.Iterations cfg) /\
       timed hash pw (CostResult.Cost r)
         (invocations w + l * Z.to_nat (Config.Iterations cfg))
         (Slices.elems (heap w') (CostResult.Durations r)))
    (seq 0 (length results)) results.
Proof.
  intros HI HS HE. unfold runBenchmark.
  destruct (_ <? 0); [discriminate|].
  destruct (cost_loop unrep hash cfg pw fuel (Config.StartCost cfg) 0 [] w)
    as [w1 [out| | |]] eqn:E; try discriminate.
  intros [= <- <-].
  apply cost_loop_run in E; [|exact HI|exact HS|exact HE|lia].
  destruct E as (new & -> & _ & _ & _ & Hall). cbn [app print heap].
  apply Forall2_same_length_lookup_2; [apply length_seq|].
  intros i l r Hl Hr. apply lookup_seq in Hl. destruct Hl as [-> _].
  cbn [Nat.add]. destruct (Hall i r Hr) as (Hc & Hn & Ht & _).
  rewrite Hc. auto.
Qed.

Lemma sweep_samples_witness :
  Forall2
    (fun l r =>
       CostResult.Cost r = 4 + Z.of_nat l /\
       length (Slices.elems
                 (heap (fst (runBenchmark Float64.amd64 steady example_cfg
                               example_password 10 initial_world)))
                 (CostResult.Durations r)) = Z.to_nat 2 /\
       timed steady example_password (CostResult.Cost r)
         (invocations initial_world + l * Z.to_nat 2)
         (Slices.elems
            (heap (fst (runBenchmark Float64.amd64 steady example_cfg
                          example_password 10 initial_world)))
            (CostResult.Durations r)))
    (seq 0 (length (delivered (snd (runBenchmark Float64.amd64 steady
                                      example_cfg example_password 10
                                      initial_world)))))
    (delivered (snd (runBenchmark Float64.amd64 steady example_cfg
                       example_password 10 initial_world))).
Proof.
  apply (sweep_samples Float64.amd64 steady example_cfg example_password 10
           initial_world);
    [simpl; lia|vm_compute; congruence|vm_compute; congruence|
     vm_compute; reflexivity].
Defined.

(** ** Every run of the sweep, however it ends *)

Lemma plain_bind {A B : Type} (m : outcome A) (k : A -> outcome B) :
  plain m -> (forall a, plain (k a)) -> plain (m ≫= k).
Proof. destruct m; cbn; auto. Qed.

Lemma index_plain (s : list Z) (i : Z) : plain (index s i).
Proof.
  unfold index. destruct (_ && _); [|exact I]. destruct (s !! _); exact I.
Qed.

Lemma calculatePercentile_plain (unrep : float -> Z) (data : list Z) (p : float) :
  plain (calculatePercentile unrep data p).
Proof.
  unfold calculatePercentile.
  destruct (_ =? 0); [exact I|]. destruct (_ =? 1); [apply index_plain|].
  destruct (_ >=? _); [apply index_plain|].
  apply plain_bind; [apply index_plain|]. intros lo.
  apply plain_bind; [apply index_plain|]. intros hi. exact I.
Qed.

Lemma calculateStats_plain (unrep : float -> Z) (h : Slices.heap) (cost : Z)
    (durations : Slices.slice) :
  plain (snd (calculateStats unrep h cost durations)).
Proof.
  unfold calculateStats. rewrite make_returns by lia. cbn [snd].
  apply plain_bind.
  { unfold calculateMean. destruct (_ =? 0); exact I. }
  intros mean.
  apply plain_bind; [apply calculatePercentile_plain|]. intros p25.
  apply plain_bind; [apply calculatePercentile_plain|]. intros p75.
  apply plain_bind; [apply calculatePercentile_plain|]. intros p95.
  apply plain_bind; [apply calculatePercentile_plain|]. intros p99.
  exact I.
Qed.

Lemma make_plain (h : Slices.heap) (n c : Z) : plain (Slices.make h n c).
Proof.
  unfold Slices.make. destruct (_ <? _); [exact I|]. destruct (_ <? _); exact I.
Qed.

Lemma failed_invocation_later (hash : primitive) (pw : list Byte.byte)
    (w' : world) (e : list event) (out : list event) (msg : string) :
  failed_invocation hash pw w' out msg ->
  failed_invocation hash pw w' (e ++ out) msg.
Proof.
  intros (k & err & fr & c & it & tot & before & -> & Hn & Hh & Hm).
  exists k, err, fr, c, it, tot, (e ++ before).
  rewrite <- app_assoc. auto.
Qed.

Lemma iterations_loop_exit (hash : primitive) (cfg : Config.t)
    (pw : list Byte.byte) (cost : Z) (fuel : nat) :
  forall (iter idx : Z) (s : Slices.slice) (w w' : world)
         (o : outcome (Z * Slices.slice)),
    iterations_loop hash cfg pw fuel cost iter idx s w = (w', o) ->
    exists out,
      stdout w' = stdout w ++ out /\
      Forall is_progress out /\
      forall msg, o = Fatal msg -> failed_invocation hash pw w' out msg.
Proof.
  induction fuel as [|fuel IH]; intros iter idx s w w' o; cbn [iterations_loop].
  - intros [= <- <-]. exists []. rewrite app_nil_r.
    split; [reflexivity|]. split; [constructor|discriminate].
  - destruct (iter <=? Config.Iterations cfg).
    + destruct (_ && _).
      * cbn [print invocations heap].
        destruct (hash (invocations w) pw cost) as [d|err] eqn:Eh.
        -- destruct (Slices.append (heap w) s d) as [h2 s2].
           intros E. apply IH in E. destruct E as (out & Eo & Hp & Hf).
           cbn [with_heap invoked print stdout] in Eo.
           eexists (_ :: out). split; [rewrite Eo, <- app_assoc; reflexivity|].
           split; [constructor; [exact I|exact Hp]|].
           intros msg Hm.
           apply (failed_invocation_later hash pw w' [_] out msg). auto.
        -- intros [= <- <-]. eexists [_]. split; [reflexivity|].
           split; [constructor; [exact I|constructor]|].
           intros msg [= <-].
           eexists (invocations w), err, _, cost, iter, _, []. auto.
      * intros [= <- <-]. exists []. rewrite app_nil_r.
        split; [reflexivity|]. split; [constructor|discriminate].
    + intros [= <- <-]. exists []. rewrite app_nil_r.
      split; [reflexivity|]. split; [constructor|discriminate].
Qed.

Lemma cost_loop_exit (unrep : float -> Z) (hash : primitive) (cfg : Config.t)
    (pw : list Byte.byte) (fuel : nat) :
  forall (cost idx : Z) (results : list CostResult.t) (w w' : world)
         (o : outcome (list CostResult.t)),
    cost_loop unrep hash cfg pw fuel cost idx results w = (w', o) ->
    exists out,
      stdout w' = stdout w ++ out /\
      Forall is_progress out /\
      forall msg, o = Fatal msg -> failed_invocation hash pw w' out msg.
Proof.
  assert (forall (w : world), exists out : list event,
            stdout w = stdout w ++ out /\ Forall is_progress out) as Hnil
    by (intros w0; exists []; rewrite app_nil_r; split; [reflexivity|constructor]).
  induction fuel as [|fuel IH]; intros cost idx results w w' o; cbn [cost_loop].
  - intros [= <- <-]. destruct (Hnil w) as (out & ? & ?).
    exists out. repeat split; auto. discriminate.
  - destruct (cost <=? Config.EndCost cfg).
    2:{ intros [= <- <-]. destruct (Hnil w) as (out & ? & ?).
        exists out. repeat split; auto. discriminate. }
    pose proof (make_plain (heap w) 0 (Config.Iterations cfg)) as Hmk.
    destruct (Slices.make (heap w) 0 (Config.Iterations cfg)) as [[h s]|p|msg0|];
      cbn [plain] in Hmk; try contradiction.
    2:{ intros [= <- <-]. destruct (Hnil w) as (out & ? & ?).
        exists out. repeat split; auto. discriminate. }
    destruct (iterations_loop hash cfg pw fuel cost 1 idx s (with_heap w h))
      as [w1 o1] eqn:El.
    apply iterations_loop_exit in El. destruct El as (out1 & Eo1 & Hp1 & Hf1).
    cbn [with_heap stdout] in Eo1.
    destruct o1 as [[idx1 s1]|p|msg1|].
    + pose proof (calculateStats_plain unrep (heap w1) cost s1) as Hpl.
      destruct (calculateStats unrep (heap w1) cost s1) as [h2 [r|p|msg2|]];
        cbn [snd plain] in Hpl; try contradiction.
      * intros E. apply IH in E. destruct E as (out & Eo & Hp & Hf).
        cbn [with_heap stdout] in Eo.
        exists (out1 ++ out). split; [rewrite Eo, Eo1, <- app_assoc; reflexivity|].
        split; [apply Forall_app; auto|].
        intros msg Hm. apply failed_invocation_later. auto.
      * intros [= <- <-]. exists out1. cbn [with_heap stdout].
        split; [exact Eo1|]. split; [exact Hp1|discriminate].
    + intros [= <- <-]. exists out1.
      split; [exact Eo1|]. split; [exact Hp1|discriminate].
    + intros [= <- <-]. exists out1.
      split; [exact Eo1|]. split; [exact Hp1|].
      intros msg [= <-]. apply Hf1. reflexivity.
    + intros [= <- <-]. exists out1.
      split; [exact Eo1|]. split; [exact Hp1|discriminate].
Qed.

(** X11: however [runBenchmark] ends, what it has printed are progress
    lines, followed by the clearing of the line exactly when it returns.
    When it exits through [log.Fatalf], a failed invocation is the cause:
    the invocation made last returned an error, the message is that
    error's, and the line printed last is the progress line of that
    invocation. *)
Theorem sweep_exits (unrep : float -> Z) (hash : primitive) (cfg : Config.t)
    (pw : list Byte.byte) (fuel : nat) (w w' : world)
    (o : outcome (list CostResult.t)) :
  runBenchmark unrep hash cfg pw fuel w = (w', o) ->
  exists out,
    stdout w' = stdout w ++ out ++ cleared o /\
    Forall is_progress out /\
    forall msg, o = Fatal msg -> failed_invocation hash pw w' out msg.
Proof.
  unfold runBenchmark. destruct (_ <? 0).
  - intros [= <- <-]. exists []. cbn. rewrite app_nil_r.
    split; [reflexivity|]. split; [constructor|discriminate].
  - destruct (cost_loop unrep hash cfg pw fuel (Config.StartCost cfg) 0 [] w)
      as [w1 o1] eqn:E.
    apply cost_loop_exit in E. destruct E as (out & Eo & Hp & Hf).
    destruct o1 as [results|p|msg1|]; intros [= <- <-]; exists out;
      cbn [cleared print stdout]; rewrite ?app_nil_r, ?app_assoc, ?Eo;
      (split; [reflexivity|]); (split; [exact Hp|]); try discriminate.
    intros msg Hm. auto.
Qed.

Lemma sweep_exits_witness :
  exists out,
    stdout (fst (runBenchmark Float64.amd64 (failing_at 5) example_cfg
                   example_password 10 initial_world)) =
    stdout initial_world ++ out ++
    cleared (snd (runBenchmark Float64.amd64 (failing_at 5) example_cfg
                    example_password 10 initial_world)) /\
    Forall is_progress out /\
    forall msg,
      snd (runBenchmark Float64.amd64 (failing_at 5) example_cfg
             example_password 10 initial_world) = Fatal msg ->
      failed_invocation (failing_at 5) example_password
        (fst (runBenchmark Float64.amd64 (failing_at 5) example_cfg
                example_password 10 initial_world)) out msg.
Proof.
  apply (sweep_exits Float64.amd64 (failing_at 5) example_cfg example_password
           10 initial_world).
  vm_compute. reflexivity.
Defined.

(** ** The reducer and the order of the samples *)

Lemma merge_sort_perm (l l' : list Z) :
  l ≡ₚ l' -> merge_sort Z.le l = merge_sort Z.le l'.
Proof.
  intros H. apply (StronglySorted_unique Z.le).
  - apply StronglySorted_merge_sort; apply _.
  - apply StronglySorted_merge_sort; apply _.
  - rewrite !merge_sort_Permutation. exact H.
Qed.

Lemma elems_length (h : Slices.heap) (s : Slices.slice) :
  (Slices.len s <= length (Slices.array h s))%nat ->
  length (Slices.elems h s) = Slices.len s.
Proof. intros H. unfold Slices.elems. rewrite length_take. lia. Qed.

(** X12: the figures of a summary (iteration count, mean, standard
    deviation and the four percentiles, or the panic) depend on the samples
    as a multiset only: two slices, in any two memories, whose elements are
    permutations of each other are reduced to the same figures. *)
Theorem summary_of_permutation (unrep : float -> Z) (h h' : Slices.heap)
    (cost : Z) (s s' : Slices.slice) :
  (Slices.ptr s < length h)%nat ->
  (Slices.len s <= length (Slices.array h s))%nat ->
  (Slices.ptr s' < length h')%nat ->
  (Slices.len s' <= length (Slices.array h' s'))%nat ->
  Slices.elems h s ≡ₚ Slices.elems h' s' ->
  reported (snd (calculateStats unrep h cost s)) =
  reported (snd (calculateStats unrep h' cost s')).
Proof.
  intros Hp Hl Hp' Hl' Hperm.
  rewrite !calculateStats_sorted by assumption. cbn [snd].
  rewrite <- (merge_sort_perm _ _ Hperm).
  assert (Slices.len s' = Slices.len s) as ->.
  { rewrite <- (elems_length h s), <- (elems_length h' s') by assumption.
    symmetry. apply Permutation_length, Hperm. }
  set (data := merge_sort Z.le (Slices.elems h s)).
  destruct (calculateMean data) as [mean| | |]; try reflexivity.
  cbn [mbind outcome_bind].
  destruct (calculatePercentile unrep data (Float64.of_int 25)); try reflexivity.
  cbn [mbind outcome_bind].
  destruct (calculatePercentile unrep data (Float64.of_int 75)); try reflexivity.
  cbn [mbind outcome_bind].
  destruct (calculatePercentile unrep data (Float64.of_int 95)); try reflexivity.
  cbn [mbind outcome_bind].
  destruct (calculatePercentile unrep data (Float64.of_int 99)); reflexivity.
Qed.

Lemma summary_of_permutation_witness :
  reported (snd (calculateStats Float64.amd64 [[ms 30; ms 10; ms 20]] 10
                   (Slices.Slice 0 3 3))) =
  reported (snd (calculateStats Float64.amd64 [[]; [ms 10; ms 20; ms 30; 0]] 10
                   (Slices.Slice 1 3 4))).
Proof.
  apply (summary_of_permutation Float64.amd64 [[ms 30; ms 10; ms 20]]
           [[]; [ms 10; ms 20; ms 30; 0]] 10 (Slices.Slice 0 3 3)
           (Slices.Slice 1 3 4));
    try (simpl; lia).
  vm_compute. apply (bool_decide_unpack _). vm_compute. exact I.
Defined.

(** ** The mean between the samples *)

Lemma sum_Z_between (lo hi : Z) (l : list Z) :
  Forall (fun d => lo <= d <= hi) l ->
  lo * Z.of_nat (length l) <= sum_Z l <= hi * Z.of_nat (length l).
Proof.
  induction 1 as [|d l Hd _ IH]; cbn [sum_Z fold_right length].
  - lia.
  - fold (sum_Z l). lia.
Qed.

Lemma quot_between (lo hi a n : Z) :
  0 < n -> lo * n <= a <= hi * n -> lo <= Z.quot a n <= hi.
Proof.
  intros Hn Ha. destruct (Z_le_gt_dec 0 a) as [Hpos|Hneg].
  - rewrite Z.quot_div_nonneg by lia. split.
    + apply Z.div_le_lower_bound; lia.
    + apply Z.div_le_upper_bound; lia.
  - assert (Z.quot a n = - (- a / n)) as ->.
    { rewrite <- (Z.opp_involutive a) at 1.
      rewrite Z.quot_opp_l by lia. rewrite Z.quot_div_nonneg by lia. reflexivity. }
    split.
    + assert (- a / n <= - lo) by (apply Z.div_le_upper_bound; lia). lia.
    + assert (- hi <= - a / n) by (apply Z.div_le_lower_bound; lia). lia.
Qed.

Lemma calculateMean_between (lo hi : Z) (l : list Z) :
  l <> [] ->
  Forall (fun d => lo <= d <= hi) l ->
  Int64.in_range (sum_Z l) ->
  exists mean, calculateMean l = Returned mean /\ lo <= mean <= hi.
Proof.
  intros Hne Hall Hs. destruct l as [|d ds]; [congruence|].
  rewrite calculateMean_sum, wrap_in_range by exact Hs.
  eexists. split; [reflexivity|].
  apply quot_between; [cbn [length]; lia|].
  apply sum_Z_between. exact Hall.
Qed.

(** X13: for a non-empty sequence of durations, negative ones included,
    whose sum fits a 64-bit integer, [calculateMean] returns a value between
    any lower and any upper bound of the samples: the division that
    truncates toward zero does not leave their range. *)
Theorem mean_between (lo hi : Z) (l : list Z) :
  l <> [] ->
  Forall (fun d => lo <= d <= hi) l ->
  Int64.in_range (sum_Z l) ->
  exists mean, calculateMean l = Returned mean /\ lo <= mean <= hi.
Proof. apply calculateMean_between. Qed.

Lemma mean_between_witness :
  exists mean, calculateMean [- ms 3; ms 1; ms 1] = Returned mean /\
               - ms 3 <= mean <= ms 1.
Proof.
  apply (mean_between (- ms 3) (ms 1) [- ms 3; ms 1; ms 1]).
  - discriminate.
  - repeat constructor; vm_compute; congruence.
  - vm_compute. split; congruence.
Defined.

(** ** The percentiles between the samples *)

Lemma pmodel_between (data : list Z) (c lo hi : Z) :
  StronglySorted Z.le data ->
  Forall (fun d => lo <= d <= hi) data ->
  0 <= lo -> hi < 2 ^ 52 ->
  2 <= Z.of_nat (length data) -> 0 <= c ->
  lo <= pmodel data c <= hi.
Proof.
  intros Hs Hd Hlo Hhi Hn Hc. unfold pmodel.
  set (n := Z.of_nat (length data)) in *.
  pose proof (RN_nonneg (c * (n - 1)) ltac:(nia)) as Hr.
  set (r := RN (c * (n - 1))) in *.
  pose proof (Z.mod_pos_bound r (2 ^ 53) ltac:(lia)) as MB.
  assert (0 <= r / 2 ^ 53) as Hi by (apply Z.div_pos; lia).
  set (i := r / 2 ^ 53) in *. set (k := r mod 2 ^ 53) in *.
  assert (forall j, 0 <= j < n -> lo <= nth (Z.to_nat j) data 0 <= hi) as Hnth.
  { intros j Hj. rewrite List.Forall_forall in Hd. apply Hd, nth_In.
    unfold n in Hj. lia. }
  destruct (i + 1 >=? n) eqn:Eu.
  - apply Hnth. lia.
  - assert (i + 1 < n) by (rewrite Z.geb_leb in Eu; apply Z.leb_gt in Eu; lia).
    pose proof (Hnth i ltac:(lia)). pose proof (Hnth (i + 1) ltac:(lia)).
    assert (nth (Z.to_nat i) data 0 <= nth (Z.to_nat (i + 1)) data 0) as Hab
      by (apply sorted_nth; [exact Hs|unfold n in *; lia]).
    pose proof (interp_between (nth (Z.to_nat i) data 0)
                  (nth (Z.to_nat (i + 1)) data 0) k ltac:(lia) ltac:(lia)
                  ltac:(lia)).
    lia.
Qed.

Lemma calculatePercentile_single (unrep : float -> Z) (x : Z) (p : float) :
  calculatePercentile unrep [x] p = Returned x.
Proof. reflexivity. Qed.

Lemma calculatePercentile_between (unrep : float -> Z) (data : list Z)
    (lo hi p : Z) :
  In p [25; 75; 95; 99] ->
  StronglySorted Z.le data ->
  data <> [] ->
  Z.of_nat (length data) <= 2 ^ 52 ->
  Forall (fun d => lo <= d <= hi) data ->
  0 <= lo -> hi < 2 ^ 52 ->
  exists v,
    calculatePercentile unrep data (Float64.of_int p) = Returned v /\
    lo <= v <= hi.
Proof.
  intros Hin Hs Hne Hn Hd Hlo Hhi.
  destruct data as [|x [|y l]]; [congruence| |].
  - exists x. split; [reflexivity|]. inversion Hd; subst. assumption.
  - set (data := x :: y :: l) in *.
    assert (2 <= Z.of_nat (length data)) as Hn2 by (cbn [data length]; lia).
    destruct (percentile_constant p Hin) as (V & L0 & L100).
    destruct (percentile_fraction p Hin) as (R & F & C).
    exists (pmodel data (percentile_grid p)). split.
    + apply calculatePercentile_model;
        [exact V|exact L0|exact L100|exact R|exact F|lia|lia|].
      eapply Forall_impl; [exact Hd|]. cbv beta. intros; lia.
    + apply pmodel_between; auto. lia.
Qed.

(** X14: for a non-empty ascending sequence of at most [2^52] samples that
    all lie in [[lo, hi]], with [0 <= lo] and [hi < 2^52] nanoseconds, each
    of the percentiles 25, 75, 95 and 99 is returned and lies in
    [[lo, hi]]: the rounding of the binary64 interpolation does not leave
    the range of the samples. *)
Theorem percentile_between (unrep : float -> Z) (data : list Z) (lo hi p : Z) :
  In p [25; 75; 95; 99] ->
  StronglySorted Z.le data ->
  data <> [] ->
  Z.of_nat (length data) <= 2 ^ 52 ->
  Forall (fun d => lo <= d <= hi) data ->
  0 <= lo -> hi < 2 ^ 52 ->
  exists v,
    calculatePercentile unrep data (Float64.of_int p) = Returned v /\
    lo <= v <= hi.
Proof. apply calculatePercentile_between. Qed.

Lemma percentile_between_witness :
  exists v,
    calculatePercentile Float64.amd64 [ms 10; ms 20; ms 40] (Float64.of_int 95)
    = Returned v /\
    ms 10 <= v <= ms 40.
Proof.
  apply (percentile_between Float64.amd64 [ms 10; ms 20; ms 40] (ms 10) (ms 40) 95).
  - simpl. auto.
  - repeat constructor; vm_compute; congruence.
  - discriminate.
  - vm_compute. congruence.
  - repeat constructor; vm_compute; congruence.
  - vm_compute. congruence.
  - vm_compute. reflexivity.
Defined.

(** The fractions of the percentiles 0 and 100. *)
Lemma endpoint_fraction :
  (Float64.valid (Float64.of_int 0) /\
   Float64.leb (S754_zero false) (Float64.of_int 0) = true /\
   Float64.leb (Float64.of_int 0) (Float64.of_int 100) = true /\
   regular (Float64.div (Float64.of_int 0) (Float64.of_int 100)) /\
   fval (Float64.div (Float64.of_int 0) (Float64.of_int 100)) = 0 * 2 ^ 1021) /\
  (Float64.valid (Float64.of_int 100) /\
   Float64.leb (S754_zero false) (Float64.of_int 100) = true /\
   Float64.leb (Float64.of_int 100) (Float64.of_int 100) = true /\
   regular (Float64.div (Float64.of_int 100) (Float64.of_int 100)) /\
   fval (Float64.div (Float64.of_int 100) (Float64.of_int 100))
   = 2 ^ 53 * 2 ^ 1021).
Proof.
  split.
  - change (Float64.div (Float64.of_int 0) (Float64.of_int 100))
      with (S754_zero false).
    repeat split; vm_compute; reflexivity.
  - change (Float64.div (Float64.of_int 100) (Float64.of_int 100))
      with (S754_finite false 4503599627370496 (-52)).
    split; [vm_compute; reflexivity|]. split; [vm_compute; reflexivity|].
    split; [vm_compute; reflexivity|].
    split; [unfold regular, canon; lia|reflexivity].
Qed.

(** X15: for a non-empty sequence of at most [2^52] samples, each in
    [[0, 2^52)], the percentile 0 is exactly [sorted[0]] and the percentile
    100 is exactly [sorted[len(sorted) - 1]]. *)
Theorem percentile_endpoints (unrep : float -> Z) (data : list Z) :
  data <> [] ->
  Z.of_nat (length data) <= 2 ^ 52 ->
  Forall (fun d => 0 <= d < 2 ^ 52) data ->
  calculatePercentile unrep data (Float64.of_int 0) = Returned (nth 0 data 0) /\
  calculatePercentile unrep data (Float64.of_int 100) =
  Returned (nth (length data - 1) data 0).
Proof.
  intros Hne Hn Hd.
  destruct data as [|x [|y l]]; [congruence|split; reflexivity|].
  set (data := x :: y :: l) in *.
  assert (2 <= Z.of_nat (length data)) as Hn2 by (cbn [data length]; lia).
  assert (Forall (fun d => 0 <= d < 2 ^ 53) data) as Hd'
    by (eapply Forall_impl; [exact Hd|]; cbv beta; intros; lia).
  destruct endpoint_fraction as [(V0 & A0 & B0 & R0 & F0) (V1 & A1 & B1 & R1 & F1)].
  split.
  - rewrite (calculatePercentile_model unrep data _ 0 V0 A0 B0 R0 F0) by (auto; lia).
    f_equal. unfold pmodel. rewrite Z.mul_0_l.
    change (RN 0) with 0. change (0 / 2 ^ 53) with 0. change (0 mod 2 ^ 53) with 0.
    replace (0 + 1 >=? Z.of_nat (length data)) with false
      by (symmetry; rewrite Z.geb_leb; apply Z.leb_gt; lia).
    unfold interp. change (Z.to_nat 0) with 0%nat.
    assert (0 <= nth 0 data 0 < 2 ^ 52) as Hx.
    { rewrite List.Forall_forall in Hd. apply Hd, nth_In. cbn [data length]. lia. }
    replace (nth (Z.to_nat (0 + 1)) data 0 * 0) with (nth 0 data 0 * 0) by lia.
    rewrite interpolation_exact by lia.
    apply Z.div_mul. lia.
  - rewrite (calculatePercentile_model unrep data _ (2 ^ 53) V1 A1 B1 R1 F1)
      by (auto; lia).
    f_equal. unfold pmodel.
    rewrite (Z.mul_comm (2 ^ 53)), RN_repr by lia.
    rewrite Z.div_mul by lia.
    replace (Z.of_nat (length data) - 1 + 1 >=? Z.of_nat (length data)) with true
      by (symmetry; rewrite Z.geb_leb; apply Z.leb_le; lia).
    f_equal. lia.
Qed.

Lemma percentile_endpoints_witness :
  calculatePercentile Float64.amd64 [ms 10; ms 20; ms 40] (Float64.of_int 0)
  = Returned (nth 0 [ms 10; ms 20; ms 40] 0) /\
  calculatePercentile Float64.amd64 [ms 10; ms 20; ms 40] (Float64.of_int 100)
  = Returned (nth (length [ms 10; ms 20; ms 40] - 1) [ms 10; ms 20; ms 40] 0).
Proof.
  apply (percentile_endpoints Float64.amd64 [ms 10; ms 20; ms 40]).
  - discriminate.
  - vm_compute. congruence.
  - repeat constructor; vm_compute; congruence.
Defined.

(** ** Samples that are all the same *)

Lemma sum_squares_constant (x : Z) (n : nat) :
  fold_left
    (fun sumSquares d =>
       let diff := Float64.of_int (Int64.sub d x) in
       Float64.add sumSquares (Float64.mul diff diff))
    (replicate n x) (S754_zero false) = S754_zero false.
Proof.
  match goal with |- fold_left ?g _ _ = _ => set (f := g) end.
  assert (f (S754_zero false) x = S754_zero false) as E.
  { unfold f, Int64.sub. rewrite Z.sub_diag. reflexivity. }
  induction n as [|n IH]; cbn [replicate fold_left]; [reflexivity|].
  rewrite E. exact IH.
Qed.

Lemma calculateStdDev_constant (unrep : float -> Z) (x : Z) (n : nat) :
  Z.of_nat n <= 2 ^ 53 ->
  calculateStdDev unrep (replicate n x) x = 0.
Proof.
  intros Hn. unfold calculateStdDev. rewrite length_replicate.
  destruct (Z.ltb_spec (Z.of_nat n) 2) as [|Hge]; [reflexivity|].
  rewrite sum_squares_constant.
  destruct (of_int_exact (Z.of_nat n - 1) ltac:(lia)) as (m & e & -> & _).
  reflexivity.
Qed.

Lemma sorted_constant (x : Z) (n : nat) :
  merge_sort Z.le (replicate n x) = replicate n x.
Proof.
  pose proof (merge_sort_Permutation Z.le (replicate n x)) as Hperm.
  symmetry. apply replicate_as_Forall. split.
  - rewrite (Permutation_length Hperm). apply length_replicate.
  - rewrite Hperm. apply Forall_replicate. reflexivity.
Qed.

(** X16: when the samples of a level are all the same duration [x]
    (between 1 and [2^52] samples, [0 <= x < 2^52], their sum within 64
    bits), the summary has the mean [x], the standard deviation 0 and every
    percentile equal to [x], with the number of samples as iteration
    count. *)
Theorem summary_of_constant (unrep : float -> Z) (h : Slices.heap) (cost : Z)
    (s : Slices.slice) (x : Z) :
  (Slices.ptr s < length h)%nat ->
  (Slices.len s <= length (Slices.array h s))%nat ->
  1 <= Z.of_nat (Slices.len s) <= 2 ^ 52 ->
  Slices.elems h s = replicate (Slices.len s) x ->
  0 <= x < 2 ^ 52 ->
  x * Z.of_nat (Slices.len s) <= Int64.max_int ->
  reported (snd (calculateStats unrep h cost s)) =
  Returned [cost; Z.of_nat (Slices.len s); x; 0; x; x; x; x].
Proof.
  intros Hp Hl Hn He Hx Hs.
  rewrite calculateStats_sorted by assumption. cbn [snd].
  rewrite He, sorted_constant.
  set (n := Slices.len s) in *. set (data := replicate n x).
  assert (Forall (fun d => x <= d <= x) data) as Hall
    by (apply Forall_replicate; lia).
  assert (length data = n) as Hlen by apply length_replicate.
  assert (data <> []) as Hne by (intros E; rewrite E in Hlen; simpl in Hlen; lia).
  destruct (calculateMean_between x x data Hne Hall) as (mean & -> & Hm).
  { pose proof (sum_Z_between x x data Hall) as B. rewrite Hlen in B.
    unfold Int64.in_range, Int64.min_int. lia. }
  assert (mean = x) as -> by lia. cbn [mbind outcome_bind].
  assert (forall p, In p [25; 75; 95; 99] ->
            calculatePercentile unrep data (Float64.of_int p) = Returned x) as Hpc.
  { intros p Hin.
    destruct (calculatePercentile_between unrep data x x p Hin) as (v & -> & Hv);
      auto; try lia.
    - unfold data. rewrite <- (sorted_constant x n).
      apply StronglySorted_merge_sort; apply _.
    - f_equal. lia. }
  rewrite (Hpc 25), (Hpc 75), (Hpc 95), (Hpc 99) by (simpl; auto 6).
  cbn [mbind outcome_bind reported figures CostResult.Cost CostResult.Iterations
       CostResult.Mean CostResult.StdDev CostResult.P25 CostResult.P75
       CostResult.P95 CostResult.P99].
  unfold data. rewrite calculateStdDev_constant by lia. reflexivity.
Qed.

Lemma summary_of_constant_witness :
  reported (snd (calculateStats Float64.amd64 [[ms 7; ms 7; ms 7]] 12
                   (Slices.Slice 0 3 3))) =
  Returned [12; Z.of_nat 3; ms 7; 0; ms 7; ms 7; ms 7; ms 7].
Proof.
  apply (summary_of_constant Float64.amd64 [[ms 7; ms 7; ms 7]] 12
           (Slices.Slice 0 3 3) (ms 7));
    try (simpl; lia); try (vm_compute; split; congruence);
    try (vm_compute; congruence).
Defined.

(** ** The report *)

Lemma recommendation_band (mean : Z) :
  exists b, band_range b mean /\ recommendation mean = band_message b.
Proof.
  unfold recommendation.
  change (100 * Duration.Millisecond) with (ms 100).
  change (250 * Duration.Millisecond) with (ms 250).
  change (500 * Duration.Millisecond) with (ms 500).
  change (1 * Duration.Second) with (ms 1000).
  destruct (Z.ltb_spec mean (ms 100));
    [exists Fast; split; [assumption|reflexivity]|].
  destruct (Z.ltb_spec mean (ms 250));
    [exists Balanced; split; [split; assumption|reflexivity]|].
  destruct (Z.ltb_spec mean (ms 500));
    [exists Acceptable; split; [split; assumption|reflexivity]|].
  destruct (Z.ltb_spec mean (ms 1000));
    [exists Slow; split; [split; assumption|reflexivity]|].
  exists TooSlow. split; [assumption|reflexivity].
Qed.

Lemma band_message_inj (b b' : band) :
  band_message b = band_message b' -> b = b'.
Proof. destruct b, b'; try reflexivity; discriminate. Qed.

(** X17: the recommendation is monotone in the mean: of two means, the
    larger one is never put in a faster band. *)
Theorem recommendation_monotone (mean mean' : Z) (b b' : band) :
  mean <= mean' ->
  recommendation mean = band_message b ->
  recommendation mean' = band_message b' ->
  band_index b <= band_index b'.
Proof.
  intros Hle E E'.
  destruct (recommendation_band mean) as (b0 & Hr & E0).
  destruct (recommendation_band mean') as (b1 & Hr' & E1).
  rewrite E0 in E. rewrite E1 in E'.
  apply band_message_inj in E, E'. subst b0 b1.
  revert Hr Hr'.
  destruct b, b'; cbn [band_range band_index];
    unfold ms, Duration.Millisecond, Duration.Microsecond, Duration.Nanosecond;
    intros; lia.
Qed.

Lemma recommendation_monotone_witness :
  band_index Balanced <= band_index Slow.
Proof.
  apply (recommendation_monotone (ms 100) (ms 999) Balanced Slow);
    [vm_compute; congruence|reflexivity|reflexivity].
Defined.

Lemma below_millisecond (d : Z) :
  (d <? Duration.Millisecond) = (Z.quot d 1000 <? 1000).
Proof.
  change Duration.Millisecond with 1000000.
  destruct (Z_le_gt_dec 0 d) as [Hpos|Hneg].
  - rewrite Z.quot_div_nonneg by lia.
    destruct (Z.ltb_spec d 1000000), (Z.ltb_spec (d / 1000) 1000);
      try reflexivity; exfalso.
    + assert (d / 1000 < 1000) by (apply Z.div_lt_upper_bound; lia). lia.
    + assert (1000 <= d / 1000) by (apply Z.div_le_lower_bound; lia). lia.
  - assert (Z.quot d 1000 <= 0).
    { rewrite <- (Z.opp_involutive d), Z.quot_opp_l by lia.
      pose proof (Z.quot_pos (- d) 1000 ltac:(lia) ltac:(lia)). lia. }
    destruct (Z.ltb_spec d 1000000), (Z.ltb_spec (Z.quot d 1000) 1000);
      try reflexivity; lia.
Qed.

(** X18: below one second [formatDuration] shows whole microseconds only:
    two durations under 1s with the same count of whole microseconds (the
    nanoseconds divided by 1000, truncated) are formatted alike, whatever
    the formatting of a float with two decimals is.  The nanoseconds below
    the microsecond never reach the report. *)
Theorem formatDuration_microseconds (sprintf_2f : float -> string) (d d' : Z) :
  d < Duration.Second -> d' < Duration.Second ->
  Z.quot d 1000 = Z.quot d' 1000 ->
  formatDuration sprintf_2f d = formatDuration sprintf_2f d'.
Proof.
  intros Hd Hd' E. unfold formatDuration, Microseconds, Int64.quot.
  rewrite !below_millisecond, E.
  replace (d <? Duration.Second) with true by (symmetry; apply Z.ltb_lt; exact Hd).
  replace (d' <? Duration.Second) with true by (symmetry; apply Z.ltb_lt; exact Hd').
  reflexivity.
Qed.

Lemma formatDuration_microseconds_witness :
  formatDuration two_places 999 = formatDuration two_places 0.
Proof.
  apply (formatDuration_microseconds two_places 999 0);
    [vm_compute; congruence|vm_compute; congruence|reflexivity].
Defined.

(** ** The program *)

Lemma resolvePassword_returns (rnd : entropy) (cfg : Config.t) :
  (0 < Config.GenerateLength cfg -> exists stream, rnd = RandOk stream) ->
  exists password, resolvePassword rnd cfg = Returned password.
Proof.
  intros H. unfold resolvePassword.
  destruct (Z.gtb_spec (Config.GenerateLength cfg) 0) as [Hg|Hg]; [|eauto].
  destruct (H ltac:(lia)) as [stream ->].
  destruct (generateRandomPassword_ok stream (Config.GenerateLength cfg) ltac:(lia))
    as (pw & E & _).
  eauto.
Qed.



(** ** No panic behind the checks of [parseFlags] *)

Lemma iterations_loop_no_panic (hash : primitive) (cfg : Config.t)
    (pw : list Byte.byte) (cost : Z) (fuel : nat) :
  forall (iter idx : Z) (s : Slices.slice) (w : world) (p : panic),
    0 <= idx < 10 ->
    snd (iterations_loop hash cfg pw fuel cost iter idx s w) <> Panicked p.
Proof.
  induction fuel as [|fuel IH]; intros iter idx s w p Hx; cbn [iterations_loop];
    [discriminate|].
  destruct (iter <=? Config.Iterations cfg); [|discriminate].
  destruct (spinner_step idx Hx) as [Hx' ->].
  destruct (hash _ pw cost) as [d|e]; [|discriminate].
  destruct (Slices.append _ s d) as [h2 s2].
  apply IH. exact Hx'.
Qed.

Lemma cost_loop_no_panic (unrep : float -> Z) (hash : primitive)
    (cfg : Config.t) (pw : list Byte.byte) (fuel : nat) :
  forall (cost idx : Z) (results : list CostResult.t) (w : world) (p : panic),
    1 <= Config.Iterations cfg <= 2 ^ 62 ->
    0 <= idx < 10 ->
    snd (cost_loop unrep hash cfg pw fuel cost idx results w) <> Panicked p.
Proof.
  induction fuel as [|fuel IH]; intros cost idx results w p HI Hx; cbn [cost_loop];
    [discriminate|].
  destruct (cost <=? Config.EndCost cfg); [|discriminate].
  rewrite make_returns by lia.
  pose proof (iterations_loop_no_panic hash cfg pw cost fuel 1 idx
                (Slices.Slice (length (heap w)) (Z.to_nat 0)
                   (Z.to_nat (Config.Iterations cfg)))
                (with_heap w (heap w ++ [replicate (Z.to_nat (Config.Iterations cfg)) 0])))
    as Hnp.
  destruct (iterations_loop hash cfg pw fuel cost 1 idx _ _) as [w1 [[idx1 s1]|q|msg|]]
    eqn:El; try discriminate.
  2:{ exfalso. apply (Hnp q Hx). reflexivity. }
  assert (Config.Iterations cfg < Int64.max_int) as Hlt
    by (unfold Int64.max_int; lia).
  apply iterations_loop_run in El; try assumption; try reflexivity;
    try lia.
  2:{ cbn [with_heap heap Slices.ptr]. rewrite length_app. cbn [length]. lia. }
  2:{ cbn [with_heap heap]. rewrite array_last, length_replicate. reflexivity. }
  destruct El as (E1 & Ex & _ & _ & Eh & _ & ds & Ed & Ef).
  cbn [with_heap heap Slices.ptr Slices.len Slices.cap Z.to_nat take app] in *.
  pose proof (Forall2_length _ _ _ Ef) as Hlen. rewrite length_seq in Hlen.
  replace (Config.Iterations cfg - 1 + 1) with (Config.Iterations cfg) in * by lia.
  destruct (calculateStats_returns unrep (heap w1) cost s1) as [r Er].
  - rewrite E1, Eh. cbn [Slices.ptr]. rewrite length_app. cbn [length].
    clear. lia.
  - unfold Slices.array. rewrite E1. cbn [Slices.ptr Slices.len]. rewrite Ed.
    cbn [default from_option id]. rewrite length_app, length_take.
    clear - Hlen. lia.
  - rewrite E1. cbn [Slices.len]. clear - HI. lia.
  - rewrite Er. apply IH; [exact HI|].
    rewrite Ex. apply Z.mod_pos_bound. lia.
Qed.



(** ** The summaries of a sweep *)

(** X21: every result of a sweep that returns (with [Iterations >= 1]) is
    the summary of the samples it carries: in the memory the sweep leaves,
    its [Durations] are a slice inside its backing array, and
    [calculateStats] on them, at the cost of the result, returns this very
    result. *)
Theorem sweep_summaries (unrep : float -> Z) (hash : primitive) (cfg : Config.t)
    (pw : list Byte.byte) (fuel : nat) (w w' : world)
    (results : list CostResult.t) :
  1 <= Config.Iterations cfg ->
  Int64.min_int <= Config.StartCost cfg ->
  Config.EndCost cfg < Int64.max_int ->
  runBenchmark unrep hash cfg pw fuel w = (w', Returned results) ->
  Forall
    (fun r =>
       in_heap (heap w') (CostResult.Durations r) /\
       snd (calculateStats unrep (heap w') (CostResult.Cost r)
              (CostResult.Durations r)) = Returned r)
    results.
Proof.
  intros HI HS HE. unfold runBenchmark.
  destruct (_ <? 0); [discriminate|].
  destruct (cost_loop unrep hash cfg pw fuel (Config.StartCost cfg) 0 [] w)
    as [w1 [out| | |]] eqn:E; try discriminate.
  intros [= <- <-].
  apply cost_loop_run in E; [|exact HI|exact HS|exact HE|lia].
  destruct E as (new & -> & _ & _ & _ & Hall). cbn [app print heap].
  apply Forall_lookup_2. intros l r Hr.
  destruct (Hall l r Hr) as (Hc & _ & _ & Hin & Er).
  rewrite Hc. auto.
Qed.

Lemma sweep_summaries_witness :
  Forall
    (fun r =>
       in_heap (heap (fst (runBenchmark Float64.amd64 steady example_cfg
                             example_password 10 initial_world)))
         (CostResult.Durations r) /\
       snd (calculateStats Float64.amd64
              (heap (fst (runBenchmark Float64.amd64 steady example_cfg
                            example_password 10 initial_world)))
              (CostResult.Cost r) (CostResult.Durations r)) = Returned r)
    (delivered (snd (runBenchmark Float64.amd64 steady example_cfg
                       example_password 10 initial_world))).
Proof.
  apply (sweep_summaries Float64.amd64 steady example_cfg example_password 10
           initial_world);
    [simpl; lia|vm_compute; congruence|vm_compute; congruence|
     vm_compute; reflexivity].
Defined.

Lemma calculateStats_within (unrep : float -> Z) (h : Slices.heap) (cost : Z)
    (s : Slices.slice) (lo hi : Z) (r : CostResult.t) :
  in_heap h s ->
  1 <= Z.of_nat (length (Slices.elems h s)) <= 2 ^ 16 ->
  Forall (fun d => lo <= d <= hi) (Slices.elems h s) ->
  0 <= lo -> hi <= 2 ^ 46 ->
  snd (calculateStats unrep h cost s) = Returned r ->
  summary_within lo hi r.
Proof.
  intros [Hp Hl] Hn Hall Hlo Hhi Hr.
  rewrite calculateStats_sorted in Hr by assumption. cbn [snd] in Hr.
  pose proof (merge_sort_Permutation Z.le (Slices.elems h s)) as Hperm.
  pose proof (StronglySorted_merge_sort Z.le (Slices.elems h s)) as Hsorted.
  set (data := merge_sort Z.le (Slices.elems h s)) in *.
  assert (length data = length (Slices.elems h s)) as Hlen
    by (apply Permutation_length, Hperm).
  assert (Forall (fun d => lo <= d <= hi) data) as Hdata
    by (rewrite Hperm; exact Hall).
  assert (data <> []) as Hne by (intros E; rewrite E in Hlen; simpl in Hlen; lia).
  destruct (calculateMean_between lo hi data Hne Hdata) as (mean & Em & Hm).
  { pose proof (sum_Z_between lo hi data Hdata) as B.
    unfold Int64.in_range, Int64.min_int, Int64.max_int. nia. }
  destruct (percentiles_ordered unrep data) as
    (p25 & p75 & p95 & p99 & E25 & E75 & E95 & E99 & O1 & O2).
  { apply Hsorted; apply _. }
  { eapply Forall_impl; [exact Hdata|]. cbv beta. intros; lia. }
  { lia. }
  destruct (calculatePercentile_between unrep data lo hi 25) as (v25 & F25 & B25);
    [simpl; auto|apply Hsorted; apply _|exact Hne|lia|exact Hdata|lia|lia|].
  destruct (calculatePercentile_between unrep data lo hi 99) as (v99 & F99 & B99);
    [simpl; auto 6|apply Hsorted; apply _|exact Hne|lia|exact Hdata|lia|lia|].
  rewrite E25 in F25. rewrite E99 in F99.
  injection F25 as <-. injection F99 as <-.
  rewrite Em, E25, E75, E95, E99 in Hr. cbn [mbind outcome_bind] in Hr.
  injection Hr as <-. unfold summary_within.
  cbn [CostResult.Mean CostResult.StdDev CostResult.P25 CostResult.P75
       CostResult.P95 CostResult.P99].
  repeat split; try lia.
  apply calculateStdDev_nonneg; [lia|].
  eapply Forall_impl; [exact Hdata|]. cbv beta. intros; lia.
Qed.

Lemma timed_within (hash : primitive) (pw : list Byte.byte) (cost : Z)
    (first : nat) (samples : list Z) (lo hi : Z) :
  (forall j c d, hash j pw c = HashOk d -> lo <= d <= hi) ->
  timed hash pw cost first samples ->
  Forall (fun d => lo <= d <= hi) samples.
Proof.
  intros Hh Ht. unfold timed in Ht.
  induction Ht as [|j d js ds Hd _ IH]; constructor; [|exact IH].
  eapply Hh. exact Hd.
Qed.

(** X22: when every successful invocation takes between [lo] and [hi]
    nanoseconds, with [0 <= lo] and [hi <= 2^46], and there are at most
    [2^16] iterations a level, every result of a sweep that returns has its
    mean and its four percentiles in [[lo, hi]], the percentiles in
    ascending order, and a standard deviation that is not negative. *)
Theorem sweep_within_timings (unrep : float -> Z) (hash : primitive)
    (cfg : Config.t) (pw : list Byte.byte) (fuel : nat) (w w' : world)
    (results : list CostResult.t) (lo hi : Z) :
  1 <= Config.Iterations cfg <= 2 ^ 16 ->
  Int64.min_int <= Config.StartCost cfg ->
  Config.EndCost cfg < Int64.max_int ->
  0 <= lo -> hi <= 2 ^ 46 ->
  (forall j c d, hash j pw c = HashOk d -> lo <= d <= hi) ->
  runBenchmark unrep hash cfg pw fuel w = (w', Returned results) ->
  Forall (summary_within lo hi) results.
Proof.
  intros HI HS HE Hlo Hhi Hh. unfold runBenchmark.
  destruct (_ <? 0); [discriminate|].
  destruct (cost_loop unrep hash cfg pw fuel (Config.StartCost cfg) 0 [] w)
    as [w1 [out| | |]] eqn:E; try discriminate.
  intros [= <- <-].
  apply cost_loop_run in E; [|lia|exact HS|exact HE|lia].
  destruct E as (new & -> & _ & _ & _ & Hall). cbn [app].
  apply Forall_lookup_2. intros l r Hr.
  destruct (Hall l r Hr) as (_ & Hn & Ht & Hin & Er).
  apply (calculateStats_within unrep (heap w1)
           (Config.StartCost cfg + Z.of_nat l) (CostResult.Durations r));
    try assumption.
  - rewrite Hn. lia.
  - eapply timed_within; [exact Hh|exact Ht].
Qed.

Lemma sweep_within_timings_witness :
  Forall (summary_within (ms 1) (ms 2))
    (delivered (snd (runBenchmark Float64.amd64 jittery example_cfg
                       example_password 10 initial_world))).
Proof.
  apply (sweep_within_timings Float64.amd64 jittery example_cfg example_password
           10 initial_world
           (fst (runBenchmark Float64.amd64 jittery example_cfg example_password
                   10 initial_world)));
    [vm_compute; split; congruence|vm_compute; congruence|
     vm_compute; congruence|vm_compute; congruence|vm_compute; congruence| |
     vm_compute; reflexivity].
  intros j c d. unfold jittery.
  destruct (Nat.even j); intros [= <-]; vm_compute; split; congruence.
Defined.
